(** * Local file cache and page-store client of the neon extension

    A shallow embedding of [pgxn/neon/file_cache.c] (module [LFC]) and of
    the connection management of [pgxn/neon/libpagestore.c] (module [PSC]),
    with the properties of both that the specification states. *)

From Stdlib Require Import ZArith Lia List Bool String Ascii.
From stdpp Require Import base decidable countable gmap list list_numbers.

Open Scope Z_scope.

(** ** Machine integers

    C's unsigned arithmetic wraps; the wrap is written out wherever the
    source computes on [uint32] or [uint64] objects. *)

Definition uint32 (z : Z) : Z := z mod 2 ^ 32.
Definition uint64 (z : Z) : Z := z mod 2 ^ 64.

(** ** Outcomes

    A critical section either completes or leaves the behaviour that C
    defines: an intrusive-list primitive applied to a node in the wrong
    linkage state, a pointer to a hash element that is no longer in the
    table, or a failed [Assert]. *)

Inductive fault : Type :=
  | UnlinkedNodeDeleted   (* dlist_delete on a node that is in no list *)
  | LinkedNodePushed      (* dlist_push_* on a node that is already linked *)
  | DanglingEntry         (* entry pointer whose element left the hash *)
  | AssertionFailed.      (* Assert(...) does not hold *)

Inductive outcome (A : Type) : Type :=
  | Done (a : A)
  | Undefined (f : fault).
Arguments Done {A} a.
Arguments Undefined {A} f.

#[global] Instance outcome_ret : MRet outcome := @Done.
#[global] Instance outcome_bind : MBind outcome := λ A B k m,
  match m with
  | Done a => k a
  | Undefined f => Undefined f
  end.

Definition Assert (b : bool) : outcome unit :=
  if b then Done tt else Undefined AssertionFailed.

Definition is_done {A} (m : outcome A) : Prop :=
  match m with Done _ => True | Undefined _ => False end.

Module LFC.

(** ** Constants of file_cache.c *)

Definition BLOCKS_PER_CHUNK : Z := 128.

(** Modelled from the spec: [BLCKSZ] comes from the host database's
    configuration header, which is not part of the sources; the
    specification fixes a page at 8 KiB. *)
Definition BLCKSZ : Z := 8192.

Definition CHUNK_SIZE : Z := BLOCKS_PER_CHUNK * BLCKSZ.
Definition MB : Z := 1024 * 1024.

(** [#define SIZE_MB_TO_CHUNKS(size) ((uint32)((size) * MB / BLCKSZ / BLOCKS_PER_CHUNK))]
    where [MB] is a [uint64], so the [int] argument is converted first. *)
Definition SIZE_MB_TO_CHUNKS (size : Z) : Z :=
  uint32 (uint64 (uint64 size * MB) / BLCKSZ / BLOCKS_PER_CHUNK).

(** ** Data model *)

Record RelFileNode : Type := mkRelFileNode {
  spcNode : Z;
  dbNode : Z;
  relNode : Z
}.

Record BufferTag : Type := mkBufferTag {
  rnode : RelFileNode;
  forkNum : Z;
  blockNum : Z
}.

#[global] Instance RelFileNode_eq_dec : EqDecision RelFileNode.
Proof. solve_decision. Defined.

#[global] Instance BufferTag_eq_dec : EqDecision BufferTag.
Proof. solve_decision. Defined.

#[global] Instance RelFileNode_countable : Countable RelFileNode.
Proof.
  refine (inj_countable'
            (λ r, (spcNode r, dbNode r, relNode r))
            (λ '(s, d, r), mkRelFileNode s d r) _).
  by intros [].
Defined.

#[global] Instance BufferTag_countable : Countable BufferTag.
Proof.
  refine (inj_countable'
            (λ t, (rnode t, forkNum t, blockNum t))
            (λ '(r, f, b), mkBufferTag r f b) _).
  by intros [].
Defined.

(** [FileCacheEntry]: the [key] field is the key of the hash the entry
    lives in, and [lru_node] is represented by the entry's key occurring
    in the control block's list. *)
Record FileCacheEntry : Type := mkEntry {
  offset : Z;
  access_count : Z;
  bitmap : list Z          (* uint32 bitmap[BLOCKS_PER_CHUNK/32] *)
}.

(** [FileCacheControl]. The fields are [size], [used] and [lru] in the
    source; they carry a prefix here because [size] is the name of the
    cardinality of finite maps. *)
Record FileCacheControl : Type := mkControl {
  ctl_size : Z;            (* size of cache file in chunks *)
  ctl_used : Z;            (* number of used chunks *)
  ctl_lru : list BufferTag (* head of the list first *)
}.

(** The shared memory together with the statics of the process that
    makes the calls. [lfc_hash], [lfc_ctl] and [lfc_mem] are shared:
    [lfc_mem a] is the byte at [lfc_base_addr + a], for the
    [lfc_max_size*MB] bytes of the slab and for the shared memory that
    follows it, which a copy to a slot past the slab's end reaches.
    [ShmemInitHash] makes the table for
    [SIZE_MB_TO_CHUNKS(lfc_max_size) + 1] entries; the map has no bound
    of its own, and the statements that rest on the table and the slab
    holding what they are given say so with [slab_holds].
    [lfc_max_size] and [lfc_size_limit] are statics of the translation
    unit, one copy in every process: [lfc_max_size] is set before the
    processes start, [lfc_size_limit] is reloaded by each process for
    itself, so a state holds the value of the process whose calls it
    follows ([exec_as] runs a call with another process's value).
    [holes] logs the byte offsets handed to [madvise(..., MADV_REMOVE)],
    latest first. *)
Record lfc_state : Type := mkState {
  lfc_hash : gmap BufferTag FileCacheEntry;
  lfc_ctl : FileCacheControl;
  lfc_mem : Z → Byte.byte;
  lfc_max_size : Z;
  lfc_size_limit : Z;
  holes : list Z
}.

Definition set_hash (h : gmap BufferTag FileCacheEntry) (st : lfc_state) :=
  mkState h (lfc_ctl st) (lfc_mem st) (lfc_max_size st) (lfc_size_limit st) (holes st).
Definition set_ctl (c : FileCacheControl) (st : lfc_state) :=
  mkState (lfc_hash st) c (lfc_mem st) (lfc_max_size st) (lfc_size_limit st) (holes st).
Definition set_mem (m : Z → Byte.byte) (st : lfc_state) :=
  mkState (lfc_hash st) (lfc_ctl st) m (lfc_max_size st) (lfc_size_limit st) (holes st).
Definition set_size_limit (l : Z) (st : lfc_state) :=
  mkState (lfc_hash st) (lfc_ctl st) (lfc_mem st) (lfc_max_size st) l (holes st).
Definition set_holes (p : list Z) (st : lfc_state) :=
  mkState (lfc_hash st) (lfc_ctl st) (lfc_mem st) (lfc_max_size st) (lfc_size_limit st) p.

Definition set_lru (l : list BufferTag) (c : FileCacheControl) :=
  mkControl (ctl_size c) (ctl_used c) l.

Definition set_access_count (n : Z) (e : FileCacheEntry) :=
  mkEntry (offset e) n (bitmap e).
Definition set_bitmap (b : list Z) (e : FileCacheEntry) :=
  mkEntry (offset e) (access_count e) b.

(** [lfc_shmem_startup], first attach: empty hash, [size = used = 0],
    empty list; the slab reads as zeroes after the initial [madvise]. *)
Definition lfc_shmem_startup (max_size size_limit : Z) : lfc_state :=
  mkState ∅ (mkControl 0 0 []) (λ _, Byte.x00) max_size size_limit [].

(** Capacity of the slab in chunks: [SIZE_MB_TO_CHUNKS(lfc_max_size)],
    the [lfc_size] of [lfc_shmem_startup]. *)
Definition capacity_chunks (st : lfc_state) : Z :=
  SIZE_MB_TO_CHUNKS (lfc_max_size st).

(** ** Intrusive list primitives (lib/ilist.h), on the list of linked keys

    [lib/ilist.h] belongs to the host database. Its contract is that
    [dlist_delete] is given a node that is in a list and [dlist_push_*] a
    node that is in none. On a node in the other state the functions go
    on all the same and write through the stale neighbour pointers of
    the node; what the list is afterwards depends on those pointers and
    on the reuse of hash elements, which the list of linked keys does
    not hold. The model stops there with [Undefined]: it follows the
    source up to the first call that breaks the contract and says
    nothing of what comes after. *)

Definition dlist_is_empty (l : list BufferTag) : bool :=
  match l with [] => true | _ :: _ => false end.

Fixpoint unlink (node : BufferTag) (l : list BufferTag) : list BufferTag :=
  match l with
  | [] => []
  | x :: l' => if decide (x = node) then l' else x :: unlink node l'
  end.

Definition dlist_delete (node : BufferTag) (l : list BufferTag)
  : outcome (list BufferTag) :=
  if decide (node ∈ l) then Done (unlink node l)
  else Undefined UnlinkedNodeDeleted.

Definition dlist_push_head (node : BufferTag) (l : list BufferTag)
  : outcome (list BufferTag) :=
  if decide (node ∈ l) then Undefined LinkedNodePushed
  else Done (node :: l).

Definition dlist_push_tail (node : BufferTag) (l : list BufferTag)
  : outcome (list BufferTag) :=
  if decide (node ∈ l) then Undefined LinkedNodePushed
  else Done (l ++ [node]).

(** ** Addressing a page: chunk key, page within the chunk, bitmap bit *)

(** [blkno & (BLOCKS_PER_CHUNK-1)] *)
Definition chunk_offs_of (blkno : Z) : Z :=
  Z.land blkno (BLOCKS_PER_CHUNK - 1).

(** [tag.blockNum = blkno & ~(BLOCKS_PER_CHUNK-1)] *)
Definition chunk_tag (rn : RelFileNode) (fork blkno : Z) : BufferTag :=
  mkBufferTag rn fork (Z.land blkno (Z.lnot (BLOCKS_PER_CHUNK - 1))).

(** [bitmap[chunk_offs >> 5]] *)
Definition bitmap_word (bm : list Z) (chunk_offs : Z) : Z :=
  bm !!! Z.to_nat (Z.shiftr chunk_offs 5).

(** [1 << (chunk_offs & 31)] *)
Definition bit_mask (chunk_offs : Z) : Z :=
  Z.shiftl 1 (Z.land chunk_offs 31).

(** [(bitmap[chunk_offs >> 5] & (1 << (chunk_offs & 31))) != 0] *)
Definition bitmap_test (bm : list Z) (chunk_offs : Z) : bool :=
  negb (Z.land (bitmap_word bm chunk_offs) (bit_mask chunk_offs) =? 0).

(** [bitmap[chunk_offs >> 5] |= (1 << (chunk_offs & 31))] *)
Definition bitmap_set (bm : list Z) (chunk_offs : Z) : list Z :=
  <[Z.to_nat (Z.shiftr chunk_offs 5) :=
      Z.lor (bitmap_word bm chunk_offs) (bit_mask chunk_offs)]> bm.

(** [bitmap[chunk_offs >> 5] &= ~(1 << (chunk_offs & (32 - 1)))] *)
Definition bitmap_clear (bm : list Z) (chunk_offs : Z) : list Z :=
  <[Z.to_nat (Z.shiftr chunk_offs 5) :=
      Z.land (bitmap_word bm chunk_offs)
             (uint32 (Z.lnot (bit_mask chunk_offs)))]> bm.

(** [memset(entry->bitmap, 0, sizeof entry->bitmap)] *)
Definition bitmap_zero : list Z :=
  replicate (Z.to_nat (BLOCKS_PER_CHUNK / 32)) 0.

(** [((size_t)entry->offset*BLOCKS_PER_CHUNK + chunk_offs)*BLCKSZ] *)
Definition page_addr (chunk chunk_offs : Z) : Z :=
  (chunk * BLOCKS_PER_CHUNK + chunk_offs) * BLCKSZ.

(** [memcpy(lfc_base_addr + addr, buffer, BLCKSZ)]. Nothing in the
    source compares [addr] with the size of the slab: the copy goes to
    [addr] also when that lies past the slab's end ([in_slab] tells
    where it does not). *)
Definition memcpy_to_slab (mem : Z → Byte.byte) (addr : Z)
    (buffer : list Byte.byte) : Z → Byte.byte :=
  λ a, if decide (addr ≤ a < addr + BLCKSZ)
       then nth (Z.to_nat (a - addr)) buffer Byte.x00
       else mem a.

(** [memcpy(buffer, lfc_base_addr + addr, BLCKSZ)] *)
Definition memcpy_from_slab (mem : Z → Byte.byte) (addr : Z)
  : list Byte.byte :=
  mem <$> seqZ addr BLCKSZ.

(** The bytes of the slab: [lfc_max_size*MB] of them from
    [lfc_base_addr], the product computed in [uint64]. *)
Definition slab_bytes (max_size : Z) : Z := uint64 (uint64 max_size * MB).

(** A page of slot [chunk] that lies inside the slab. *)
Definition in_slab (max_size chunk chunk_offs : Z) : Prop :=
  0 ≤ page_addr chunk chunk_offs ∧
  page_addr chunk chunk_offs + BLCKSZ ≤ slab_bytes max_size.

(** [victim->offset*CHUNK_SIZE]: the product of a [uint32] and an [int]
    constant, computed in [unsigned int]. Unlike in the addresses of
    [lfc_read] and [lfc_write], no operand is converted to [size_t]
    first, so the product wraps at 2^32. *)
Definition hole_addr (offset : Z) : Z := uint32 (offset * CHUNK_SIZE).

(** [madvise(lfc_base_addr + addr, len, MADV_REMOVE)]: the range loses
    its backing store and reads as zeroes from then on, as the whole
    slab does after the call in [lfc_shmem_startup]. *)
Definition madvise_remove (mem : Z → Byte.byte) (addr len : Z)
  : Z → Byte.byte :=
  λ a, if decide (addr ≤ a < addr + len) then Byte.x00 else mem a.

(** ** Pinning

    [if (entry->access_count++ == 0) dlist_delete(&entry->lru_node);] *)
Definition lfc_pin (tag : BufferTag) (entry : FileCacheEntry)
    (st : lfc_state) : outcome lfc_state :=
  l ← (if access_count entry =? 0
       then dlist_delete tag (ctl_lru (lfc_ctl st))
       else Done (ctl_lru (lfc_ctl st)));
  Done (set_ctl (set_lru l (lfc_ctl st))
         (set_hash (<[tag := set_access_count (uint32 (access_count entry + 1)) entry]>
                      (lfc_hash st)) st)).

(** [Assert(entry->access_count > 0);
     if (--entry->access_count == 0) dlist_push_tail(&lfc_ctl->lru, &entry->lru_node);]
    through the [entry] pointer kept from the first critical section. *)
Definition lfc_unpin (tag : BufferTag) (st : lfc_state) : outcome lfc_state :=
  match lfc_hash st !! tag with
  | None => Undefined DanglingEntry
  | Some entry =>
      _ ← Assert (0 <? access_count entry);
      let n := uint32 (access_count entry - 1) in
      l ← (if n =? 0
           then dlist_push_tail tag (ctl_lru (lfc_ctl st))
           else Done (ctl_lru (lfc_ctl st)));
      Done (set_ctl (set_lru l (lfc_ctl st))
             (set_hash (<[tag := set_access_count n entry]> (lfc_hash st)) st))
  end.

(** ** lfc_cache_contains *)
Definition lfc_cache_contains (rn : RelFileNode) (fork blkno : Z)
    (st : lfc_state) : bool :=
  if lfc_size_limit st =? 0 then false
  else
    match lfc_hash st !! chunk_tag rn fork blkno with
    | Some entry => bitmap_test (bitmap entry) (chunk_offs_of blkno)
    | None => false
    end.

(** ** lfc_evict

    The local [has_remaining_pages] is declared without an initialiser and
    assigned only when the scan meets a non-zero word. [indeterminate] is
    the value the object holds when the scan meets none. *)
Fixpoint scan_bitmap (has_remaining_pages : bool) (words : list Z) : bool :=
  match words with
  | [] => has_remaining_pages
  | w :: ws => if negb (w =? 0) then true else scan_bitmap has_remaining_pages ws
  end.

Definition lfc_evict (indeterminate : bool) (rn : RelFileNode)
    (fork blkno : Z) (st : lfc_state) : outcome lfc_state :=
  if lfc_size_limit st =? 0 then Done st
  else
    let chunk_offs := chunk_offs_of blkno in
    let tag := chunk_tag rn fork blkno in
    match lfc_hash st !! tag with
    | None => Done st
    | Some entry =>
        let bm := bitmap_clear (bitmap entry) chunk_offs in
        let st1 := set_hash (<[tag := set_bitmap bm entry]> (lfc_hash st)) st in
        if bitmap_word bm chunk_offs =? 0 then
          let has_remaining_pages := scan_bitmap indeterminate bm in
          if negb has_remaining_pages then
            l ← dlist_delete tag (ctl_lru (lfc_ctl st1));
            l' ← dlist_push_head tag l;
            Done (set_ctl (set_lru l' (lfc_ctl st1)) st1)
          else Done st1
        else Done st1
    end.

(** ** lfc_read

    First critical section: look the page up and pin its chunk. The
    result is the chunk's slab offset, or [None] when the page is not
    cached (the function returns false). *)
Definition lfc_read_begin (rn : RelFileNode) (fork blkno : Z)
    (st : lfc_state) : outcome (option Z * lfc_state) :=
  if lfc_size_limit st =? 0 then Done (None, st)
  else
    let tag := chunk_tag rn fork blkno in
    match lfc_hash st !! tag with
    | None => Done (None, st)
    | Some entry =>
        if negb (bitmap_test (bitmap entry) (chunk_offs_of blkno))
        then Done (None, st)
        else st1 ← lfc_pin tag entry st; Done (Some (offset entry), st1)
    end.

(** Second critical section of [lfc_read]. *)
Definition lfc_read_end (rn : RelFileNode) (fork blkno : Z)
    (st : lfc_state) : outcome lfc_state :=
  lfc_unpin (chunk_tag rn fork blkno) st.

(** The whole call, run by one backend with nothing in between: [Some buf]
    stands for the result true with [buf] copied into the caller's buffer. *)
Definition lfc_read (rn : RelFileNode) (fork blkno : Z) (st : lfc_state)
  : outcome (option (list Byte.byte) * lfc_state) :=
  '(r, st1) ← lfc_read_begin rn fork blkno st;
  match r with
  | None => Done (None, st1)
  | Some chunk =>
      let buffer :=
        memcpy_from_slab (lfc_mem st1) (page_addr chunk (chunk_offs_of blkno)) in
      st2 ← lfc_read_end rn fork blkno st1;
      Done (Some buffer, st2)
  end.

(** ** lfc_write

    First critical section: [HASH_ENTER], then pin an existing entry or
    take in a new one. The result is the slab offset the page goes to, or
    [None] when the cache is disabled. *)
Definition lfc_write_begin (rn : RelFileNode) (fork blkno : Z)
    (st : lfc_state) : outcome (option Z * lfc_state) :=
  if lfc_size_limit st =? 0 then Done (None, st)
  else
    let tag := chunk_tag rn fork blkno in
    let ctl := lfc_ctl st in
    match lfc_hash st !! tag with
    | Some entry =>
        st1 ← lfc_pin tag entry st; Done (Some (offset entry), st1)
    | None =>
        if (SIZE_MB_TO_CHUNKS (lfc_size_limit st) <=? ctl_used ctl)
           && negb (dlist_is_empty (ctl_lru ctl))
        then
          (* Cache overflow: evict least recently used chunk *)
          match ctl_lru ctl with
          | [] => Undefined UnlinkedNodeDeleted
          | victim_key :: rest =>
              match lfc_hash st !! victim_key with
              | None => Undefined DanglingEntry
              | Some victim =>
                  _ ← Assert (access_count victim =? 0);
                  let entry := mkEntry (offset victim) 1 bitmap_zero in
                  Done (Some (offset victim),
                        set_ctl (set_lru rest ctl)
                          (set_hash (<[tag := entry]>
                                       (delete victim_key (lfc_hash st))) st))
              end
          end
        else
          (* allocate new chunk at end of file *)
          let entry := mkEntry (ctl_size ctl) 1 bitmap_zero in
          Done (Some (ctl_size ctl),
                set_ctl (mkControl (uint32 (ctl_size ctl + 1))
                                   (uint32 (ctl_used ctl + 1))
                                   (ctl_lru ctl))
                  (set_hash (<[tag := entry]> (lfc_hash st)) st))
    end.

(** The copy into the slab, outside the lock. *)
Definition lfc_write_copy (chunk : Z) (blkno : Z) (buffer : list Byte.byte)
    (st : lfc_state) : lfc_state :=
  set_mem (memcpy_to_slab (lfc_mem st)
             (page_addr chunk (chunk_offs_of blkno)) buffer) st.

(** Second critical section: unpin, then publish the page's bit. *)
Definition lfc_write_end (rn : RelFileNode) (fork blkno : Z)
    (st : lfc_state) : outcome lfc_state :=
  let tag := chunk_tag rn fork blkno in
  st1 ← lfc_unpin tag st;
  if negb (lfc_size_limit st1 =? 0) then
    match lfc_hash st1 !! tag with
    | None => Undefined DanglingEntry
    | Some entry =>
        Done (set_hash
                (<[tag := set_bitmap (bitmap_set (bitmap entry) (chunk_offs_of blkno))
                            entry]> (lfc_hash st1)) st1)
    end
  else Done st1.

Definition lfc_write (rn : RelFileNode) (fork blkno : Z)
    (buffer : list Byte.byte) (st : lfc_state) : outcome lfc_state :=
  '(r, st1) ← lfc_write_begin rn fork blkno st;
  match r with
  | None => Done st1
  | Some chunk =>
      lfc_write_end rn fork blkno (lfc_write_copy chunk blkno buffer st1)
  end.

(** ** lfc_change_limit_hook

    The loop pops the list head while [new_size < lfc_ctl->used]; it is
    structural in the list of linked entries. [punched] collects the
    byte offsets given to [madvise], latest first. *)
Fixpoint shrink_loop (new_size : Z) (l : list BufferTag)
    (h : gmap BufferTag FileCacheEntry) (used : Z) (punched : list Z)
  : outcome (list BufferTag * gmap BufferTag FileCacheEntry * Z * list Z) :=
  match l with
  | [] => Done (l, h, used, punched)
  | victim_key :: rest =>
      if new_size <? used then
        match h !! victim_key with
        | None => Undefined DanglingEntry
        | Some victim =>
            _ ← Assert (access_count victim =? 0);
            shrink_loop new_size rest (delete victim_key h)
                        (uint32 (used - 1))
                        (hole_addr (offset victim) :: punched)
        end
      else Done (l, h, used, punched)
  end.

(** The memory after the calls of [madvise] of one run of the loop,
    the first call innermost. *)
Definition punch (punched : list Z) (mem : Z → Byte.byte) : Z → Byte.byte :=
  foldr (λ addr m, madvise_remove m addr CHUNK_SIZE) mem punched.

(** [attached] stands for the guard
    [lfc_ctl && UsedShmemSegAddr && !IsParallelWorker()]. *)
Definition lfc_change_limit_hook (attached : bool) (newval : Z)
    (st : lfc_state) : outcome lfc_state :=
  let new_size := SIZE_MB_TO_CHUNKS newval in
  if negb attached then Done st
  else
    '(l, h, used, punched) ←
       shrink_loop new_size (ctl_lru (lfc_ctl st)) (lfc_hash st)
                   (ctl_used (lfc_ctl st)) [];
    Done (set_mem (punch punched (lfc_mem st))
            (set_holes (punched ++ holes st)
               (set_ctl (mkControl (ctl_size (lfc_ctl st)) used l)
                  (set_hash h st)))).

(** [lfc_check_limit_hook]: a new value above
    [neon.max_file_cache_size] raises an error with [elog(ERROR, ...)];
    the [return false] after it is never reached. *)
Inductive check_result : Type :=
  | Accepted      (* return true *)
  | ErrorRaised.  (* elog(ERROR, "... can not be larger than ...") *)

Definition lfc_check_limit_hook (newval : Z) (st : lfc_state) : check_result :=
  if lfc_max_size st <? newval then ErrorRaised else Accepted.

(** Assignment of [neon.file_cache_size_limit] in one process, as
    [lfc_init] registers it: check hook, assign hook, then the
    variable itself. When the check hook raises, the assignment is
    given up: neither the assign hook runs nor the variable changes. *)
Definition assign_file_cache_size_limit (newval : Z) (st : lfc_state)
  : outcome (check_result * lfc_state) :=
  match lfc_check_limit_hook newval st with
  | Accepted =>
      st1 ← lfc_change_limit_hook true newval st;
      Done (Accepted, set_size_limit newval st1)
  | ErrorRaised => Done (ErrorRaised, st)
  end.

(** ** Operations and schedules

    The five operations of the cache core, and the critical sections of
    [lfc_read] and [lfc_write] as steps of their own: between the two
    sections of one call the lock is free and other backends run. An
    assignment that the check hook refuses raises in the process that
    makes it and leaves the cache as it is; the schedule goes on with
    the calls of the others. *)
Inductive op : Type :=
  | Contains (rn : RelFileNode) (fork blkno : Z)
  | Read (rn : RelFileNode) (fork blkno : Z)
  | Write (rn : RelFileNode) (fork blkno : Z) (buffer : list Byte.byte)
  | Evict (indeterminate : bool) (rn : RelFileNode) (fork blkno : Z)
  | ChangeLimitHook (attached : bool) (newval : Z)
  | AssignSizeLimit (newval : Z)
  | ReadBegin (rn : RelFileNode) (fork blkno : Z)
  | ReadEnd (rn : RelFileNode) (fork blkno : Z)
  | WriteBegin (rn : RelFileNode) (fork blkno : Z)
  | WriteCopy (rn : RelFileNode) (fork blkno : Z) (buffer : list Byte.byte)
  | WriteEnd (rn : RelFileNode) (fork blkno : Z).

Definition exec (o : op) (st : lfc_state) : outcome lfc_state :=
  match o with
  | Contains rn fork blkno => Done st
  | Read rn fork blkno => '(_, st1) ← lfc_read rn fork blkno st; Done st1
  | Write rn fork blkno buffer => lfc_write rn fork blkno buffer st
  | Evict indeterminate rn fork blkno => lfc_evict indeterminate rn fork blkno st
  | ChangeLimitHook attached newval => lfc_change_limit_hook attached newval st
  | AssignSizeLimit newval =>
      '(_, st1) ← assign_file_cache_size_limit newval st; Done st1
  | ReadBegin rn fork blkno => '(_, st1) ← lfc_read_begin rn fork blkno st; Done st1
  | ReadEnd rn fork blkno => lfc_read_end rn fork blkno st
  | WriteBegin rn fork blkno => '(_, st1) ← lfc_write_begin rn fork blkno st; Done st1
  | WriteCopy rn fork blkno buffer =>
      match lfc_hash st !! chunk_tag rn fork blkno with
      | None => Undefined DanglingEntry
      | Some entry => Done (lfc_write_copy (offset entry) blkno buffer st)
      end
  | WriteEnd rn fork blkno => lfc_write_end rn fork blkno st
  end.

Fixpoint run (ops : list op) (st : lfc_state) : outcome lfc_state :=
  match ops with
  | [] => Done st
  | o :: ops' => st1 ← exec o st; run ops' st1
  end.

(** The operations as whole calls, without the separately scheduled
    critical sections. *)
Definition whole_call (o : op) : bool :=
  match o with
  | Contains _ _ _ | Read _ _ _ | Write _ _ _ _ | Evict _ _ _ _
  | ChangeLimitHook _ _ | AssignSizeLimit _ => true
  | _ => false
  end.

(** ** Invariants *)

Definition pinned (e : FileCacheEntry) : Prop := access_count e ≠ 0.

(** An entry is linked exactly when it is in the hash with no pin. *)
Definition linked_ok (h : gmap BufferTag FileCacheEntry)
    (l : list BufferTag) : Prop :=
  ∀ k, k ∈ l ↔ ∃ e, h !! k = Some e ∧ access_count e = 0.

Record lfc_inv (st : lfc_state) : Prop := mk_lfc_inv {
  inv_nodup : NoDup (ctl_lru (lfc_ctl st));
  inv_linked : linked_ok (lfc_hash st) (ctl_lru (lfc_ctl st));
  inv_used : ctl_used (lfc_ctl st) = Z.of_nat (size (lfc_hash st));
  inv_used_size : ctl_used (lfc_ctl st) ≤ ctl_size (lfc_ctl st);
  inv_count : ∀ k e, lfc_hash st !! k = Some e → 0 ≤ access_count e < 2 ^ 32
}.

(** No counter is about to wrap: [n] bounds the chunks ever allocated and
    every pin count. *)
Definition below (n : Z) (st : lfc_state) : Prop :=
  ctl_size (lfc_ctl st) ≤ n ∧
  ∀ k e, lfc_hash st !! k = Some e → access_count e ≤ n.

(** No call is in flight. *)
Definition quiescent (st : lfc_state) : Prop :=
  ∀ k e, lfc_hash st !! k = Some e → access_count e = 0.

(** The states [lfc_pin] and [lfc_unpin] lead to when they complete. *)
Definition pin_state (tag : BufferTag) (entry : FileCacheEntry)
    (st : lfc_state) : lfc_state :=
  set_ctl (set_lru (if access_count entry =? 0
                    then unlink tag (ctl_lru (lfc_ctl st))
                    else ctl_lru (lfc_ctl st)) (lfc_ctl st))
    (set_hash (<[tag := set_access_count (uint32 (access_count entry + 1)) entry]>
                 (lfc_hash st)) st).

Definition unpin_state (tag : BufferTag) (entry : FileCacheEntry)
    (st : lfc_state) : lfc_state :=
  set_ctl (set_lru (if uint32 (access_count entry - 1) =? 0
                    then ctl_lru (lfc_ctl st) ++ [tag]
                    else ctl_lru (lfc_ctl st)) (lfc_ctl st))
    (set_hash (<[tag := set_access_count (uint32 (access_count entry - 1)) entry]>
                 (lfc_hash st)) st).

(** ** Data for the scenarios *)

Definition rel (n : Z) : RelFileNode := mkRelFileNode 1663 5 n.

(** The chunk of relation [n] that starts at block 0 of the main fork. *)
Definition chunk0 (n : Z) : BufferTag := mkBufferTag (rel n) 0 0.

Definition page_of (b : Byte.byte) : list Byte.byte :=
  replicate (Z.to_nat BLCKSZ) b.

(** Writes of page 0 of relations 1 to [n], one chunk each. *)
Definition many_chunks (n : nat) : list op :=
  (λ i, Write (rel (Z.of_nat i)) 0 0 (page_of Byte.x61)) <$> seq 1 n.

(** A cache of at most one chunk that holds page 0 of relation 1. *)
Definition one_chunk_state : lfc_state :=
  mkState {[chunk0 1 := mkEntry 0 0 [1; 0; 0; 0]]}
          (mkControl 1 1 [chunk0 1]) (λ _, Byte.x00) 4 1 [].

(** What a scenario leaves, seen through a projection of the state. *)
Definition observe {A : Type} (f : lfc_state → A) (m : outcome lfc_state)
  : option A :=
  match m with
  | Done st => Some (f st)
  | Undefined _ => None
  end.

(** The same for a call with a result. *)
Definition observe_result {A B : Type} (f : A → lfc_state → B)
    (m : outcome (A * lfc_state)) : option B :=
  match m with
  | Done (a, st) => Some (f a st)
  | Undefined _ => None
  end.

Definition lru_of (st : lfc_state) : list BufferTag := ctl_lru (lfc_ctl st).
Definition size_of (st : lfc_state) : Z := ctl_size (lfc_ctl st).
Definition used_of (st : lfc_state) : Z := ctl_used (lfc_ctl st).
Definition entry_of (k : BufferTag) (st : lfc_state) : option FileCacheEntry :=
  lfc_hash st !! k.
Definition entries_of (st : lfc_state) : nat := size (lfc_hash st).


(** The steps that hold the lock once: everything but the whole calls
    of [lfc_read] and [lfc_write], which take it twice. *)
Definition critical_section (o : op) : bool :=
  match o with
  | Read _ _ _ | Write _ _ _ _ => false
  | _ => true
  end.



(** ** Shape of the index

    What every entry of the hash looks like: its key is the first block
    of a chunk, its bitmap has a word for every 32 pages of the chunk,
    and its slot is one that was allocated and that no other entry
    holds. *)
Record lfc_shape (st : lfc_state) : Prop := mk_lfc_shape {
  shape_aligned : ∀ k e, lfc_hash st !! k = Some e →
                         chunk_offs_of (blockNum k) = 0;
  shape_bitmap : ∀ k e, lfc_hash st !! k = Some e →
                        length (bitmap e) = Z.to_nat (BLOCKS_PER_CHUNK / 32);
  shape_size : 0 ≤ ctl_size (lfc_ctl st);
  shape_slot : ∀ k e, lfc_hash st !! k = Some e →
                      0 ≤ offset e < ctl_size (lfc_ctl st);
  shape_distinct : ∀ k1 k2 e1 e2,
    lfc_hash st !! k1 = Some e1 → lfc_hash st !! k2 = Some e2 →
    offset e1 = offset e2 → k1 = k2
}.

(** The arguments as their C types bound them: a [BlockNumber] is a
    [uint32], and a size in megabytes is a GUC that [lfc_init] defines
    with the range 0 .. [INT_MAX]. *)
Definition well_typed (o : op) : Prop :=
  match o with
  | Contains _ _ blkno | Read _ _ blkno | Write _ _ blkno _
  | Evict _ _ _ blkno | ReadBegin _ _ blkno | ReadEnd _ _ blkno
  | WriteBegin _ _ blkno | WriteCopy _ _ blkno _ | WriteEnd _ _ blkno =>
      0 ≤ blkno < 2 ^ 32
  | ChangeLimitHook _ newval | AssignSizeLimit newval =>
      0 ≤ newval < 2 ^ 31
  end.

(** Every key holds a block number of the width of [BlockNumber]. *)
Definition keys_typed (st : lfc_state) : Prop :=
  ∀ k e, lfc_hash st !! k = Some e → 0 ≤ blockNum k < 2 ^ 32.

(** The block number an operation names. *)
Definition op_block (o : op) : option Z :=
  match o with
  | Contains _ _ blkno | Read _ _ blkno | Write _ _ blkno _
  | Evict _ _ _ blkno | ReadBegin _ _ blkno | ReadEnd _ _ blkno
  | WriteBegin _ _ blkno | WriteCopy _ _ blkno _ | WriteEnd _ _ blkno =>
      Some blkno
  | ChangeLimitHook _ _ | AssignSizeLimit _ => None
  end.

(** What one critical section does to the index. It updates entries in
    place, keeping their slots; or it removes entries that are not
    pinned; or it brings in the chunk of the block [blk] it was called
    for, in the slot of an unpinned victim that leaves the index, or in
    the slot [size], which it allocates. *)
Inductive index_step (blk : option Z) (st st' : lfc_state) : Prop :=
  | index_kept :
      ctl_size (lfc_ctl st') = ctl_size (lfc_ctl st) →
      (∀ k, match lfc_hash st !! k, lfc_hash st' !! k with
            | Some e, Some e' =>
                offset e' = offset e ∧ length (bitmap e') = length (bitmap e)
            | None, None => True
            | _, _ => False
            end) →
      index_step blk st st'
  | index_dropped :
      ctl_size (lfc_ctl st') = ctl_size (lfc_ctl st) →
      (∀ k, lfc_hash st' !! k = lfc_hash st !! k ∨
            (lfc_hash st' !! k = None ∧
             ∃ e, lfc_hash st !! k = Some e ∧ access_count e = 0)) →
      index_step blk st st'
  | index_replaced rn fork blkno victim v :
      blk = Some blkno →
      ctl_size (lfc_ctl st') = ctl_size (lfc_ctl st) →
      lfc_hash st !! chunk_tag rn fork blkno = None →
      lfc_hash st !! victim = Some v → access_count v = 0 →
      lfc_hash st' = <[chunk_tag rn fork blkno := mkEntry (offset v) 1 bitmap_zero]>
                       (delete victim (lfc_hash st)) →
      index_step blk st st'
  | index_grown rn fork blkno :
      blk = Some blkno →
      ctl_size (lfc_ctl st') = ctl_size (lfc_ctl st) + 1 →
      lfc_hash st !! chunk_tag rn fork blkno = None →
      lfc_hash st' = <[chunk_tag rn fork blkno :=
                         mkEntry (ctl_size (lfc_ctl st)) 1 bitmap_zero]>
                       (lfc_hash st) →
      index_step blk st st'.

(** What is cached and where, without the pins: offset and bitmap of
    every entry. *)
Definition contents (st : lfc_state) : gmap BufferTag (Z * list Z) :=
  (λ e, (offset e, bitmap e)) <$> lfc_hash st.

(** The states of the cache: those a schedule of operations and
    critical sections leads to from the state [lfc_shmem_startup]
    leaves, with arguments of their C types, and short enough for no
    32-bit counter to wrap. *)
Definition reachable (st : lfc_state) : Prop :=
  ∃ max_size size_limit ops,
    Z.of_nat (length ops) < 2 ^ 31 ∧ Forall well_typed ops ∧
    run ops (lfc_shmem_startup max_size size_limit) = Done st.

(** What [lfc_read] hands back for a page: the 8 KiB at the page's
    place in the slot of its chunk when the page's bit is set. *)
Definition cached_page (rn : RelFileNode) (fork blkno : Z) (st : lfc_state)
  : option (list Byte.byte) :=
  if lfc_size_limit st =? 0 then None
  else
    match lfc_hash st !! chunk_tag rn fork blkno with
    | Some entry =>
        if bitmap_test (bitmap entry) (chunk_offs_of blkno)
        then Some (memcpy_from_slab (lfc_mem st)
                     (page_addr (offset entry) (chunk_offs_of blkno)))
        else None
    | None => None
    end.

(** The bytes of a page of a slot. *)
Definition page_bytes (chunk chunk_offs a : Z) : Prop :=
  page_addr chunk chunk_offs ≤ a < page_addr chunk chunk_offs + BLCKSZ.

(** Two chunks with their first page cached, written by two backends
    one after the other, and the schedule that leads there. *)
Definition two_chunk_schedule : list op :=
  [WriteBegin (rel 1) 0 0; WriteEnd (rel 1) 0 0;
   WriteBegin (rel 2) 0 0; WriteEnd (rel 2) 0 0].

Definition two_chunk_state : lfc_state :=
  mkState (<[chunk0 2 := mkEntry 1 0 [1; 0; 0; 0]]>
             {[chunk0 1 := mkEntry 0 0 [1; 0; 0; 0]]})
          (mkControl 2 2 [chunk0 1; chunk0 2]) (λ _, Byte.x00) 4 2 [].

(** A cache of at most one chunk whose only chunk a write has pinned,
    and the same after the first critical section of a write to
    another chunk. *)
Definition pinned_chunk_state : lfc_state :=
  mkState {[chunk0 1 := mkEntry 0 1 bitmap_zero]}
          (mkControl 1 1 []) (λ _, Byte.x00) 4 1 [].

Definition two_pinned_chunks : lfc_state :=
  mkState (<[chunk0 2 := mkEntry 1 1 bitmap_zero]>
             {[chunk0 1 := mkEntry 0 1 bitmap_zero]})
          (mkControl 2 2 []) (λ _, Byte.x00) 4 1 [].

(** ** lfc_shmem_request and lfc_init *)

(** The integer settings [lfc_init] defines, as the configuration gives
    them. *)
Record lfc_gucs : Type := mkGucs {
  max_file_cache_size : Z;       (* neon.max_file_cache_size *)
  max_inmem_cache_size : Z;      (* neon.max_inmem_cache_size *)
  file_cache_size_limit : Z;     (* neon.file_cache_size_limit *)
  free_memory_watermark : Z      (* neon.free_memory_watermark *)
}.

(** [lfc_max_size = Min(lfc_max_size, lfc_max_mem);
     lfc_size_limit = Min(lfc_size_limit, lfc_max_mem);]
    The argument and the result are the pair of the two statics. *)
Definition lfc_shmem_request (lfc_max_mem : Z) (sizes : Z * Z) : Z * Z :=
  (Z.min sizes.1 lfc_max_mem, Z.min sizes.2 lfc_max_mem).

(** [lfc_init] in the postmaster while the library is preloaded, with
    the two hooks it installs run in their order: [lfc_shmem_request],
    then [lfc_shmem_startup]. With [neon.max_file_cache_size] at 0 it
    returns before installing any, and there is no cache: [None]. *)
Definition lfc_init (g : lfc_gucs) : option lfc_state :=
  if max_file_cache_size g =? 0 then None
  else
    let sizes := lfc_shmem_request (max_inmem_cache_size g)
                   (max_file_cache_size g, file_cache_size_limit g) in
    Some (lfc_shmem_startup sizes.1 sizes.2).

(** ** FileCacheMonitorMain *)

Definition MAX_MONITOR_INTERVAL_USEC : Z := 1000000.
Definition MAX_MEM_WRITE_RATE : Z := 10000.

(** [Min(MAX_MONITOR_INTERVAL_USEC, lfc_free_space_watermark*MB/MAX_MEM_WRITE_RATE)]
    in [uint64], the type of [MB]. *)
Definition monitor_interval (lfc_free_space_watermark : Z) : Z :=
  Z.min MAX_MONITOR_INTERVAL_USEC
        (uint64 (uint64 lfc_free_space_watermark * MB) / MAX_MEM_WRITE_RATE).

(** [static int lfc_free_space_watermark;]: no setting is defined for
    it and no statement of the file assigns it. *)
Definition lfc_free_space_watermark : Z := 0.

(** What [sysinfo] gives: its return value and the two fields read. *)
Record sysinfo : Type := mkSysinfo {
  si_rc : Z;
  totalram : Z;
  mem_unit : Z
}.

(** [get_available_memory], as compiled where [__APPLE__] is not
    defined; [None] stands for the [elog(ERROR)]. *)
Definition get_available_memory (si : sysinfo) : option Z :=
  if si_rc si <? 0 then None
  else Some (uint64 (totalram si * mem_unit si)).

(** The worker: the cache it is attached to, the statics it reads and
    the one it writes, and the log of its [pg_usleep] calls, latest
    first. *)
Record monitor : Type := mkMonitor {
  mon_cache : lfc_state;
  lfc_free_memory_watermark : Z;
  lfc_shrinking_factor : Z;
  mon_sleeps : list Z
}.

(** A worker at its start: [lfc_shrinking_factor] is a static without
    initialiser. *)
Definition monitor_start (watermark : Z) (st : lfc_state) : monitor :=
  mkMonitor st watermark 0 [].

(** The body of [while (!ShutdownRequestPending)]. [None] is the worker
    leaving through the error of [get_available_memory]. *)
Definition monitor_turn (attached : bool) (interval : Z) (si : sysinfo)
    (m : monitor) : outcome (option monitor) :=
  let st := mon_cache m in
  if negb (lfc_size_limit st =? 0) && negb (lfc_free_memory_watermark m =? 0)
  then
    match get_available_memory si with
    | None => Done None
    | Some available =>
        if available <? uint64 (uint64 (lfc_free_memory_watermark m) * MB)
        then
          let factor := if lfc_shrinking_factor m <? 31
                        then lfc_shrinking_factor m + 1
                        else lfc_shrinking_factor m in
          st' ← lfc_change_limit_hook attached
                  (Z.shiftr (lfc_size_limit st) factor) st;
          Done (Some (mkMonitor st' (lfc_free_memory_watermark m) factor
                                (interval :: mon_sleeps m)))
        else
          (* reset to initial value *)
          Done (Some (mkMonitor st (lfc_free_memory_watermark m) 0
                                (interval :: mon_sleeps m)))
    end
  else
    Done (Some (mkMonitor st (lfc_free_memory_watermark m)
                          (lfc_shrinking_factor m) (interval :: mon_sleeps m))).

(** The loop, one [sysinfo] for every turn taken before
    [ShutdownRequestPending] is set. *)
Fixpoint FileCacheMonitorMain (attached : bool) (interval : Z)
    (turns : list sysinfo) (m : monitor) : outcome (option monitor) :=
  match turns with
  | [] => Done (Some m)
  | si :: turns' =>
      r ← monitor_turn attached interval si m;
      match r with
      | None => Done None
      | Some m' => FileCacheMonitorMain attached interval turns' m'
      end
  end.

(** A turn that finds less memory than the watermark. *)
Definition low_memory (watermark : Z) (si : sysinfo) : Prop :=
  0 ≤ si_rc si ∧ uint64 (totalram si * mem_unit si) < uint64 (uint64 watermark * MB).

(** ** local_cache_pages *)

Definition uint16 (z : Z) : Z := z mod 2 ^ 16.

Definition NUM_LOCALCACHE_PAGES_ELEM : Z := 7.

Record LocalCachePagesRec : Type := mkRec {
  pageoffs : Z;
  relfilenode : Z;
  reltablespace : Z;
  reldatabase : Z;
  forknum : Z;
  blocknum : Z;
  accesscount : Z
}.

(** [for (int i = 0; i < BLOCKS_PER_CHUNK; i++)
       n_pages += (entry->bitmap[i >> 5] & (1 << (i & 31))) != 0;]
    on the [uint32] counter. *)
Definition count_chunk (entry : FileCacheEntry) (n_pages : Z) : Z :=
  foldl (λ n i, uint32 (n + (if bitmap_test (bitmap entry) i then 1 else 0)))
        n_pages (seqZ 0 BLOCKS_PER_CHUNK).

(** The first scan of the hash. *)
Definition count_pages (entries : list (BufferTag * FileCacheEntry)) : Z :=
  foldl (λ n_pages '(_, entry), count_chunk entry n_pages) 0 entries.

(** The record the second scan stores for page [i] of a chunk. *)
Definition page_record (key : BufferTag) (entry : FileCacheEntry) (i : Z)
  : LocalCachePagesRec :=
  mkRec (uint32 (offset entry * BLOCKS_PER_CHUNK + i))
        (relNode (rnode key)) (spcNode (rnode key)) (dbNode (rnode key))
        (forkNum key)
        (uint32 (blockNum key + i))
        (uint16 (access_count entry)).

(** The pages of a chunk whose bit is set, in the order of the loop. *)
Definition cached_offsets (entry : FileCacheEntry) : list Z :=
  filter (λ i, bitmap_test (bitmap entry) i = true) (seqZ 0 BLOCKS_PER_CHUNK).

(** The second scan: the records in the order they are stored. *)
Definition fill_records (entries : list (BufferTag * FileCacheEntry))
  : list LocalCachePagesRec :=
  entries ≫= (λ '(key, entry), page_record key entry <$> cached_offsets entry).

(** How the first call ends. *)
Inductive first_call : Type :=
  | Records (max_calls : Z) (record : list LocalCachePagesRec)
  | NotARowType               (* "return type must be a row type" *)
  | WrongNumberOfArguments    (* "incorrect number of output arguments" *)
  | Overrun.                  (* a store past the end of [record] *)

(** The first call, under the shared lock. [composite] and [natts]
    describe the result type that [get_call_result_type] finds;
    [hash_seq_search] visits the entries in the order of
    [map_to_list], the same in both scans. The array has [n_pages]
    elements, and the second scan stores one record for every bit set. *)
Definition local_cache_pages_first_call (composite : bool) (natts : Z)
    (st : lfc_state) : first_call :=
  if negb composite then NotARowType
  else if negb (natts =? NUM_LOCALCACHE_PAGES_ELEM) then WrongNumberOfArguments
  else
    let entries := map_to_list (lfc_hash st) in
    let n_pages := count_pages entries in
    let record := fill_records entries in
    if Z.of_nat (length record) <=? n_pages
    then Records n_pages record
    else Overrun.

(** The values of a row: [Int64GetDatum], [ObjectIdGetDatum] and
    [Int32GetDatum] of the fields, in the order of the columns. *)
Definition row_values (r : LocalCachePagesRec) : list Z :=
  [pageoffs r; relfilenode r; reltablespace r; reldatabase r;
   uint32 (forknum r); blocknum r; accesscount r].

(** A later call: the row [call_cntr], or [None] for
    [SRF_RETURN_DONE]. *)
Definition local_cache_pages_row (max_calls : Z)
    (record : list LocalCachePagesRec) (call_cntr : Z) : option (list Z) :=
  if call_cntr <? max_calls
  then row_values <$> record !! Z.to_nat call_cntr
  else None.

(** ** The slab *)

(** Whether every slot handed out so far lies in the slab: [size] has
    not passed the capacity. Nothing in the source makes this test. *)
Definition slab_holds (st : lfc_state) : bool :=
  size_of st <=? capacity_chunks st.

(** A computation that does not end with [size] past the capacity. *)
Definition stays_in_slab (m : outcome lfc_state) : Prop :=
  observe slab_holds m ≠ Some false.

(** Whether a critical section keeps the contract of the list in a
    state: [lfc_evict] is not given a page of a pinned chunk, and the
    copy and the second critical section of a call come after its
    first, which pinned the chunk. *)
Definition keeps_contract (o : op) (st : lfc_state) : Prop :=
  match o with
  | Evict _ rn fork blkno =>
      ∀ e, lfc_hash st !! chunk_tag rn fork blkno = Some e → access_count e = 0
  | ReadEnd rn fork blkno | WriteCopy rn fork blkno _ | WriteEnd rn fork blkno =>
      ∃ e, lfc_hash st !! chunk_tag rn fork blkno = Some e ∧ access_count e ≠ 0
  | _ => True
  end.

(** The calls of the storage manager on the cache, which leave the
    limit as it is. *)
Definition cache_call (o : op) : bool :=
  match o with
  | Contains _ _ _ | Read _ _ _ | Write _ _ _ _ | Evict _ _ _ _ => true
  | _ => false
  end.

(** ** Several processes

    The shared memory, and for every process its own [lfc_size_limit].
    A call of process [p] runs with the value that [p] holds; an
    assignment in [p] changes the value of [p] and of no other
    process. *)
Record cluster : Type := mkCluster {
  shmem : lfc_state;
  limit_of : nat → Z
}.

Definition exec_as (p : nat) (o : op) (c : cluster) : outcome cluster :=
  st' ← exec o (set_size_limit (limit_of c p) (shmem c));
  Done (mkCluster st' (λ q, if decide (q = p) then lfc_size_limit st'
                            else limit_of c q)).

Fixpoint run_as (calls : list (nat * op)) (c : cluster) : outcome cluster :=
  match calls with
  | [] => Done c
  | (p, o) :: calls' => c' ← exec_as p o c; run_as calls' c'
  end.

(** The processes are forked after [lfc_shmem_startup] and start with
    the value of the postmaster. *)
Definition cluster_start (max_size size_limit : Z) : cluster :=
  mkCluster (lfc_shmem_startup max_size size_limit) (λ _, size_limit).



End LFC.


Module PSC.

(** ** Constants and types of libpagestore.c *)

Definition MIN_RECONNECT_INTERVAL_USEC : Z := 1000.
Definition MAX_RECONNECT_INTERVAL_USEC : Z := 1000000.

(** [pagestore_client.h] is not part of the sources: the bounds it
    defines and the width of [shardno_t] are parameters of the model.
    [SHARDNO_MAX] is the largest value of [shardno_t]; the loop
    [for (shardno_t i = 0; i < MAX_SHARDS; i++)] of [load_shard_map]
    ends only when [MAX_SHARDS] does not exceed it. *)
Class pagestore_client_h : Type := {
  MAX_SHARDS : Z;
  MAX_PAGESERVER_CONNSTRING_SIZE : Z;
  SHARDNO_MAX : Z;
  shards_fit : 0 < MAX_SHARDS ≤ SHARDNO_MAX
}.

(** The severities this file reports at. *)
Inductive elevel : Type := LOG | WARNING | ERROR.

#[global] Instance elevel_eq_dec : EqDecision elevel.
Proof. solve_decision. Defined.

Inductive message : Type :=
  | CouldNotEstablishConnection
  | CouldNotSendPagestream
  | CouldNotCompleteHandshake
  | Connected
  | DroppingConnection
  | ShardOutOfRange
  | BadConnection
  | FailedToSendPageRequest.

(** [ShardMap]: the connection strings and their number. *)
Record ShardMap : Type := mkShardMap {
  connstring : list string;
  num_shards : Z
}.

Record PagestoreShmemState : Type := mkShmem {
  begin_update_counter : Z;
  end_update_counter : Z;
  shard_map : ShardMap
}.

(** A [PGconn]: where it leads, and whether [PQstatus] reports
    [CONNECTION_BAD]. *)
Record PGconn : Type := mkConn {
  conn_target : string;
  conn_bad : bool
}.

(** [PageServer]: [wes] tells whether a wait event set is allocated. *)
Record PageServer : Type := mkPageServer {
  conn : option PGconn;
  wes : bool
}.

(** The statics of the backend, with three logs of what it did to the
    world: reports, sleeps, and calls of [prefetch_on_ps_disconnect]. *)
Record backend : Type := mkBackend {
  page_servers : list PageServer;
  pagestore_local_counter : Z;
  n_reconnect_attempts : Z;
  max_reconnect_attempts : Z;
  stripe_size : Z;
  last_connect_time : Z;
  delay_us : Z;
  reports : list (elevel * message);
  sleeps : list Z;
  prefetch_resets : nat
}.

Definition set_page_servers (ps : list PageServer) (b : backend) : backend :=
  mkBackend ps (pagestore_local_counter b) (n_reconnect_attempts b)
    (max_reconnect_attempts b) (stripe_size b) (last_connect_time b)
    (delay_us b) (reports b) (sleeps b) (prefetch_resets b).
Definition set_local_counter (c : Z) (b : backend) : backend :=
  mkBackend (page_servers b) c (n_reconnect_attempts b)
    (max_reconnect_attempts b) (stripe_size b) (last_connect_time b)
    (delay_us b) (reports b) (sleeps b) (prefetch_resets b).
Definition set_n_reconnect_attempts (n : Z) (b : backend) : backend :=
  mkBackend (page_servers b) (pagestore_local_counter b) n
    (max_reconnect_attempts b) (stripe_size b) (last_connect_time b)
    (delay_us b) (reports b) (sleeps b) (prefetch_resets b).
Definition set_last_connect_time (t : Z) (b : backend) : backend :=
  mkBackend (page_servers b) (pagestore_local_counter b) (n_reconnect_attempts b)
    (max_reconnect_attempts b) (stripe_size b) t
    (delay_us b) (reports b) (sleeps b) (prefetch_resets b).
Definition set_delay_us (d : Z) (b : backend) : backend :=
  mkBackend (page_servers b) (pagestore_local_counter b) (n_reconnect_attempts b)
    (max_reconnect_attempts b) (stripe_size b) (last_connect_time b)
    d (reports b) (sleeps b) (prefetch_resets b).
Definition report (lvl : elevel) (m : message) (b : backend) : backend :=
  mkBackend (page_servers b) (pagestore_local_counter b) (n_reconnect_attempts b)
    (max_reconnect_attempts b) (stripe_size b) (last_connect_time b)
    (delay_us b) ((lvl, m) :: reports b) (sleeps b) (prefetch_resets b).
(** [pg_usleep(long microsec)] takes a signed word: a [uint64] from
    [2 ^ 63] on arrives as a negative number. *)
Definition to_long (z : Z) : Z := if z <? 2 ^ 63 then z else z - 2 ^ 64.
Definition pg_usleep (microsec : Z) (b : backend) : backend :=
  mkBackend (page_servers b) (pagestore_local_counter b) (n_reconnect_attempts b)
    (max_reconnect_attempts b) (stripe_size b) (last_connect_time b)
    (delay_us b) (reports b) (microsec :: sleeps b) (prefetch_resets b).
Definition prefetch_on_ps_disconnect (b : backend) : backend :=
  mkBackend (page_servers b) (pagestore_local_counter b) (n_reconnect_attempts b)
    (max_reconnect_attempts b) (stripe_size b) (last_connect_time b)
    (delay_us b) (reports b) (sleeps b) (S (prefetch_resets b)).

(** How a call ends: it returns, it raises an error (the statics keep
    what was assigned before), it runs into undefined behaviour, or the
    environment given to the model is used up while the call still loops. *)
Inductive res (A : Type) : Type :=
  | Ret (a : A) (b : backend)
  | Raise (b : backend)
  | Undef
  | Pending.
Arguments Ret {A} a b.
Arguments Raise {A} b.
Arguments Undef {A}.
Arguments Pending {A}.

(** [ereport(elevel, ...)]: [ERROR] does not return. *)
Definition ereport (lvl : elevel) (m : message) (b : backend) : res unit :=
  match lvl with
  | ERROR => Raise (report lvl m b)
  | _ => Ret tt (report lvl m b)
  end.

Section with_header.
Context `{pagestore_client_h}.

(** A backend at start: no connection, counters as initialised. *)
Definition backend_start (max_attempts stripe : Z) : backend :=
  mkBackend (replicate (Z.to_nat MAX_SHARDS) (mkPageServer None false))
    0 0 max_attempts stripe 0 MIN_RECONNECT_INTERVAL_USEC [] [] 0.

(** ** ParseShardMap *)

(** [strchr(p, ',')]: the text before the first comma, and what follows
    the comma when there is one. *)
Fixpoint strchr_comma (p : string) : string * option string :=
  match p with
  | EmptyString => (EmptyString, None)
  | String c p' =>
      if Ascii.eqb c ","%char then (EmptyString, Some p')
      else let '(a, r) := strchr_comma p' in (String c a, r)
  end.

Inductive parsed : Type :=
  | Parsed (m : ShardMap)   (* returns true *)
  | Rejected                (* returns false *)
  | MoreFuel.

(** The [for (;;)] loop; [acc] holds [result->connstring[0..nshards-1]]. *)
Fixpoint ParseShardMap_loop (fuel : nat) (p : string) (nshards : Z)
    (acc : list string) : parsed :=
  match fuel with
  | O => MoreFuel
  | S fuel' =>
      let '(item, sep) := strchr_comma p in
      let connstr_len := Z.of_nat (String.length item) in
      if (connstr_len =? 0) && negb (bool_decide (is_Some sep))
      then Parsed (mkShardMap acc nshards)     (* ignore trailing comma *)
      else if MAX_SHARDS <=? nshards then Rejected
      else if MAX_PAGESERVER_CONNSTRING_SIZE <=? connstr_len then Rejected
      else
        match sep with
        | None => Parsed (mkShardMap (acc ++ [item]) (nshards + 1))
        | Some p' => ParseShardMap_loop fuel' p' (nshards + 1) (acc ++ [item])
        end
  end.

(** The unused rows of [connstring] stay as [memset] left them. *)
Definition pad_connstrings (m : ShardMap) : ShardMap :=
  mkShardMap (connstring m ++
              replicate (Z.to_nat MAX_SHARDS - length (connstring m)) EmptyString)
             (num_shards m).

Definition ParseShardMap (connstr : string) : parsed :=
  match ParseShardMap_loop (S (String.length connstr)) connstr 0 [] with
  | Parsed m => Parsed (pad_connstrings m)
  | r => r
  end.

Definition empty_shard_map : ShardMap :=
  mkShardMap (replicate (Z.to_nat MAX_SHARDS) EmptyString) 0.

(** [AssignPageserverConnstring] in the postmaster with the shared state
    attached; [None] stands for the [elog(ERROR)] on a value that does
    not parse. *)
Definition AssignPageserverConnstring (newval : string)
    (shm : PagestoreShmemState) : option PagestoreShmemState :=
  match ParseShardMap newval with
  | Parsed m =>
      if bool_decide (connstring (shard_map shm) = connstring m ∧
                      num_shards (shard_map shm) = num_shards m)
      then Some shm
      else Some (mkShmem (uint64 (begin_update_counter shm + 1))
                         (uint64 (end_update_counter shm + 1)) m)
  | _ => None
  end.

(** [PagestoreShmemInit], first attach. *)
Definition PagestoreShmemInit (page_server_connstring : string)
  : option PagestoreShmemState :=
  AssignPageserverConnstring page_server_connstring
    (mkShmem 0 0 empty_shard_map).

(** ** Closing a connection

    The file carries two bodies under the name
    [pageserver_disconnect_shard]. The first calls itself
    unconditionally; the second, below, is the one that closes the
    connection, and the one [pageserver_disconnect] is modelled with. *)
Definition pageserver_disconnect_shard (shard_no : Z) (b : backend) : backend :=
  match page_servers b !! Z.to_nat shard_no with
  | None => b
  | Some ps =>
      let b1 := match conn ps with
                | Some _ => report LOG DroppingConnection b
                | None => b
                end in
      set_page_servers
        (<[Z.to_nat shard_no := mkPageServer None false]> (page_servers b1)) b1
  end.

Definition pageserver_disconnect (shard_no : Z) (b : backend) : backend :=
  match page_servers b !! Z.to_nat shard_no with
  | None => b
  | Some ps =>
      let b1 := match conn ps with
                | Some _ => prefetch_on_ps_disconnect b
                | None => b
                end in
      pageserver_disconnect_shard shard_no b1
  end.

(** ** load_shard_map *)

(** What one turn of the retry loop reads from shared memory, in the
    order of the reads; the postmaster may write between any two. *)
Record shmem_reads : Type := mkReads {
  rd_begin : Z;
  rd_end : Z;
  rd_num_shards : Z;
  rd_connstr : string;
  rd_begin_again : Z;
  rd_end_again : Z
}.

(** The reads of a turn during which the shared state stays [shm]. *)
Definition quiet_reads (shm : PagestoreShmemState) (shard_no : Z) : shmem_reads :=
  mkReads (begin_update_counter shm) (end_update_counter shm)
          (num_shards (shard_map shm))
          (default EmptyString (connstring (shard_map shm) !! Z.to_nat shard_no))
          (begin_update_counter shm) (end_update_counter shm).

Definition torn (r : shmem_reads) : bool :=
  negb (rd_begin r =? rd_end r)
  || negb (rd_begin r =? rd_begin_again r)
  || negb (rd_end r =? rd_end_again r).

(** The [do ... while] loop: the first turn whose reads agree. *)
Fixpoint seqlock_read (turns : list shmem_reads) : option shmem_reads :=
  match turns with
  | [] => None
  | r :: turns' => if torn r then seqlock_read turns' else Some r
  end.

Definition to_shardno (z : Z) : Z := z mod (SHARDNO_MAX + 1).

(** [for (shardno_t i = 0; i < MAX_SHARDS; i++)
       if (page_servers[i].conn) pageserver_disconnect(i);] *)
Definition disconnect_if_open (b : backend) (i : Z) : backend :=
  match page_servers b !! Z.to_nat i with
  | Some (mkPageServer (Some _) _) => pageserver_disconnect i b
  | _ => b
  end.

Definition disconnect_all (b : backend) : backend :=
  foldl disconnect_if_open b (seqZ 0 MAX_SHARDS).

(** [want_connstr] tells whether [connstr_p] is not NULL. The result is
    the pair of what [*num_shards_p] and [connstr_p] would receive. *)
Definition load_shard_map (shard_no : Z) (want_connstr : bool)
    (turns : list shmem_reads) (b : backend) : res (Z * string) :=
  match seqlock_read turns with
  | None => Pending
  | Some r =>
      let num_shards := to_shardno (rd_num_shards r) in
      if want_connstr && (num_shards <=? shard_no)
      then Raise (report ERROR ShardOutOfRange b)
      else
        let b1 :=
          if negb (pagestore_local_counter b =? rd_end r)
          then set_local_counter (rd_end r) (disconnect_all b)
          else b in
        Ret (num_shards, rd_connstr r) b1
  end.

(** ** get_shard_number *)

(** Modelled from the spec: [murmurhash32] and [hash_combine] belong to
    the host database's [common/hashfn.h]; the specification names the
    32-bit MurmurHash3 mix and gives the combine step as
    [a ⊕ (b + 0x9e3779b9 + (a<<6) + (a>>2))]. *)
Definition murmurhash32 (data : Z) : Z :=
  let h := uint32 data in
  let h := Z.lxor h (Z.shiftr h 16) in
  let h := uint32 (h * 0x85ebca6b) in
  let h := Z.lxor h (Z.shiftr h 13) in
  let h := uint32 (h * 0xc2b2ae35) in
  Z.lxor h (Z.shiftr h 16).

Definition hash_combine (a b : Z) : Z :=
  Z.lxor a (uint32 (b + 0x9e3779b9 + uint32 (Z.shiftl a 6) + Z.shiftr a 2)).

(** Division and remainder by zero are undefined in C. *)
Definition get_shard_number (tag : LFC.BufferTag)
    (turns : list shmem_reads) (b : backend) : res Z :=
  match load_shard_map 0 false turns b with
  | Ret (n_shards, _) b1 =>
      let stripe := uint32 (stripe_size b1) in
      if stripe =? 0 then Undef
      else if n_shards =? 0 then Undef
      else
        let hash := murmurhash32 (LFC.relNode (LFC.rnode tag)) in
        let hash := hash_combine hash (murmurhash32 (LFC.blockNum tag / stripe)) in
        Ret (to_shardno (hash mod n_shards)) b1
  | Raise b1 => Raise b1
  | Undef => Undef
  | Pending => Pending
  end.

(** ** pageserver_connect *)

(** How the attempt to connect ends. *)
Inductive connect_outcome : Type :=
  | ConnectionBad      (* PQstatus(conn) == CONNECTION_BAD *)
  | SendQueryFailed    (* PQsendQuery(conn, query) != 1 *)
  | HandshakeFailed    (* PQconsumeInput fails while PQisBusy *)
  | HandshakeDone.

#[global] Instance connect_outcome_eq_dec : EqDecision connect_outcome.
Proof. solve_decision. Defined.

(** What one call of [pageserver_connect] meets: the reads of the shard
    map, [GetCurrentTimestamp()] before the backoff, the fate of the
    connection, and [GetCurrentTimestamp()] after [PQconnectdbParams]. *)
Record connect_env : Type := mkEnv {
  ce_turns : list shmem_reads;
  ce_now : Z;
  ce_outcome : connect_outcome;
  ce_connected_at : Z
}.

(** The backoff step: the statics [last_connect_time] and [delay_us]. *)
Definition backoff (now : Z) (b : backend) : backend :=
  let us_since_last_connect := uint64 (now - last_connect_time b) in
  if us_since_last_connect <? MAX_RECONNECT_INTERVAL_USEC
  then set_delay_us (uint64 (delay_us b * 2)) (pg_usleep (to_long (delay_us b)) b)
  else set_delay_us MIN_RECONNECT_INTERVAL_USEC b.

(** A failure is reported at [elevel]; the function returns false unless
    the report raised. *)
Definition connect_failed (lvl : elevel) (m : message) (b : backend) : res bool :=
  match ereport lvl m b with
  | Ret _ b1 => Ret false b1
  | Raise b1 => Raise b1
  | Undef => Undef
  | Pending => Pending
  end.

Definition pageserver_connect (shard_no : Z) (lvl : elevel)
    (env : connect_env) (b : backend) : res bool :=
  match page_servers b !! Z.to_nat shard_no with
  | Some (mkPageServer None _) =>
      match load_shard_map shard_no true (ce_turns env) b with
      | Ret (_, connstr) b1 =>
          let b2 := backoff (ce_now env) b1 in
          let b3 := set_last_connect_time (ce_connected_at env) b2 in
          match ce_outcome env with
          | ConnectionBad => connect_failed lvl CouldNotEstablishConnection b3
          | SendQueryFailed => connect_failed lvl CouldNotSendPagestream b3
          | HandshakeFailed =>
              (* PQfinish(conn) and FreeWaitEventSet(wes), then the report,
                 all inside PG_TRY: when the report raises, PG_CATCH
                 finishes and frees the same two objects again *)
              match lvl with
              | ERROR => Undef
              | _ => connect_failed lvl CouldNotCompleteHandshake b3
              end
          | HandshakeDone =>
              let b4 := report LOG Connected b3 in
              Ret true
                (set_page_servers
                   (<[Z.to_nat shard_no :=
                        mkPageServer (Some (mkConn connstr false)) true]>
                      (page_servers b4)) b4)
          end
      | Raise b1 => Raise b1
      | Undef => Undef
      | Pending => Pending
      end
  | _ => Undef               (* Assert(page_servers[shard_no].conn == NULL) *)
  end.

(** ** pageserver_send *)

(** [while (!pageserver_connect(shard_no,
              n_reconnect_attempts < max_reconnect_attempts ? LOG : ERROR))
       { HandleMainLoopInterrupts(); n_reconnect_attempts += 1; }]
    one environment per attempt. *)
Fixpoint connect_loop (shard_no : Z) (envs : list connect_env)
    (b : backend) : res unit :=
  match envs with
  | [] => Pending
  | env :: envs' =>
      let lvl := if n_reconnect_attempts b <? max_reconnect_attempts b
                 then LOG else ERROR in
      match pageserver_connect shard_no lvl env b with
      | Ret true b1 => Ret tt b1
      | Ret false b1 =>
          connect_loop shard_no envs'
            (set_n_reconnect_attempts (n_reconnect_attempts b1 + 1) b1)
      | Raise b1 => Raise b1
      | Undef => Undef
      | Pending => Pending
      end
  end.

(** [put_ok] tells whether [PQputCopyData] accepts the request. *)
Definition pageserver_send (shard_no : Z) (envs : list connect_env)
    (put_ok : bool) (b : backend) : res bool :=
  let b1 :=
    match page_servers b !! Z.to_nat shard_no with
    | Some (mkPageServer (Some c) _) =>
        if conn_bad c
        then pageserver_disconnect shard_no (report LOG BadConnection b)
        else b
    | _ => b
    end in
  let connected :=
    match page_servers b1 !! Z.to_nat shard_no with
    | Some (mkPageServer None _) =>
        match connect_loop shard_no envs b1 with
        | Ret _ b2 => Ret tt (set_n_reconnect_attempts 0 b2)
        | r => r
        end
    | Some _ => Ret tt b1
    | None => Undef            (* shard_no is no index of page_servers *)
    end in
  match connected with
  | Ret _ b2 =>
      if put_ok then Ret true b2
      else Ret false
             (report LOG FailedToSendPageRequest (pageserver_disconnect shard_no b2))
  | Raise b2 => Raise b2
  | Undef => Undef
  | Pending => Pending
  end.

(** ** Vocabulary of the statements *)

(** The levels at which connection failures were reported, latest first. *)
Definition is_connect_failure (m : message) : bool :=
  match m with
  | CouldNotEstablishConnection | CouldNotSendPagestream
  | CouldNotCompleteHandshake => true
  | _ => false
  end.

Definition failure_levels (b : backend) : list elevel :=
  (filter (λ r, is_connect_failure r.2 = true) (reports b)).*1.

(** An attempt on [shard_no] that reads a consistent shard map holding
    that shard. *)
Definition reads_shard (shard_no : Z) (env : connect_env) : Prop :=
  ∃ r, seqlock_read (ce_turns env) = Some r ∧
       shard_no < to_shardno (rd_num_shards r).

(** ... and does not get through, or does. *)
Definition refused (shard_no : Z) (env : connect_env) : Prop :=
  reads_shard shard_no env ∧ ce_outcome env ≠ HandshakeDone.

Definition accepted (shard_no : Z) (env : connect_env) : Prop :=
  reads_shard shard_no env ∧ ce_outcome env = HandshakeDone.

Definition unconnected (shard_no : Z) (b : backend) : Prop :=
  ∃ w, page_servers b !! Z.to_nat shard_no = Some (mkPageServer None w).

(** The statics that closing connections does not touch. *)
Definition same_counters (b b' : backend) : Prop :=
  n_reconnect_attempts b' = n_reconnect_attempts b ∧
  max_reconnect_attempts b' = max_reconnect_attempts b ∧
  stripe_size b' = stripe_size b ∧
  last_connect_time b' = last_connect_time b ∧
  delay_us b' = delay_us b ∧
  sleeps b' = sleeps b ∧
  failure_levels b' = failure_levels b.

(** The statics a call leaves, whether it returned or raised. *)
Definition statics {A B : Type} (f : backend → B) (r : res A) : option B :=
  match r with
  | Ret _ b | Raise b => Some (f b)
  | Undef | Pending => None
  end.

Definition is_open (ps : PageServer) : bool :=
  match conn ps with Some _ => true | None => false end.

(** Attempts made in a row, with their outcomes. The attempt made at
    time [t] after a sleep of [d] microseconds learns its outcome a
    millisecond later, and the caller goes on at once; [d] follows the
    doubling of [delay_us] from the first attempt, which does not sleep. *)
Fixpoint attempts (shm : PagestoreShmemState) (shard_no t d : Z)
    (outcomes : list connect_outcome) : list connect_env :=
  match outcomes with
  | [] => []
  | o :: outcomes' =>
      mkEnv [quiet_reads shm shard_no] t o (t + d + 1000)
      :: attempts shm shard_no (t + d + 1010) (2 * Z.max d 500) outcomes'
  end.

End with_header.

(** A header to run the model with. *)
Definition sample_header : pagestore_client_h :=
  Build_pagestore_client_h 128 256 255 ltac:(lia).

Section connection_strings.
Context `{pagestore_client_h}.

(** ** CheckPageserverConnstring *)

(** [return ParseShardMap(p, NULL);] *)
Definition CheckPageserverConnstring (newval : string) : bool :=
  match ParseShardMap newval with
  | Parsed _ => true
  | _ => false
  end.

(** The value of the setting for a list of connection strings: the
    strings with a comma between each two. *)
Fixpoint join_commas (items : list string) : string :=
  match items with
  | [] => EmptyString
  | [s] => s
  | s :: rest => String.append s (String ","%char (join_commas rest))
  end.

Fixpoint comma_free (s : string) : bool :=
  match s with
  | EmptyString => true
  | String c s' => negb (Ascii.eqb c ","%char) && comma_free s'
  end.

(** A connection string that fits a row of [ShardMap.connstring] with
    its terminator. *)
Definition fits_row (s : string) : Prop :=
  comma_free s = true ∧ Z.of_nat (String.length s) < MAX_PAGESERVER_CONNSTRING_SIZE.

(** A shard map as [ParseShardMap] leaves it: no more shards than
    rows, a connection string that fits in every row in use, and the
    other rows empty. *)
Definition well_formed (m : ShardMap) : Prop :=
  0 ≤ num_shards m ≤ MAX_SHARDS ∧
  length (connstring m) = Z.to_nat MAX_SHARDS ∧
  (∀ i, (i < Z.to_nat (num_shards m))%nat →
        ∃ s, connstring m !! i = Some s ∧ fits_row s) ∧
  (∀ i, (Z.to_nat (num_shards m) ≤ i)%nat → (i < Z.to_nat MAX_SHARDS)%nat →
        connstring m !! i = Some EmptyString).

(** The values the setting takes in the postmaster, with one call of
    [AssignPageserverConnstring] for each. *)
Fixpoint postmaster_assigns (newvals : list string) (shm : PagestoreShmemState)
  : option PagestoreShmemState :=
  match newvals with
  | [] => Some shm
  | newval :: newvals' =>
      match AssignPageserverConnstring newval shm with
      | Some shm' => postmaster_assigns newvals' shm'
      | None => None
      end
  end.

(** ** The shared shard map under a writer and a reader

    [AssignPageserverConnstring] changes the shared state by three
    writes: it adds one to [begin_update_counter], copies the new map
    with [memcpy], and adds one to [end_update_counter]. The copy is no
    single write: a reader that runs beside it may find any mix of the
    old and the new map, which [Copy] stands for; the last [Copy] of an
    update leaves the new map. *)
Inductive shmem_write : Type :=
  | BeginUpdate
  | Copy (found : ShardMap)
  | EndUpdate.

Definition shmem_apply (shm : PagestoreShmemState) (w : shmem_write)
  : PagestoreShmemState :=
  match w with
  | BeginUpdate =>
      mkShmem (uint64 (begin_update_counter shm + 1)) (end_update_counter shm)
              (shard_map shm)
  | Copy found =>
      mkShmem (begin_update_counter shm) (end_update_counter shm) found
  | EndUpdate =>
      mkShmem (begin_update_counter shm) (uint64 (end_update_counter shm + 1))
              (shard_map shm)
  end.

(** The writes of one call that finds the map changed; [mixed] are the
    states of the map while [memcpy] is at work. *)
Definition assign_writes (mixed : list ShardMap) (m : ShardMap)
  : list shmem_write :=
  BeginUpdate :: (Copy <$> mixed) ++ [Copy m; EndUpdate].

(** The writes the postmaster, the only writer, can have made: calls
    one after the other, the last of them possibly still at work.
    [updating] tells whether a call is between its two counter
    updates. *)
Fixpoint postmaster_writes (updating : bool) (ws : list shmem_write) : bool :=
  match ws with
  | [] => true
  | BeginUpdate :: ws' => negb updating && postmaster_writes true ws'
  | Copy _ :: ws' => updating && postmaster_writes true ws'
  | EndUpdate :: ws' => updating && postmaster_writes false ws'
  end.

(** The shared state in time: before the first write, after it, and so
    on. *)
Fixpoint history (shm : PagestoreShmemState) (ws : list shmem_write)
  : list PagestoreShmemState :=
  shm :: match ws with
         | [] => []
         | w :: ws' => history (shmem_apply shm w) ws'
         end.

(** The times of the six reads of one turn of the loop of
    [load_shard_map], in program order. *)
Record read_times : Type := mkTimes {
  t_begin : nat;
  t_end : nat;
  t_num_shards : nat;
  t_connstr : nat;
  t_begin_again : nat;
  t_end_again : nat
}.

Definition in_program_order (ts : read_times) : Prop :=
  (t_begin ts ≤ t_end ts)%nat ∧ (t_end ts ≤ t_num_shards ts)%nat ∧
  (t_num_shards ts ≤ t_connstr ts)%nat ∧ (t_connstr ts ≤ t_begin_again ts)%nat ∧
  (t_begin_again ts ≤ t_end_again ts)%nat.

(** What the turn reads when its reads fall at these times. *)
Definition reads_at (h : list PagestoreShmemState) (shard_no : Z)
    (ts : read_times) : option shmem_reads :=
  s1 ← h !! t_begin ts;
  s2 ← h !! t_end ts;
  s3 ← h !! t_num_shards ts;
  s4 ← h !! t_connstr ts;
  s5 ← h !! t_begin_again ts;
  s6 ← h !! t_end_again ts;
  Some (mkReads (begin_update_counter s1) (end_update_counter s2)
                (num_shards (shard_map s3))
                (default EmptyString
                   (connstring (shard_map s4) !! Z.to_nat shard_no))
                (begin_update_counter s5) (end_update_counter s6)).

End connection_strings.

(** A setting to run the model with. *)
Definition two_pageservers : list string := ["host=ps1"; "host=ps2"]%string.

(** ** call_PQgetCopyData, pageserver_receive, pageserver_flush *)

(** The reports of these three functions. They are kept apart from
    [message] and carried by the result of the call, latest first; the
    reports of [pageserver_disconnect], which the functions call, go to
    the backend's log as before. *)
Inductive io_message : Type :=
  | CouldNotGetResponse        (* "could not get response from pageserver" *)
  | CopyDataReturnedMinusOne   (* "... because call_PQgetCopyData returns -1" *)
  | CouldNotReadCopyData       (* "... because could not read COPY data" *)
  | UnexpectedCopyDataResult   (* "... because unexpected PQgetCopyData return value" *)
  | CaughtException            (* "... disconnect due to caught exception" *)
  | FlushWhileDisconnected     (* "Tried to flush while disconnected" *)
  | FailedToFlush.             (* "... because failed to flush page requests" *)

(** One turn of the [retry:] loop of [call_PQgetCopyData]: what
    [PQgetCopyData] returns and puts in the buffer, and, when it
    returns 0, whether [CHECK_FOR_INTERRUPTS] raises, whether the
    socket is readable and whether [PQconsumeInput] succeeds. *)
Record copy_turn : Type := mkCopyTurn {
  ct_ret : Z;
  ct_data : list Byte.byte;
  ct_interrupt : bool;
  ct_readable : bool;
  ct_consumed : bool
}.

Inductive copy_result : Type :=
  | CopyRet (rc : Z) (data : list Byte.byte)
  | CopyRaise
  | CopyPending.

Fixpoint call_PQgetCopyData (turns : list copy_turn)
  : copy_result * list (elevel * io_message) :=
  match turns with
  | [] => (CopyPending, [])
  | t :: turns' =>
      if ct_ret t =? 0 then
        if ct_interrupt t then (CopyRaise, [])
        else if ct_readable t && negb (ct_consumed t)
        then (CopyRet (-1) [], [(LOG, CouldNotGetResponse)])
        else call_PQgetCopyData turns'
      else (CopyRet (ct_ret t) (ct_data t), [])
  end.

(** How a call of [pageserver_receive] or [pageserver_flush] ends. *)
Inductive io_res (A : Type) : Type :=
  | IoRet (a : A) (b : backend) (log : list (elevel * io_message))
  | IoRaise (b : backend) (log : list (elevel * io_message))
  | IoUndef
  | IoPending.
Arguments IoRet {A} a b log.
Arguments IoRaise {A} b log.
Arguments IoUndef {A}.
Arguments IoPending {A}.

Section requests.
Context `{pagestore_client_h}.

(** [nm_unpack_response] belongs to another file; [None] stands for an
    error it raises. *)
Variable NeonResponse : Type.
Variable nm_unpack_response : list Byte.byte → option NeonResponse.

(** [None] as a result is the NULL pointer. The body runs inside
    [PG_TRY]; the handler reports, calls [pageserver_disconnect] and
    raises again. *)
Definition pageserver_receive (shard_no : Z) (turns : list copy_turn)
    (b : backend) : io_res (option NeonResponse) :=
  match page_servers b !! Z.to_nat shard_no with
  | None => IoUndef
  | Some (mkPageServer None _) => IoRet None b []
  | Some (mkPageServer (Some _) _) =>
      let caught (b' : backend) (log : list (elevel * io_message)) :=
        IoRaise (pageserver_disconnect shard_no b')
                ((LOG, CaughtException) :: log) in
      match call_PQgetCopyData turns with
      | (CopyPending, _) => IoPending
      | (CopyRaise, log) => caught b log
      | (CopyRet rc data, log) =>
          if 0 <=? rc then
            match nm_unpack_response data with
            | Some resp => IoRet (Some resp) b log
            | None => caught b log
            end
          else if rc =? -1 then
            IoRet None (pageserver_disconnect shard_no b)
                  ((LOG, CopyDataReturnedMinusOne) :: log)
          else if rc =? -2 then
            caught (pageserver_disconnect shard_no b)
                   ((ERROR, CouldNotReadCopyData) :: log)
          else
            caught (pageserver_disconnect shard_no b)
                   ((ERROR, UnexpectedCopyDataResult) :: log)
      end
  end.

(** [flush_failed] tells whether [PQflush] returns non-zero. *)
Definition pageserver_flush (shard_no : Z) (flush_failed : bool)
    (b : backend) : io_res bool :=
  match page_servers b !! Z.to_nat shard_no with
  | None => IoUndef
  | Some (mkPageServer None _) =>
      IoRet true b [(WARNING, FlushWhileDisconnected)]
  | Some (mkPageServer (Some _) _) =>
      if flush_failed
      then IoRet false (pageserver_disconnect shard_no b) [(LOG, FailedToFlush)]
      else IoRet true b []
  end.

(** The shard's connection is closed, the prefetch state was reset
    once, and nothing else of the backend changed. *)
Definition dropped (shard_no : Z) (b b' : backend) : Prop :=
  unconnected shard_no b' ∧
  prefetch_resets b' = S (prefetch_resets b) ∧
  (∀ j, j ≠ Z.to_nat shard_no → page_servers b' !! j = page_servers b !! j) ∧
  same_counters b b' ∧
  pagestore_local_counter b' = pagestore_local_counter b.

End requests.

End PSC.


(** * Properties *)

(** ** Wrap-around *)

Lemma uint32_small z : 0 ≤ z < 2 ^ 32 → uint32 z = z.
Proof. intros H. unfold uint32. by apply Z.mod_small. Qed.

Lemma uint64_small z : 0 ≤ z < 2 ^ 64 → uint64 z = z.
Proof. intros H. unfold uint64. by apply Z.mod_small. Qed.

Lemma uint32_range z : 0 ≤ uint32 z < 2 ^ 32.
Proof. unfold uint32. apply Z.mod_pos_bound. lia. Qed.

Module LFC_Theory.
Import LFC.

(** With 8 KiB pages a chunk is one megabyte, so the conversion of a
    size in megabytes to chunks is the identity on the range of [int]. *)
Lemma SIZE_MB_TO_CHUNKS_id z : 0 ≤ z < 2 ^ 31 → SIZE_MB_TO_CHUNKS z = z.
Proof.
  intros H. unfold SIZE_MB_TO_CHUNKS, BLCKSZ, BLOCKS_PER_CHUNK, MB.
  rewrite (uint64_small z) by lia.
  rewrite uint64_small by lia.
  rewrite Z.div_div by lia.
  replace (z * (1024 * 1024)) with (z * (8192 * 128)) by lia.
  rewrite Z.div_mul by lia.
  apply uint32_small. lia.
Qed.

Lemma SIZE_MB_TO_CHUNKS_range z : 0 ≤ SIZE_MB_TO_CHUNKS z < 2 ^ 32.
Proof. apply uint32_range. Qed.

(** *** The outcome monad *)

Lemma bind_Done {A B} (m : outcome A) (k : A → outcome B) b :
  m ≫= k = Done b → ∃ a, m = Done a ∧ k a = Done b.
Proof. destruct m as [a|f]; simpl; [eauto | discriminate]. Qed.

Lemma Assert_Done b u : Assert b = Done u → b = true.
Proof. by destruct b. Qed.

(** *** Intrusive list *)

Lemma unlink_notin k (l : list BufferTag) : k ∉ l → unlink k l = l.
Proof.
  induction l as [|x l IH]; simpl; [done|].
  intros Hk. apply not_elem_of_cons in Hk as [Hne Hk].
  destruct (decide (x = k)); [congruence|]. by rewrite IH.
Qed.

Lemma elem_of_unlink k x (l : list BufferTag) :
  NoDup l → x ∈ unlink k l ↔ x ∈ l ∧ x ≠ k.
Proof.
  induction 1 as [|y l Hy Hnd IH]; simpl.
  - split; [inversion 1 | intros [H _]; inversion H].
  - destruct (decide (y = k)) as [->|Hne].
    + rewrite elem_of_cons. split.
      * intros Hx. split; [by right|]. intros ->. done.
      * intros [[->|Hx] Hxk]; done.
    + rewrite !elem_of_cons, IH. naive_solver.
Qed.

Lemma NoDup_unlink k (l : list BufferTag) : NoDup l → NoDup (unlink k l).
Proof.
  induction 1 as [|y l Hy Hnd IH]; simpl; [constructor|].
  destruct (decide (y = k)); [done|].
  constructor; [|done]. rewrite elem_of_unlink by done. tauto.
Qed.

Lemma dlist_delete_Done k l l' :
  dlist_delete k l = Done l' → k ∈ l ∧ l' = unlink k l.
Proof. unfold dlist_delete. case_decide; naive_solver. Qed.

Lemma dlist_push_head_Done k l l' :
  dlist_push_head k l = Done l' → (k ∉ l) ∧ l' = (k :: l).
Proof. unfold dlist_push_head. case_decide; naive_solver. Qed.

Lemma dlist_push_tail_Done k l l' :
  dlist_push_tail k l = Done l' → (k ∉ l) ∧ l' = (l ++ [k]).
Proof. unfold dlist_push_tail. case_decide; naive_solver. Qed.

(** *** Linkage under the updates the critical sections make *)

Section linkage.
Implicit Types (h : gmap BufferTag FileCacheEntry) (l : list BufferTag).

Lemma linked_same_pin h l t e e' :
  linked_ok h l → h !! t = Some e →
  (access_count e' = 0 ↔ access_count e = 0) →
  linked_ok (<[t := e']> h) l.
Proof.
  intros Hl Ht Hpin k. rewrite (Hl k).
  destruct (decide (k = t)) as [->|Hne].
  - rewrite lookup_insert_eq. naive_solver.
  - by rewrite lookup_insert_ne.
Qed.

Lemma linked_pin h l t e e' :
  linked_ok h l → NoDup l → h !! t = Some e →
  access_count e' ≠ 0 →
  linked_ok (<[t := e']> h) (unlink t l).
Proof.
  intros Hl Hnd Ht Hpin k. rewrite elem_of_unlink, (Hl k) by done.
  destruct (decide (k = t)) as [->|Hne].
  - rewrite lookup_insert_eq. naive_solver.
  - rewrite lookup_insert_ne by done. naive_solver.
Qed.

Lemma linked_unpin h l t e e' :
  linked_ok h l → h !! t = Some e → access_count e' = 0 →
  linked_ok (<[t := e']> h) (l ++ [t]).
Proof.
  intros Hl Ht Hpin k. rewrite elem_of_app, list_elem_of_singleton, (Hl k).
  destruct (decide (k = t)) as [->|Hne].
  - rewrite lookup_insert_eq. naive_solver.
  - rewrite lookup_insert_ne by done. naive_solver.
Qed.

Lemma linked_to_head h l t :
  linked_ok h l → NoDup l → t ∈ l → linked_ok h (t :: unlink t l).
Proof.
  intros Hl Hnd Ht k. rewrite elem_of_cons, elem_of_unlink, <- (Hl k) by done.
  destruct (decide (k = t)); naive_solver.
Qed.

Lemma linked_pop h l v :
  linked_ok h (v :: l) → NoDup (v :: l) → linked_ok (delete v h) l.
Proof.
  intros Hl Hnd k. apply NoDup_cons in Hnd as [Hv Hnd].
  destruct (decide (k = v)) as [->|Hne].
  - rewrite lookup_delete_eq. naive_solver.
  - rewrite lookup_delete_ne by done. rewrite <- (Hl k), elem_of_cons.
    naive_solver.
Qed.

Lemma linked_new_entry h l t e :
  linked_ok h l → h !! t = None → access_count e ≠ 0 →
  linked_ok (<[t := e]> h) l.
Proof.
  intros Hl Ht Hpin k. rewrite (Hl k).
  destruct (decide (k = t)) as [->|Hne].
  - rewrite lookup_insert_eq, Ht. naive_solver.
  - by rewrite lookup_insert_ne.
Qed.

Lemma linked_lookup h l k :
  linked_ok h l → k ∈ l → ∃ e, h !! k = Some e ∧ access_count e = 0.
Proof. intros Hl. by apply Hl. Qed.

Lemma pinned_unlinked h l k e :
  linked_ok h l → h !! k = Some e → access_count e ≠ 0 → k ∉ l.
Proof. intros Hl Hk Hp Hin. apply Hl in Hin. naive_solver. Qed.

Lemma unpinned_linked h l k e :
  linked_ok h l → h !! k = Some e → access_count e = 0 → k ∈ l.
Proof. intros Hl Hk Hp. apply Hl. eauto. Qed.
End linkage.

(** *** Pin and unpin *)

Lemma lfc_pin_Done tag entry st st' :
  lfc_pin tag entry st = Done st' →
  st' = pin_state tag entry st ∧
  (access_count entry = 0 → tag ∈ ctl_lru (lfc_ctl st)).
Proof.
  unfold lfc_pin, pin_state. intros H.
  apply bind_Done in H as (l & Hl & H). injection H as <-.
  destruct (access_count entry =? 0) eqn:E.
  - apply dlist_delete_Done in Hl as [Hin ->]. done.
  - injection Hl as <-. split; [done|lia].
Qed.

Lemma lfc_pin_defined tag entry st :
  linked_ok (lfc_hash st) (ctl_lru (lfc_ctl st)) →
  lfc_hash st !! tag = Some entry →
  lfc_pin tag entry st = Done (pin_state tag entry st).
Proof.
  intros Hl Ht. unfold lfc_pin, pin_state.
  destruct (access_count entry =? 0) eqn:E; [|done].
  unfold dlist_delete. rewrite decide_True; [done|].
  eapply unpinned_linked; eauto. lia.
Qed.

Lemma lfc_unpin_Done tag st st' :
  lfc_unpin tag st = Done st' →
  ∃ entry, lfc_hash st !! tag = Some entry ∧ 0 < access_count entry ∧
           st' = unpin_state tag entry st ∧
           (uint32 (access_count entry - 1) = 0 → tag ∉ ctl_lru (lfc_ctl st)).
Proof.
  unfold lfc_unpin, unpin_state. intros H.
  destruct (lfc_hash st !! tag) as [entry|] eqn:Ht; [|discriminate].
  exists entry. split; [done|].
  apply bind_Done in H as ([] & Ha & H). apply Assert_Done in Ha.
  apply bind_Done in H as (l & Hl & H). injection H as <-.
  split; [lia|].
  destruct (uint32 (access_count entry - 1) =? 0) eqn:E.
  - apply dlist_push_tail_Done in Hl as [Hin ->]. done.
  - injection Hl as <-. split; [done|lia].
Qed.

Lemma lfc_unpin_defined tag entry st :
  linked_ok (lfc_hash st) (ctl_lru (lfc_ctl st)) →
  lfc_hash st !! tag = Some entry → 0 < access_count entry →
  lfc_unpin tag st = Done (unpin_state tag entry st).
Proof.
  intros Hl Ht Hpos. unfold lfc_unpin, unpin_state. rewrite Ht.
  replace (0 <? access_count entry) with true by lia. simpl.
  destruct (uint32 (access_count entry - 1) =? 0) eqn:E; [|done].
  unfold dlist_push_tail. rewrite decide_False; [done|].
  eapply pinned_unlinked; eauto. lia.
Qed.

(** The invariant survives a pin, and the bound moves by one. *)
Lemma pin_state_inv n tag entry st :
  lfc_inv st → below n st → n + 1 < 2 ^ 32 →
  lfc_hash st !! tag = Some entry →
  lfc_inv (pin_state tag entry st) ∧ below (n + 1) (pin_state tag entry st).
Proof.
  intros [Hnd Hl Hu Hus Hc] [Hbs Hba] Hn Ht.
  pose proof (Hc _ _ Ht) as Hc0. pose proof (Hba _ _ Ht) as Hb0.
  assert (Hw : uint32 (access_count entry + 1) = access_count entry + 1)
    by (apply uint32_small; lia).
  split; [split|split]; simpl.
  - destruct (access_count entry =? 0); [by apply NoDup_unlink|done].
  - destruct (access_count entry =? 0) eqn:E.
    + eapply linked_pin; eauto. simpl. lia.
    + eapply linked_same_pin; eauto. simpl. lia.
  - by rewrite map_size_insert_Some.
  - done.
  - intros k e. destruct (decide (k = tag)) as [->|Hne].
    + rewrite lookup_insert_eq. intros [= <-]. simpl. lia.
    + rewrite lookup_insert_ne by done. apply Hc.
  - lia.
  - intros k e. destruct (decide (k = tag)) as [->|Hne].
    + rewrite lookup_insert_eq. intros [= <-]. simpl. lia.
    + rewrite lookup_insert_ne by done. intros He. specialize (Hba _ _ He). lia.
Qed.

Lemma unpin_state_inv n tag entry st :
  lfc_inv st → below n st →
  lfc_hash st !! tag = Some entry → 0 < access_count entry →
  lfc_inv (unpin_state tag entry st) ∧ below n (unpin_state tag entry st).
Proof.
  intros [Hnd Hl Hu Hus Hc] [Hbs Hba] Ht Hpos.
  pose proof (Hba _ _ Ht) as Hb0. pose proof (Hc _ _ Ht) as Hc0.
  assert (Hw : uint32 (access_count entry - 1) = access_count entry - 1)
    by (apply uint32_small; lia).
  split; [split|split]; simpl; rewrite ?Hw.
  - destruct (access_count entry - 1 =? 0) eqn:E; [|done].
    apply NoDup_app. split_and!; [done| |apply NoDup_singleton].
    intros x Hx ->%list_elem_of_singleton. revert Hx.
    eapply pinned_unlinked; eauto. lia.
  - destruct (access_count entry - 1 =? 0) eqn:E.
    + eapply linked_unpin; eauto. simpl. lia.
    + eapply linked_same_pin; eauto. simpl. lia.
  - by rewrite map_size_insert_Some.
  - done.
  - intros k e. destruct (decide (k = tag)) as [->|Hne].
    + rewrite lookup_insert_eq. intros [= <-]. simpl. lia.
    + rewrite lookup_insert_ne by done. apply Hc.
  - lia.
  - intros k e. destruct (decide (k = tag)) as [->|Hne].
    + rewrite lookup_insert_eq. intros [= <-]. simpl. lia.
    + rewrite lookup_insert_ne by done. apply Hba.
Qed.

(** *** The critical sections keep the invariant *)

Lemma inv_same_control st st' :
  lfc_hash st' = lfc_hash st → lfc_ctl st' = lfc_ctl st →
  lfc_inv st → lfc_inv st'.
Proof. intros Hh Hc [? ? ? ? ?]. split; rewrite ?Hh, ?Hc; done. Qed.

Lemma below_same_control n st st' :
  lfc_hash st' = lfc_hash st → lfc_ctl st' = lfc_ctl st →
  below n st → below n st'.
Proof. intros Hh Hc [? ?]. split; rewrite ?Hh, ?Hc; done. Qed.

Lemma below_mono n m st : n ≤ m → below n st → below m st.
Proof.
  intros Hnm [Hs Ha]. split; [lia|]. intros k e He. specialize (Ha _ _ He). lia.
Qed.

Lemma bitmap_update_inv n tag entry bm st :
  lfc_inv st → below n st → lfc_hash st !! tag = Some entry →
  lfc_inv (set_hash (<[tag := set_bitmap bm entry]> (lfc_hash st)) st) ∧
  below n (set_hash (<[tag := set_bitmap bm entry]> (lfc_hash st)) st).
Proof.
  intros [Hnd Hl Hu Hus Hc] [Hbs Hba] Ht.
  split; [split|split]; simpl; try done.
  - eapply linked_same_pin; eauto.
  - by rewrite map_size_insert_Some.
  - intros k e. destruct (decide (k = tag)) as [->|Hne].
    + rewrite lookup_insert_eq. intros [= <-]. simpl. eauto.
    + rewrite lookup_insert_ne by done. apply Hc.
  - intros k e. destruct (decide (k = tag)) as [->|Hne].
    + rewrite lookup_insert_eq. intros [= <-]. simpl. eauto.
    + rewrite lookup_insert_ne by done. apply Hba.
Qed.

Lemma lfc_evict_inv n ind rn fork blkno st st' :
  lfc_inv st → below n st →
  lfc_evict ind rn fork blkno st = Done st' →
  lfc_inv st' ∧ below n st'.
Proof.
  intros Hinv Hb. unfold lfc_evict.
  destruct (lfc_size_limit st =? 0); [by intros [= <-]|].
  destruct (lfc_hash st !! chunk_tag rn fork blkno) as [entry|] eqn:Ht;
    [|by intros [= <-]].
  destruct (bitmap_update_inv n _ _ (bitmap_clear (bitmap entry) (chunk_offs_of blkno))
              _ Hinv Hb Ht) as [Hinv1 Hb1].
  set (st1 := set_hash _ st) in *.
  destruct (bitmap_word _ _ =? 0); [|by intros [= <-]].
  destruct (negb _); [|by intros [= <-]].
  intros H. apply bind_Done in H as (l & Hl & H).
  apply bind_Done in H as (l' & Hl' & H). injection H as <-.
  apply dlist_delete_Done in Hl as [Hin ->].
  apply dlist_push_head_Done in Hl' as [_ ->].
  destruct Hinv1 as [Hnd Hlk Hu Hus Hc]. destruct Hb1 as [Hbs Hba].
  split; [split|split]; simpl; try done.
  - constructor; [|by apply NoDup_unlink].
    rewrite elem_of_unlink by done. tauto.
  - by apply linked_to_head.
Qed.

Lemma lfc_read_begin_inv n rn fork blkno st r st' :
  lfc_inv st → below n st → n + 1 < 2 ^ 32 →
  lfc_read_begin rn fork blkno st = Done (r, st') →
  lfc_inv st' ∧ below (n + 1) st'.
Proof.
  intros Hinv Hb Hn. unfold lfc_read_begin.
  assert (Hb' : below (n + 1) st) by (eapply below_mono; [|done]; lia).
  destruct (lfc_size_limit st =? 0); [by intros [= <- <-]|].
  destruct (lfc_hash st !! chunk_tag rn fork blkno) as [entry|] eqn:Ht;
    [|by intros [= <- <-]].
  destruct (negb _); [by intros [= <- <-]|].
  intros H. apply bind_Done in H as (st1 & Hp & H). injection H as <- <-.
  apply lfc_pin_Done in Hp as [-> _]. by apply pin_state_inv.
Qed.

Lemma lfc_read_end_inv n rn fork blkno st st' :
  lfc_inv st → below n st →
  lfc_read_end rn fork blkno st = Done st' →
  lfc_inv st' ∧ below n st'.
Proof.
  intros Hinv Hb H. apply lfc_unpin_Done in H as (e & Ht & Hpos & -> & _).
  by apply unpin_state_inv.
Qed.

Lemma lfc_write_begin_inv n rn fork blkno st r st' :
  lfc_inv st → below n st → n + 1 < 2 ^ 32 →
  lfc_write_begin rn fork blkno st = Done (r, st') →
  lfc_inv st' ∧ below (n + 1) st'.
Proof.
  intros Hinv Hb Hn. unfold lfc_write_begin.
  assert (Hb' : below (n + 1) st) by (eapply below_mono; [|done]; lia).
  destruct (lfc_size_limit st =? 0); [by intros [= <- <-]|].
  destruct (lfc_hash st !! chunk_tag rn fork blkno) as [entry|] eqn:Ht.
  { intros H. apply bind_Done in H as (st1 & Hp & H). injection H as <- <-.
    apply lfc_pin_Done in Hp as [-> _]. by apply pin_state_inv. }
  destruct Hinv as [Hnd Hl Hu Hus Hc]. destruct Hb as [Hbs Hba].
  destruct (_ && _) eqn:Hfull.
  - destruct (ctl_lru (lfc_ctl st)) as [|v rest] eqn:Hlru; [discriminate|].
    destruct (lfc_hash st !! v) as [victim|] eqn:Hv; [|discriminate].
    intros H. apply bind_Done in H as ([] & Ha & H). injection H as <- <-.
    assert (Hvt : v ≠ chunk_tag rn fork blkno) by congruence.
    split; [split|split]; simpl.
    + by apply NoDup_cons in Hnd as [_ ?].
    + apply linked_new_entry; [by apply linked_pop| |done].
      by rewrite lookup_delete_ne.
    + rewrite map_size_insert_None by (by rewrite lookup_delete_ne).
      rewrite map_size_delete_Some by eauto.
      assert (size (lfc_hash st) ≠ 0%nat).
      { apply map_size_ne_0_lookup_2 with v. eauto. }
      lia.
    + done.
    + intros k e. destruct (decide (k = chunk_tag rn fork blkno)) as [->|Hne].
      * rewrite lookup_insert_eq. intros [= <-]. simpl. lia.
      * rewrite lookup_insert_ne by done. intros He.
        apply lookup_delete_Some in He as [_ He]. eauto.
    + lia.
    + intros k e. destruct (decide (k = chunk_tag rn fork blkno)) as [->|Hne].
      * rewrite lookup_insert_eq. intros [= <-]. simpl.
        pose proof (Hc _ _ Hv). lia.
      * rewrite lookup_insert_ne by done. intros He.
        apply lookup_delete_Some in He as [_ He]. specialize (Hba _ _ He). lia.
  - intros [= <- <-].
    assert (Hsz : 0 ≤ ctl_used (lfc_ctl st)) by lia.
    rewrite !uint32_small by lia.
    split; [split|split]; simpl.
    + done.
    + by apply linked_new_entry.
    + rewrite map_size_insert_None by done. lia.
    + lia.
    + intros k e. destruct (decide (k = chunk_tag rn fork blkno)) as [->|Hne].
      * rewrite lookup_insert_eq. intros [= <-]. simpl. lia.
      * rewrite lookup_insert_ne by done. eauto.
    + lia.
    + intros k e. destruct (decide (k = chunk_tag rn fork blkno)) as [->|Hne].
      * rewrite lookup_insert_eq. intros [= <-]. simpl.
        lia.
      * rewrite lookup_insert_ne by done. intros He.
        specialize (Hba _ _ He). lia.
Qed.

Lemma lfc_write_end_inv n rn fork blkno st st' :
  lfc_inv st → below n st →
  lfc_write_end rn fork blkno st = Done st' →
  lfc_inv st' ∧ below n st'.
Proof.
  intros Hinv Hb. unfold lfc_write_end. intros H.
  apply bind_Done in H as (st1 & Hu & H).
  apply lfc_unpin_Done in Hu as (e & Ht & Hpos & -> & _).
  destruct (unpin_state_inv n _ _ _ Hinv Hb Ht Hpos) as [Hinv1 Hb1].
  destruct (negb _); [|by injection H as <-].
  destruct (lfc_hash (unpin_state _ _ _) !! _) as [entry|] eqn:Ht1; [|discriminate].
  injection H as <-.
  by apply (bitmap_update_inv n _ entry _ (unpin_state (chunk_tag rn fork blkno) e st)).
Qed.

Lemma lfc_write_copy_inv n chunk blkno buffer st :
  lfc_inv st → below n st →
  lfc_inv (lfc_write_copy chunk blkno buffer st) ∧
  below n (lfc_write_copy chunk blkno buffer st).
Proof.
  intros Hinv Hb. split.
  - by apply (inv_same_control st).
  - by apply (below_same_control n st).
Qed.

Lemma lfc_write_inv n rn fork blkno buffer st st' :
  lfc_inv st → below n st → n + 1 < 2 ^ 32 →
  lfc_write rn fork blkno buffer st = Done st' →
  lfc_inv st' ∧ below (n + 1) st'.
Proof.
  intros Hinv Hb Hn. unfold lfc_write. intros H.
  apply bind_Done in H as ([r st1] & Hbeg & H).
  destruct (lfc_write_begin_inv _ _ _ _ _ _ _ Hinv Hb Hn Hbeg) as [Hinv1 Hb1].
  destruct r as [chunk|]; [|by injection H as <-].
  destruct (lfc_write_copy_inv (n + 1) chunk blkno buffer _ Hinv1 Hb1).
  by eapply lfc_write_end_inv.
Qed.

Lemma lfc_read_inv n rn fork blkno st r st' :
  lfc_inv st → below n st → n + 1 < 2 ^ 32 →
  lfc_read rn fork blkno st = Done (r, st') →
  lfc_inv st' ∧ below (n + 1) st'.
Proof.
  intros Hinv Hb Hn. unfold lfc_read. intros H.
  apply bind_Done in H as ([r1 st1] & Hbeg & H).
  destruct (lfc_read_begin_inv _ _ _ _ _ _ _ Hinv Hb Hn Hbeg) as [Hinv1 Hb1].
  destruct r1 as [chunk|]; [|by injection H as <- <-].
  apply bind_Done in H as (st2 & Hend & H). injection H as <- <-.
  by eapply lfc_read_end_inv.
Qed.

(** The shrink loop, on the components of the state it works on. *)
Lemma shrink_loop_inv new_size l : ∀ h used punched l' h' used' punched',
  NoDup l → linked_ok h l → used = Z.of_nat (size h) → used < 2 ^ 32 →
  shrink_loop new_size l h used punched = Done (l', h', used', punched') →
  NoDup l' ∧ linked_ok h' l' ∧ used' = Z.of_nat (size h') ∧ used' ≤ used ∧
  h' ⊆ h.
Proof.
  induction l as [|v rest IH];
    intros h used punched l' h' used' punched' Hnd Hl Hu Hlt; simpl.
  { intros [= <- <- <- <-]. done. }
  destruct (new_size <? used) eqn:E; [|intros [= <- <- <- <-]; done].
  destruct (h !! v) as [victim|] eqn:Hv; [|discriminate].
  intros H. apply bind_Done in H as ([] & Ha & H).
  assert (size h ≠ 0%nat) by (apply map_size_ne_0_lookup_2 with v; eauto).
  assert (Hw : uint32 (used - 1) = used - 1) by (apply uint32_small; lia).
  apply IH in H as (? & ? & ? & ? & ?).
  - split_and!; try done; [lia|]. etrans; [done|]. apply delete_subseteq.
  - by apply NoDup_cons in Hnd as [_ ?].
  - by apply linked_pop.
  - rewrite Hw, map_size_delete_Some by eauto. lia.
  - lia.
Qed.

Lemma lfc_change_limit_hook_inv n attached newval st st' :
  lfc_inv st → below n st → n < 2 ^ 32 →
  lfc_change_limit_hook attached newval st = Done st' →
  lfc_inv st' ∧ below n st'.
Proof.
  intros Hinv Hb Hn. unfold lfc_change_limit_hook.
  destruct attached; simpl; [|by intros [= <-]].
  intros H. apply bind_Done in H as ([[[l h] used] punched] & Hloop & H).
  injection H as <-.
  destruct Hinv as [Hnd Hl Hu Hus Hc]. destruct Hb as [Hbs Hba].
  apply shrink_loop_inv in Hloop as (? & ? & ? & ? & Hsub); try done; [|lia].
  split; [split|split]; simpl; try done.
  - lia.
  - intros k e He. eapply Hc, lookup_weaken; eauto.
  - intros k e He. eapply Hba, lookup_weaken; eauto.
Qed.

Lemma assign_file_cache_size_limit_inv n newval st c st' :
  lfc_inv st → below n st → n < 2 ^ 32 →
  assign_file_cache_size_limit newval st = Done (c, st') →
  lfc_inv st' ∧ below n st'.
Proof.
  intros Hinv Hb Hn. unfold assign_file_cache_size_limit.
  destruct (lfc_check_limit_hook _ _); [|by intros [= <- <-]].
  intros H. apply bind_Done in H as (st1 & Hhook & H). injection H as <- <-.
  destruct (lfc_change_limit_hook_inv _ _ _ _ _ Hinv Hb Hn Hhook).
  split.
  - by apply (inv_same_control st1).
  - by apply (below_same_control n st1).
Qed.

(** The two ways an assignment of the limit ends. *)
Lemma exec_AssignSizeLimit newval st st' :
  exec (AssignSizeLimit newval) st = Done st' →
  (lfc_check_limit_hook newval st = ErrorRaised ∧ st' = st) ∨
  (lfc_check_limit_hook newval st = Accepted ∧
   ∃ s, lfc_change_limit_hook true newval st = Done s ∧
        st' = set_size_limit newval s).
Proof.
  simpl. unfold assign_file_cache_size_limit.
  destruct (lfc_check_limit_hook newval st).
  - intros H. apply bind_Done in H as ([c s1] & H & [= <-]).
    apply bind_Done in H as (s & Hh & [= <- <-]). right. eauto.
  - intros [= <-]. by left.
Qed.

(** One step of a schedule, and a whole schedule. *)
Lemma exec_inv n o st st' :
  lfc_inv st → below n st → n + 1 < 2 ^ 32 →
  exec o st = Done st' →
  lfc_inv st' ∧ below (n + 1) st'.
Proof.
  intros Hinv Hb Hn.
  assert (Hup : ∀ s, lfc_inv s ∧ below n s → lfc_inv s ∧ below (n + 1) s).
  { intros s [? ?]. split; [done|]. eapply below_mono; [|done]. lia. }
  destruct o; simpl.
  - by intros [= <-]; apply Hup.
  - intros H. apply bind_Done in H as ([r s] & H & [= <-]).
    by eapply lfc_read_inv.
  - by apply lfc_write_inv.
  - intros H. apply Hup. by eapply lfc_evict_inv.
  - intros H. apply Hup. eapply lfc_change_limit_hook_inv; eauto. lia.
  - intros H. apply bind_Done in H as ([c s] & H & [= <-]).
    apply Hup. eapply assign_file_cache_size_limit_inv; eauto. lia.
  - intros H. apply bind_Done in H as ([r s] & H & [= <-]).
    by eapply lfc_read_begin_inv.
  - intros H. apply Hup. by eapply lfc_read_end_inv.
  - intros H. apply bind_Done in H as ([r s] & H & [= <-]).
    by eapply lfc_write_begin_inv.
  - destruct (lfc_hash st !! _); [|discriminate]. intros [= <-].
    by apply Hup, lfc_write_copy_inv.
  - intros H. apply Hup. by eapply lfc_write_end_inv.
Qed.

Lemma lfc_shmem_startup_inv max_size size_limit :
  lfc_inv (lfc_shmem_startup max_size size_limit) ∧
  below 0 (lfc_shmem_startup max_size size_limit).
Proof.
  split; [split|split]; simpl; try done.
  - constructor.
  - intros k. rewrite lookup_empty. split; [inversion 1|naive_solver].
Qed.

Lemma run_inv ops : ∀ n st st',
  lfc_inv st → below n st → n + Z.of_nat (length ops) < 2 ^ 32 →
  run ops st = Done st' →
  lfc_inv st' ∧ below (n + Z.of_nat (length ops)) st'.
Proof.
  induction ops as [|o ops IH]; intros n st st' Hinv Hb Hn.
  - intros [= <-]. simpl. by rewrite Z.add_0_r.
  - change (length (o :: ops)) with (S (length ops)) in *.
    rewrite Nat2Z.inj_succ in *.
    intros H. apply bind_Done in H as (st1 & Hex & H).
    apply (exec_inv n) in Hex as [Hinv1 Hb1]; [|done|done|lia].
    apply (IH (n + 1)) in H; [|done|done|lia].
    by replace (n + Z.succ (Z.of_nat (length ops)))
      with (n + 1 + Z.of_nat (length ops)) by lia.
Qed.

(** *** Bitmap and slab *)

Lemma chunk_offs_range blkno : 0 ≤ chunk_offs_of blkno < BLOCKS_PER_CHUNK.
Proof.
  unfold chunk_offs_of, BLOCKS_PER_CHUNK. change (128 - 1) with (Z.ones 7).
  rewrite Z.land_ones by lia. apply Z.mod_pos_bound. lia.
Qed.

Lemma bitmap_index_range co :
  0 ≤ co < BLOCKS_PER_CHUNK →
  (Z.to_nat (Z.shiftr co 5) < Z.to_nat (BLOCKS_PER_CHUNK / 32))%nat.
Proof.
  unfold BLOCKS_PER_CHUNK. intros Hco. rewrite Z.shiftr_div_pow2 by lia.
  change (128 / 32) with 4. change (2 ^ 5) with 32.
  assert (0 ≤ co / 32 < 4) by (split; [apply Z.div_pos|apply Z.div_lt_upper_bound]; lia).
  lia.
Qed.

Lemma bit_mask_spec co : bit_mask co = 2 ^ Z.land co 31 ∧ 0 ≤ Z.land co 31.
Proof.
  assert (0 ≤ Z.land co 31) by (apply Z.land_nonneg; lia).
  split; [|done]. unfold bit_mask. by rewrite Z.shiftl_1_l.
Qed.

Lemma bit_set_nonzero w co : Z.land (Z.lor w (bit_mask co)) (bit_mask co) ≠ 0.
Proof.
  destruct (bit_mask_spec co) as [-> Hb]. intros Hz.
  assert (Ht : Z.testbit (Z.land (Z.lor w (2 ^ Z.land co 31)) (2 ^ Z.land co 31))
                 (Z.land co 31) = true).
  { rewrite Z.land_spec, Z.lor_spec, Z.pow2_bits_true by done.
    by rewrite orb_true_r. }
  rewrite Hz, Z.bits_0 in Ht. discriminate.
Qed.

Lemma bitmap_test_set (bm : list Z) co :
  0 ≤ co < BLOCKS_PER_CHUNK →
  length bm = Z.to_nat (BLOCKS_PER_CHUNK / 32) →
  bitmap_test (bitmap_set bm co) co = true.
Proof.
  intros Hco Hlen. unfold bitmap_test, bitmap_set, bitmap_word at 1.
  rewrite list_lookup_total_insert_eq
    by (rewrite Hlen; by apply bitmap_index_range).
  apply negb_true_iff, Z.eqb_neq, bit_set_nonzero.
Qed.

Lemma length_bitmap_zero : length bitmap_zero = Z.to_nat (BLOCKS_PER_CHUNK / 32).
Proof. unfold bitmap_zero. by rewrite length_replicate. Qed.

Lemma memcpy_roundtrip mem addr (buffer : list Byte.byte) :
  length buffer = Z.to_nat BLCKSZ →
  memcpy_from_slab (memcpy_to_slab mem addr buffer) addr = buffer.
Proof.
  intros Hlen. unfold memcpy_from_slab. apply list_eq. intros i.
  rewrite list_lookup_fmap.
  destruct (decide (Z.of_nat i < BLCKSZ)) as [Hi|Hi].
  - rewrite lookup_seqZ_lt by done. simpl. unfold memcpy_to_slab.
    rewrite decide_True by lia.
    replace (Z.to_nat (addr + Z.of_nat i - addr)) with i by lia.
    rewrite nth_lookup.
    destruct (buffer !! i) eqn:E; [done|].
    apply lookup_ge_None in E. lia.
  - rewrite lookup_seqZ_ge by lia. simpl. symmetry.
    apply lookup_ge_None. lia.
Qed.

(** *** What a whole write leaves, and what a read then finds *)

Lemma lfc_write_end_defined rn fork blkno entry st :
  linked_ok (lfc_hash st) (ctl_lru (lfc_ctl st)) →
  lfc_hash st !! chunk_tag rn fork blkno = Some entry →
  0 < access_count entry →
  lfc_write_end rn fork blkno st =
    Done (let st1 := unpin_state (chunk_tag rn fork blkno) entry st in
          if negb (lfc_size_limit st =? 0)
          then set_hash
                 (<[chunk_tag rn fork blkno :=
                      set_bitmap (bitmap_set (bitmap entry) (chunk_offs_of blkno))
                        (set_access_count (uint32 (access_count entry - 1)) entry)]>
                    (lfc_hash st1)) st1
          else st1).
Proof.
  intros Hl Ht Hpos. unfold lfc_write_end.
  rewrite (lfc_unpin_defined _ entry) by done. simpl.
  destruct (negb _); [|done].
  by rewrite lookup_insert_eq.
Qed.

Lemma lfc_write_begin_defined rn fork blkno st :
  lfc_inv st → is_done (lfc_write_begin rn fork blkno st).
Proof.
  intros [Hnd Hl Hu Hus Hc]. unfold lfc_write_begin.
  destruct (lfc_size_limit st =? 0); [done|].
  destruct (lfc_hash st !! chunk_tag rn fork blkno) as [e|] eqn:Ht.
  { by rewrite (lfc_pin_defined _ e). }
  destruct (ctl_lru (lfc_ctl st)) as [|v rest] eqn:Hlru.
  { simpl. by rewrite andb_false_r. }
  destruct (_ && _); [|done].
  destruct (linked_lookup _ _ v Hl) as (ve & -> & Hve); [by left|].
  by rewrite Hve.
Qed.

(** The entry a completed write leaves: the count it had before (0 for
    an entry this write brought in), the bit of the page set in the
    bitmap it had before (all zero for such an entry), and the page
    in the slab at the entry's offset. *)
Lemma lfc_write_post n rn fork blkno buffer st :
  lfc_inv st → below n st → n + 1 < 2 ^ 32 →
  lfc_size_limit st ≠ 0 →
  ∃ st' e' bm,
    lfc_write rn fork blkno buffer st = Done st' ∧
    lfc_hash st' !! chunk_tag rn fork blkno = Some e' ∧
    (∀ k, k ≠ chunk_tag rn fork blkno →
          ∀ e, lfc_hash st' !! k = Some e → lfc_hash st !! k = Some e) ∧
    bitmap e' = bitmap_set bm (chunk_offs_of blkno) ∧
    match lfc_hash st !! chunk_tag rn fork blkno with
    | Some e => bm = bitmap e ∧ access_count e' = access_count e
    | None => bm = bitmap_zero ∧ access_count e' = 0
    end ∧
    lfc_mem st' = memcpy_to_slab (lfc_mem st)
                    (page_addr (offset e') (chunk_offs_of blkno)) buffer ∧
    lfc_size_limit st' = lfc_size_limit st.
Proof.
  intros Hinv Hb Hn Hlim. unfold lfc_write.
  pose proof (lfc_write_begin_defined rn fork blkno st Hinv) as Hdef.
  destruct (lfc_write_begin rn fork blkno st) as [[r st1]|f] eqn:Hbeg; [|done].
  clear Hdef.
  destruct (lfc_write_begin_inv _ _ _ _ _ _ _ Hinv Hb Hn Hbeg) as [Hinv1 Hb1].
  simpl. revert Hbeg. unfold lfc_write_begin.
  rewrite (proj2 (Z.eqb_neq _ _) Hlim).
  assert (Hend : ∀ chunk e1,
    lfc_hash st1 !! chunk_tag rn fork blkno = Some e1 →
    0 < access_count e1 → offset e1 = chunk →
    lfc_mem st1 = lfc_mem st → lfc_size_limit st1 = lfc_size_limit st →
    (∀ k, k ≠ chunk_tag rn fork blkno →
          ∀ e, lfc_hash st1 !! k = Some e → lfc_hash st !! k = Some e) →
    ∃ st' e',
      lfc_write_end rn fork blkno (lfc_write_copy chunk blkno buffer st1) = Done st' ∧
      lfc_hash st' !! chunk_tag rn fork blkno = Some e' ∧
      (∀ k, k ≠ chunk_tag rn fork blkno →
            ∀ e, lfc_hash st' !! k = Some e → lfc_hash st !! k = Some e) ∧
      bitmap e' = bitmap_set (bitmap e1) (chunk_offs_of blkno) ∧
      access_count e' = uint32 (access_count e1 - 1) ∧
      lfc_mem st' = memcpy_to_slab (lfc_mem st)
                      (page_addr (offset e') (chunk_offs_of blkno)) buffer ∧
      lfc_size_limit st' = lfc_size_limit st).
  { intros chunk e1 He1 Hpos Hoff Hmem Hlim1 Hothers.
    rewrite (lfc_write_end_defined _ _ _ e1); [|apply Hinv1|done|done].
    simpl. rewrite Hlim1, (proj2 (Z.eqb_neq _ _) Hlim). simpl.
    eexists _, _. split; [done|].
    simpl. rewrite lookup_insert_eq. split; [done|].
    split.
    { intros k Hk e. rewrite !lookup_insert_ne by done. by apply Hothers. }
    simpl. rewrite Hoff, Hmem. done. }
  destruct (lfc_hash st !! chunk_tag rn fork blkno) as [e|] eqn:Ht.
  - intros H. apply bind_Done in H as (s & Hp & [= <- <-]).
    apply lfc_pin_Done in Hp as [-> _].
    destruct Hinv as [_ _ _ _ Hc]. destruct Hb as [_ Hba].
    pose proof (Hc _ _ Ht). pose proof (Hba _ _ Ht).
    destruct (Hend (offset e) (set_access_count (uint32 (access_count e + 1)) e))
      as (st' & e' & ? & ? & ? & ? & Hac & ? & ?).
    + apply lookup_insert_eq.
    + simpl. rewrite uint32_small by lia. lia.
    + done.
    + done.
    + done.
    + intros k Hk e0. simpl. by rewrite lookup_insert_ne.
    + exists st', e', (bitmap e). split_and!; try done.
      simpl in Hac. rewrite Hac, (uint32_small (_ + 1)) by lia.
      rewrite uint32_small by lia. lia.
  - destruct (_ && _).
    + destruct (ctl_lru (lfc_ctl st)) as [|v rest]; [done|].
      destruct (lfc_hash st !! v) as [ve|]; [|done].
      intros H. apply bind_Done in H as ([] & _ & [= <- <-]).
      destruct (Hend (offset ve) (mkEntry (offset ve) 1 bitmap_zero))
        as (st' & e' & ? & ? & ? & ? & Hac & ? & ?).
      * apply lookup_insert_eq.
      * done.
      * done.
      * done.
      * done.
      * intros k Hk e0. simpl. rewrite lookup_insert_ne by done.
        by intros [_ ?]%lookup_delete_Some.
      * by exists st', e', bitmap_zero.
    + intros [= <- <-].
      destruct (Hend (ctl_size (lfc_ctl st))
                  (mkEntry (ctl_size (lfc_ctl st)) 1 bitmap_zero))
        as (st' & e' & ? & ? & ? & ? & Hac & ? & ?).
      * apply lookup_insert_eq.
      * done.
      * done.
      * done.
      * done.
      * intros k Hk e0. simpl. by rewrite lookup_insert_ne.
      * by exists st', e', bitmap_zero.
Qed.

Lemma lfc_read_hit n rn fork blkno e st :
  lfc_inv st → below n st → n + 1 < 2 ^ 32 →
  lfc_size_limit st ≠ 0 →
  lfc_hash st !! chunk_tag rn fork blkno = Some e →
  bitmap_test (bitmap e) (chunk_offs_of blkno) = true →
  ∃ st',
    lfc_read rn fork blkno st =
      Done (Some (memcpy_from_slab (lfc_mem st)
                    (page_addr (offset e) (chunk_offs_of blkno))), st').
Proof.
  intros Hinv Hb Hn Hlim Ht Hbit. unfold lfc_read, lfc_read_begin, lfc_read_end.
  rewrite (proj2 (Z.eqb_neq _ _) Hlim), Ht, Hbit. simpl.
  rewrite (lfc_pin_defined _ e) by (done || apply Hinv). simpl.
  destruct (pin_state_inv n _ e st Hinv Hb Hn Ht) as [[_ Hl1 _ _ _] _].
  pose proof (inv_count _ Hinv _ _ Ht). pose proof (proj2 Hb _ _ Ht).
  erewrite lfc_unpin_defined; [simpl; eauto|done|apply lookup_insert_eq|].
  simpl. rewrite uint32_small by lia. lia.
Qed.

(** A page written is the page read back, in any state the invariant
    holds in: the write may pin an existing chunk, take over the slot of
    a victim or allocate a slot. *)
Lemma write_then_read n rn fork blkno (buf : list Byte.byte) st :
  lfc_inv st → below n st → n + 2 < 2 ^ 32 →
  lfc_size_limit st ≠ 0 →
  (∀ e, lfc_hash st !! chunk_tag rn fork blkno = Some e →
        length (bitmap e) = Z.to_nat (BLOCKS_PER_CHUNK / 32)) →
  length buf = Z.to_nat BLCKSZ →
  ∃ st1 st2,
    lfc_write rn fork blkno buf st = Done st1 ∧
    lfc_read rn fork blkno st1 = Done (Some buf, st2).
Proof.
  intros Hinv Hb Hn Hlim Hbm Hlen.
  destruct (lfc_write_post n rn fork blkno buf st)
    as (st1 & e1 & bm & Hw & He1 & _ & Hbits & Hfrom & Hmem & Hlim1);
    [done|done|lia|done|].
  assert (Hbmlen : length bm = Z.to_nat (BLOCKS_PER_CHUNK / 32)).
  { destruct (lfc_hash st !! chunk_tag rn fork blkno) as [e|].
    - destruct Hfrom as [-> _]. by apply Hbm.
    - destruct Hfrom as [-> _]. apply length_bitmap_zero. }
  destruct (lfc_write_inv _ _ _ _ _ _ _ Hinv Hb ltac:(lia) Hw) as [Hinv1 Hb1].
  destruct (lfc_read_hit (n + 1) rn fork blkno e1 st1) as (st2 & Hr);
    [done|done|lia|congruence|done| |].
  { rewrite Hbits. apply bitmap_test_set; [apply chunk_offs_range|done]. }
  exists st1, st2. split; [done|].
  by rewrite Hr, Hmem, memcpy_roundtrip.
Qed.

(** C1. Round trip on a fresh cache: when the size limit is at least one
    chunk, [lfc_write] of a page followed by [lfc_read] of the same page
    returns true and hands back the buffer that was written, for every
    relation, fork, block number and page-sized buffer. *)
Theorem write_read_roundtrip max_size size_limit rn fork blkno
    (buf : list Byte.byte) :
  1 ≤ SIZE_MB_TO_CHUNKS size_limit →
  length buf = Z.to_nat BLCKSZ →
  ∃ st1 st2,
    lfc_write rn fork blkno buf (lfc_shmem_startup max_size size_limit) = Done st1 ∧
    lfc_read rn fork blkno st1 = Done (Some buf, st2) ∧
    lfc_cache_contains rn fork blkno st1 = true.
Proof.
  intros Hlimit Hlen.
  assert (Hne : size_limit ≠ 0) by (intros ->; apply Hlimit; reflexivity).
  destruct (lfc_shmem_startup_inv max_size size_limit) as [Hinv Hb].
  destruct (lfc_write_post 0 rn fork blkno buf _ Hinv Hb)
    as (st1 & e1 & bm & Hw & He1 & _ & Hbits & Hfrom & Hmem & Hlim1);
    [lia|done|].
  simpl in Hfrom. rewrite lookup_empty in Hfrom. destruct Hfrom as [-> _].
  destruct (write_then_read 0 rn fork blkno buf _ Hinv Hb)
    as (st1' & st2 & Hw' & Hr);
    [lia|done|by intros e; simpl; rewrite lookup_empty|done|].
  assert (st1' = st1) as -> by congruence.
  exists st1, st2. split_and!; [done|done|].
  unfold lfc_cache_contains. rewrite Hlim1. simpl.
  rewrite (proj2 (Z.eqb_neq _ _) Hne), He1, Hbits.
  apply bitmap_test_set; [apply chunk_offs_range|apply length_bitmap_zero].
Qed.

Lemma write_read_roundtrip_witness :
  ∃ st1 st2,
    lfc_write (mkRelFileNode 1663 5 16384) 0 130
      (replicate (Z.to_nat BLCKSZ) Byte.x2a) (lfc_shmem_startup 4 2) = Done st1 ∧
    lfc_read (mkRelFileNode 1663 5 16384) 0 130 st1
      = Done (Some (replicate (Z.to_nat BLCKSZ) Byte.x2a), st2) ∧
    lfc_cache_contains (mkRelFileNode 1663 5 16384) 0 130 st1 = true.
Proof.
  apply (write_read_roundtrip 4 2).
  - vm_compute. discriminate.
  - apply length_replicate.
Defined.

(** *** Admission *)

Lemma one_chunk_state_inv : lfc_inv one_chunk_state ∧ below 1 one_chunk_state.
Proof.
  split; [split|split]; simpl.
  - apply NoDup_singleton.
  - intros k. rewrite list_elem_of_singleton. split.
    + intros ->. eexists. by rewrite lookup_singleton_eq.
    + intros (e & He & _). by apply lookup_singleton_Some in He as [-> _].
  - by rewrite map_size_singleton.
  - lia.
  - intros k e He. apply lookup_singleton_Some in He as [_ <-]. simpl. lia.
  - lia.
  - intros k e He. apply lookup_singleton_Some in He as [_ <-]. simpl. lia.
Qed.

(** The admission of a key that is not in the index, in a state in
    which the list holds the entries without pin and no others. When
    [used] has reached the limit and the list is not empty, the list
    head is popped, the new entry takes its offset, the victim leaves
    the index, and [used] and [size] stay. Otherwise, and always when
    the list is empty, the new entry gets offset [size], and [size] and
    [used] grow by one, so that [size] passes the limit once every chunk
    is pinned. *)
Lemma lfc_write_begin_admission rn fork blkno st :
  lfc_inv st → lfc_size_limit st ≠ 0 →
  lfc_hash st !! chunk_tag rn fork blkno = None →
  let tag := chunk_tag rn fork blkno in
  let limit := SIZE_MB_TO_CHUNKS (lfc_size_limit st) in
  (∀ victim rest,
     limit ≤ ctl_used (lfc_ctl st) → ctl_lru (lfc_ctl st) = victim :: rest →
     ∃ v st',
       lfc_hash st !! victim = Some v ∧ access_count v = 0 ∧
       lfc_write_begin rn fork blkno st = Done (Some (offset v), st') ∧
       ctl_lru (lfc_ctl st') = rest ∧
       lfc_hash st' = <[tag := mkEntry (offset v) 1 bitmap_zero]>
                        (delete victim (lfc_hash st)) ∧
       lfc_hash st' !! victim = None ∧
       ctl_used (lfc_ctl st') = ctl_used (lfc_ctl st) ∧
       ctl_size (lfc_ctl st') = ctl_size (lfc_ctl st)) ∧
  (ctl_used (lfc_ctl st) < limit ∨ ctl_lru (lfc_ctl st) = [] →
     ∃ st',
       lfc_write_begin rn fork blkno st = Done (Some (ctl_size (lfc_ctl st)), st') ∧
       lfc_hash st' = <[tag := mkEntry (ctl_size (lfc_ctl st)) 1 bitmap_zero]>
                        (lfc_hash st) ∧
       ctl_size (lfc_ctl st') = uint32 (ctl_size (lfc_ctl st) + 1) ∧
       ctl_used (lfc_ctl st') = uint32 (ctl_used (lfc_ctl st) + 1) ∧
       ctl_lru (lfc_ctl st') = ctl_lru (lfc_ctl st) ∧
       (ctl_lru (lfc_ctl st) = [] → limit ≤ ctl_size (lfc_ctl st) →
        ctl_size (lfc_ctl st) + 1 < 2 ^ 32 →
        limit < ctl_size (lfc_ctl st'))).
Proof.
  intros Hinv Hlim Hnew tag limit. subst tag limit.
  set (tag := chunk_tag rn fork blkno) in *.
  set (limit := SIZE_MB_TO_CHUNKS (lfc_size_limit st)) in *.
  pose proof (proj2 (Z.eqb_neq _ _) Hlim) as Hlimb.
  destruct Hinv as [Hnd Hl Hu Hus Hc].
  assert (Hvictim : ∀ victim rest,
    limit ≤ ctl_used (lfc_ctl st) → ctl_lru (lfc_ctl st) = victim :: rest →
    ∃ v, lfc_hash st !! victim = Some v ∧ access_count v = 0 ∧ victim ≠ tag ∧
      lfc_write_begin rn fork blkno st =
        Done (Some (offset v),
              set_ctl (set_lru rest (lfc_ctl st))
                (set_hash (<[tag := mkEntry (offset v) 1 bitmap_zero]>
                             (delete victim (lfc_hash st))) st))).
  { intros victim rest Hfull Hlru.
    destruct (linked_lookup _ _ victim Hl) as (v & Hv & Hv0);
      [rewrite Hlru; by left|].
    exists v. split_and!; [done|done| |].
    { intros Heq. rewrite Heq in Hv. congruence. }
    unfold lfc_write_begin. fold tag. rewrite Hlimb, Hnew, Hlru. fold limit.
    rewrite (proj2 (Z.leb_le _ _) Hfull). simpl. rewrite Hv, Hv0. done. }
  assert (Hfresh : ctl_used (lfc_ctl st) < limit ∨ ctl_lru (lfc_ctl st) = [] →
    lfc_write_begin rn fork blkno st =
      Done (Some (ctl_size (lfc_ctl st)),
            set_ctl (mkControl (uint32 (ctl_size (lfc_ctl st) + 1))
                               (uint32 (ctl_used (lfc_ctl st) + 1))
                               (ctl_lru (lfc_ctl st)))
              (set_hash (<[tag := mkEntry (ctl_size (lfc_ctl st)) 1 bitmap_zero]>
                           (lfc_hash st)) st))).
  { intros Hroom. unfold lfc_write_begin. fold tag. rewrite Hlimb, Hnew. fold limit.
    destruct Hroom as [Hroom| ->].
    - by rewrite (proj2 (Z.leb_gt _ _) Hroom).
    - simpl. by rewrite andb_false_r. }
  split.
  - intros victim rest Hfull Hlru.
    destruct (Hvictim victim rest Hfull Hlru) as (v & Hv & Hv0 & Hne & Hbeg).
    eexists v, _. split_and!; try done; simpl.
    rewrite lookup_insert_ne by done. apply lookup_delete_eq.
  - intros Hroom. eexists. split_and!; [by apply Hfresh|done..|].
    simpl. intros _ Hpast Hno. rewrite uint32_small by lia. lia.
Qed.



(** *** Eviction of a page *)

Lemma scan_bitmap_nonzero hrp (bm : list Z) :
  (∃ w, w ∈ bm ∧ w ≠ 0) → scan_bitmap hrp bm = true.
Proof.
  induction bm as [|x bm IH]; simpl; intros (w & Hw & Hnz).
  - inversion Hw.
  - destruct (x =? 0) eqn:E; simpl; [|done].
    apply IH. exists w. split; [|done].
    apply elem_of_cons in Hw as [->|Hw]; [lia|done].
Qed.

Lemma scan_bitmap_all_zero hrp (bm : list Z) :
  (∀ w, w ∈ bm → w = 0) → scan_bitmap hrp bm = hrp.
Proof.
  induction bm as [|x bm IH]; simpl; intros Hz; [done|].
  rewrite (Hz x) by (by left). simpl. apply IH. intros w Hw. apply Hz. by right.
Qed.

(** The entry stays in the index with its slot whatever the bitmap
    becomes; only the bit is cleared. *)
Lemma lfc_evict_entry ind rn fork blkno e st st' :
  lfc_size_limit st ≠ 0 →
  lfc_hash st !! chunk_tag rn fork blkno = Some e →
  lfc_evict ind rn fork blkno st = Done st' →
  lfc_hash st' =
    <[chunk_tag rn fork blkno :=
        set_bitmap (bitmap_clear (bitmap e) (chunk_offs_of blkno)) e]> (lfc_hash st) ∧
  size_of st' = size_of st ∧ used_of st' = used_of st.
Proof.
  intros Hlim Ht. unfold lfc_evict.
  rewrite (proj2 (Z.eqb_neq _ _) Hlim), Ht.
  destruct (bitmap_word _ _ =? 0); [|by intros [= <-]].
  destruct (negb _); [|by intros [= <-]].
  intros H. apply bind_Done in H as (l & _ & H).
  apply bind_Done in H as (l' & _ & [= <-]). done.
Qed.

(** While a bit is left anywhere in the bitmap the list is not touched. *)
Lemma lfc_evict_populated ind rn fork blkno e st st' :
  lfc_evict ind rn fork blkno st = Done st' →
  lfc_hash st !! chunk_tag rn fork blkno = Some e →
  (∃ w, w ∈ bitmap_clear (bitmap e) (chunk_offs_of blkno) ∧ w ≠ 0) →
  lru_of st' = lru_of st.
Proof.
  unfold lfc_evict. intros H Ht Hnz. revert H.
  destruct (lfc_size_limit st =? 0); [by intros [= <-]|].
  rewrite Ht.
  destruct (bitmap_word _ _ =? 0); [|by intros [= <-]].
  rewrite (scan_bitmap_nonzero _ _ Hnz). simpl. by intros [= <-].
Qed.

(** Once the bitmap is all zero, what happens to the list is decided by
    the value the uninitialised local happens to hold. *)
Lemma lfc_evict_emptied ind rn fork blkno e st :
  lfc_size_limit st ≠ 0 →
  lfc_hash st !! chunk_tag rn fork blkno = Some e →
  (∀ w, w ∈ bitmap_clear (bitmap e) (chunk_offs_of blkno) → w = 0) →
  length (bitmap e) = Z.to_nat (BLOCKS_PER_CHUNK / 32) →
  chunk_tag rn fork blkno ∈ lru_of st → NoDup (lru_of st) →
  ∃ st',
    lfc_evict ind rn fork blkno st = Done st' ∧
    lru_of st' =
      if ind then lru_of st
      else chunk_tag rn fork blkno :: unlink (chunk_tag rn fork blkno) (lru_of st).
Proof.
  intros Hlim Ht Hz Hlen Hin Hnd. unfold lfc_evict.
  rewrite (proj2 (Z.eqb_neq _ _) Hlim), Ht.
  assert (Hw : bitmap_word (bitmap_clear (bitmap e) (chunk_offs_of blkno))
                 (chunk_offs_of blkno) = 0).
  { apply Hz. unfold bitmap_word. apply list_elem_of_lookup_total_2.
    unfold bitmap_clear. rewrite length_insert, Hlen.
    apply bitmap_index_range, chunk_offs_range. }
  rewrite Hw. simpl. rewrite (scan_bitmap_all_zero _ _ Hz).
  destruct ind; simpl; [eauto|].
  unfold lru_of in *. unfold dlist_delete. rewrite decide_True by done. simpl.
  unfold dlist_push_head. rewrite decide_False.
  - simpl. eauto.
  - rewrite elem_of_unlink by done. tauto.
Qed.

(** C3, at the input that fails. Two chunks are written, relation 2 and
    then relation 1, so relation 1 is at the tail of the list. Its only
    page is evicted and the bitmap is all zero; the scan assigns nothing
    to [has_remaining_pages], and when the object holds true the entry
    stays at the tail instead of moving to the head. The entry keeps its
    place in the index and its slot. *)
Theorem lfc_evict_last_page_not_demoted :
  let st := run [Write (rel 2) 0 0 (page_of Byte.x61);
                 Write (rel 1) 0 0 (page_of Byte.x62)]
                (lfc_shmem_startup 4 2) in
  let st' := st ≫= lfc_evict true (rel 1) 0 0 in
  observe lru_of st = Some [chunk0 2; chunk0 1] ∧
  observe (entry_of (chunk0 1)) st = Some (Some (mkEntry 1 0 [1; 0; 0; 0])) ∧
  observe (entry_of (chunk0 1)) st' = Some (Some (mkEntry 1 0 [0; 0; 0; 0])) ∧
  observe lru_of st' = Some [chunk0 2; chunk0 1].
Proof. vm_compute. done. Qed.

(** The same eviction when the object holds false: the entry moves to
    the head. *)
Lemma lfc_evict_last_page_demoted :
  let st := run [Write (rel 2) 0 0 (page_of Byte.x61);
                 Write (rel 1) 0 0 (page_of Byte.x62)]
                (lfc_shmem_startup 4 2) in
  let st' := st ≫= lfc_evict false (rel 1) 0 0 in
  observe (entry_of (chunk0 1)) st' = Some (Some (mkEntry 1 0 [0; 0; 0; 0])) ∧
  observe lru_of st' = Some [chunk0 1; chunk0 2].
Proof. vm_compute. done. Qed.

(** *** Shrinking *)

(** The loop pops a prefix of the list: each victim is in the hash with
    no pin, leaves the hash, and has the offset that is punched. *)
Lemma shrink_loop_spec new_size l : ∀ h used punched,
  NoDup l → linked_ok h l → used = Z.of_nat (size h) → used < 2 ^ 32 →
  ∃ victims offsets l' h' used',
    shrink_loop new_size l h used punched =
      Done (l', h', used', rev (hole_addr <$> offsets) ++ punched) ∧
    l = victims ++ l' ∧
    Forall2 (λ v o, ∃ e, h !! v = Some e ∧ access_count e = 0 ∧ offset e = o)
            victims offsets ∧
    (∀ k, h' !! k = if decide (k ∈ victims) then None else h !! k) ∧
    used' = used - Z.of_nat (length victims) ∧
    (victims = [] ∨ new_size ≤ used') ∧
    (used' ≤ new_size ∨ l' = []).
Proof.
  induction l as [|v rest IH]; intros h used punched Hnd Hl Hu Hlt; simpl.
  { exists [], [], [], h, used. split_and!.
    - done.
    - done.
    - constructor.
    - done.
    - simpl. lia.
    - by left.
    - by right. }
  destruct (new_size <? used) eqn:E.
  2:{ apply Z.ltb_ge in E. exists [], [], (v :: rest), h, used. split_and!.
      - done.
      - done.
      - constructor.
      - done.
      - simpl. lia.
      - by left.
      - by left. }
  apply Z.ltb_lt in E.
  destruct (linked_lookup _ _ v Hl) as (ve & Hv & Hv0); [by left|].
  rewrite Hv, Hv0. simpl.
  assert (size h ≠ 0%nat) by (apply map_size_ne_0_lookup_2 with v; eauto).
  assert (Hw : uint32 (used - 1) = used - 1) by (apply uint32_small; lia).
  apply NoDup_cons in Hnd as Hnd'. destruct Hnd' as [Hvr Hndr].
  destruct (IH (delete v h) (uint32 (used - 1)) (hole_addr (offset ve) :: punched))
    as (victims & offsets & l' & h' & used' & Hloop & Hsplit & Hvs & Hh' & Hu' & Hmin & Hexit).
  - done.
  - by apply linked_pop.
  - rewrite Hw, map_size_delete_Some by eauto. lia.
  - lia.
  - exists (v :: victims), (offset ve :: offsets), l', h', used'.
    assert (Hnv : v ∉ victims).
    { intros Hin. apply Hvr. rewrite Hsplit. apply elem_of_app. by left. }
    split_and!.
    + rewrite Hloop. rewrite fmap_cons. simpl. by rewrite <- app_assoc.
    + by rewrite Hsplit.
    + constructor; [eauto|].
      eapply Forall2_impl; [done|]. simpl.
      intros x o (e & He & ? & ?). apply lookup_delete_Some in He as [_ He]. eauto.
    + intros k. rewrite Hh'. destruct (decide (k = v)) as [->|Hne].
      * rewrite lookup_delete_eq. rewrite (decide_True (P := v ∈ v :: victims))
          by (by left). by destruct (decide (v ∈ victims)).
      * rewrite lookup_delete_ne by done.
        destruct (decide (k ∈ victims)) as [Hin|Hin].
        -- by rewrite decide_True by (by right).
        -- rewrite decide_False; [done|].
           intros [?|?]%elem_of_cons; done.
    + rewrite Hu', Hw. simpl length. lia.
    + right. destruct Hmin as [->|?]; [|done]. simpl in Hu'. lia.
    + done.
Qed.

(** No critical section of a read, a write or an eviction lowers [used]. *)
Lemma lfc_unpin_used tag st st' :
  lfc_unpin tag st = Done st' → used_of st' = used_of st.
Proof. intros H. by apply lfc_unpin_Done in H as (e & _ & _ & -> & _). Qed.

Lemma lfc_read_begin_used rn fork blkno st r st' :
  lfc_read_begin rn fork blkno st = Done (r, st') → used_of st' = used_of st.
Proof.
  unfold lfc_read_begin.
  destruct (lfc_size_limit st =? 0); [by intros [= <- <-]|].
  destruct (lfc_hash st !! _) as [e|]; [|by intros [= <- <-]].
  destruct (negb _); [by intros [= <- <-]|].
  intros H. apply bind_Done in H as (s & Hp & [= <- <-]).
  by apply lfc_pin_Done in Hp as [-> _].
Qed.

Lemma lfc_write_begin_used n rn fork blkno st r st' :
  lfc_inv st → below n st → n + 1 < 2 ^ 32 →
  lfc_write_begin rn fork blkno st = Done (r, st') → used_of st ≤ used_of st'.
Proof.
  intros Hinv Hb Hn. unfold lfc_write_begin.
  destruct (lfc_size_limit st =? 0); [by intros [= <- <-]|].
  destruct (lfc_hash st !! _) as [e|].
  { intros H. apply bind_Done in H as (s & Hp & [= <- <-]).
    by apply lfc_pin_Done in Hp as [-> _]. }
  destruct (_ && _).
  - destruct (ctl_lru _) as [|v rest]; [done|].
    destruct (lfc_hash st !! v); [|done].
    intros H. by apply bind_Done in H as ([] & _ & [= <- <-]).
  - intros [= <- <-]. unfold used_of. simpl.
    destruct Hinv as [_ _ Hu Hus _]. destruct Hb as [Hbs _].
    rewrite uint32_small by lia. lia.
Qed.

Lemma lfc_write_end_used rn fork blkno st st' :
  lfc_write_end rn fork blkno st = Done st' → used_of st' = used_of st.
Proof.
  unfold lfc_write_end. intros H. apply bind_Done in H as (s & Hu & H).
  apply lfc_unpin_used in Hu. rewrite <- Hu. revert H.
  destruct (negb _); [|by intros [= <-]].
  destruct (lfc_hash s !! _); [|done]. by intros [= <-].
Qed.

Lemma exec_lowers_used n o st st' :
  lfc_inv st → below n st → n + 1 < 2 ^ 32 →
  exec o st = Done st' → used_of st' < used_of st →
  (∃ attached newval, o = ChangeLimitHook attached newval) ∨
  (∃ newval, o = AssignSizeLimit newval).
Proof.
  intros Hinv Hb Hn Hex Hlt. destruct o; simpl in Hex; eauto; exfalso.
  - injection Hex as <-. lia.
  - apply bind_Done in Hex as ([r s] & Hr & [= <-]). unfold lfc_read in Hr.
    apply bind_Done in Hr as ([r1 s1] & Hbeg & Hr).
    apply lfc_read_begin_used in Hbeg.
    destruct r1; [|injection Hr as <- <-; lia].
    apply bind_Done in Hr as (s2 & Hend & [= <- <-]).
    apply lfc_unpin_used in Hend. lia.
  - unfold lfc_write in Hex.
    apply bind_Done in Hex as ([r1 s1] & Hbeg & Hw).
    apply (lfc_write_begin_used n) in Hbeg; [|done..].
    destruct r1; [|injection Hw as <-; lia].
    apply lfc_write_end_used in Hw. unfold used_of in *. simpl in *. lia.
  - unfold lfc_evict in Hex.
    destruct (lfc_size_limit st =? 0); [injection Hex as <-; lia|].
    destruct (lfc_hash st !! _) as [e|]; [|injection Hex as <-; lia].
    destruct (bitmap_word _ _ =? 0); [|injection Hex as <-; unfold used_of in *; simpl in *; lia].
    destruct (negb _); [|injection Hex as <-; unfold used_of in *; simpl in *; lia].
    apply bind_Done in Hex as (l & _ & H).
    apply bind_Done in H as (l' & _ & [= <-]). unfold used_of in *. simpl in *. lia.
  - apply bind_Done in Hex as ([r s] & Hr & [= <-]).
    apply lfc_read_begin_used in Hr. lia.
  - apply lfc_unpin_used in Hex. lia.
  - apply bind_Done in Hex as ([r s] & Hr & [= <-]).
    apply (lfc_write_begin_used n) in Hr; [lia|done..].
  - destruct (lfc_hash st !! _); [|done]. injection Hex as <-.
    unfold used_of in *. simpl in *. lia.
  - apply lfc_write_end_used in Hex. lia.
Qed.

(** What the hook does when the backend is attached to the cache. *)
Lemma lfc_change_limit_hook_spec n newval st :
  lfc_inv st → below n st → n + 1 < 2 ^ 32 →
  ∃ st' victims offsets,
    lfc_change_limit_hook true newval st = Done st' ∧
    lru_of st = victims ++ lru_of st' ∧
    Forall2 (λ v o, ∃ e, lfc_hash st !! v = Some e ∧ access_count e = 0 ∧
                         offset e = o) victims offsets ∧
    holes st' = rev (hole_addr <$> offsets) ++ holes st ∧
    (∀ k, lfc_hash st' !! k =
          if decide (k ∈ victims) then None else lfc_hash st !! k) ∧
    used_of st' = used_of st - Z.of_nat (length victims) ∧
    size_of st' = size_of st ∧
    (victims = [] ∨ SIZE_MB_TO_CHUNKS newval ≤ used_of st') ∧
    (used_of st' ≤ SIZE_MB_TO_CHUNKS newval ∨ lru_of st' = []) ∧
    (∀ k e, lfc_hash st !! k = Some e → access_count e ≠ 0 →
            lfc_hash st' !! k = Some e) ∧
    (used_of st' ≤ SIZE_MB_TO_CHUNKS newval ∨
     ∀ k e, lfc_hash st' !! k = Some e → access_count e ≠ 0) ∧
    lfc_mem st' = punch (rev (hole_addr <$> offsets)) (lfc_mem st).
Proof.
  intros Hinv Hb Hn. set (new_size := SIZE_MB_TO_CHUNKS newval).
  pose proof Hinv as [Hnd Hl Hu Hus Hc]. pose proof Hb as [Hbs Hba].
  destruct (shrink_loop_spec new_size (ctl_lru (lfc_ctl st)) (lfc_hash st)
              (ctl_used (lfc_ctl st)) [])
    as (victims & offsets & l' & h' & used' & Hloop & Hsplit & Hvs & Hh' & Hu' & Hmin & Hexit);
    [done|done|done|lia|].
  assert (Hhook : lfc_change_limit_hook true newval st =
    Done (set_mem (punch (rev (hole_addr <$> offsets)) (lfc_mem st))
            (set_holes (rev (hole_addr <$> offsets) ++ holes st)
               (set_ctl (mkControl (ctl_size (lfc_ctl st)) used' l')
                  (set_hash h' st))))).
  { unfold lfc_change_limit_hook. simpl. fold new_size. rewrite Hloop. simpl.
    by rewrite app_nil_r. }
  destruct (lfc_change_limit_hook_inv n _ _ _ _ Hinv Hb ltac:(lia) Hhook)
    as [[_ Hl' _ _ _] _].
  simpl in Hl'.
  assert (Hpinned : ∀ k e, lfc_hash st !! k = Some e → access_count e ≠ 0 →
                           k ∉ victims).
  { intros k e Hk Hp Hin.
    apply (pinned_unlinked _ _ _ _ Hl Hk Hp). rewrite Hsplit.
    apply elem_of_app. by left. }
  eexists _, victims, offsets. split; [done|].
  unfold lru_of, used_of, size_of. simpl. split_and!; try done.
  - intros k e Hk Hp. rewrite Hh', decide_False; [done|]. by eapply Hpinned.
  - destruct Hexit as [?| ->]; [by left|right].
    intros k e Hk Hz.
    assert (k ∈ @nil BufferTag) as Hin by (apply Hl'; eauto).
    inversion Hin.
Qed.

(** C4, at the input that fails. The slab holds 8192 chunks and so does
    the limit. A page is written to each of 4097 chunks, which get the
    slots 0 to 4096, and then a second page to the first chunk, which
    moves it to the tail of the list. The limit is lowered to one chunk:
    the hook pops the other 4096 chunks, the last of them from slot
    4096. For that one [victim->offset*CHUNK_SIZE] is 2^32 in
    [unsigned int], which is 0: [madvise] is given the range of slot 0,
    where the chunk that stays is cached, and the range of slot 4096 is
    never given. The index still holds the first chunk with both pages,
    and [lfc_read] of the page written first, whose bytes were those
    written, hands back zeroes. *)
Theorem shrink_punches_slot_of_cached_chunk :
  let st0 := run (many_chunks 4097 ++ [Write (rel 1) 0 1 (page_of Byte.x62)])
                 (lfc_shmem_startup 8192 8192) in
  let st := st0 ≫= exec (AssignSizeLimit 1) in
  observe (entry_of (chunk0 4097)) st0 = Some (Some (mkEntry 4096 0 [1; 0; 0; 0])) ∧
  observe (entry_of (chunk0 1)) st0 = Some (Some (mkEntry 0 0 [3; 0; 0; 0])) ∧
  observe (λ s, lfc_mem s (page_addr 0 0)) st0 = Some Byte.x61 ∧
  observe (entry_of (chunk0 1)) st = Some (Some (mkEntry 0 0 [3; 0; 0; 0])) ∧
  observe used_of st = Some 1 ∧
  observe (λ s, head (holes s)) st = Some (Some 0) ∧
  observe (λ s, bool_decide (4096 * CHUNK_SIZE ∈ holes s)) st = Some false ∧
  hole_addr 4096 = 0 ∧ page_addr 0 0 = 0 ∧ 4096 * CHUNK_SIZE = 2 ^ 32 ∧
  observe_result (λ page _, page) (st ≫= lfc_read (rel 1) 0 0)
    = Some (Some (page_of Byte.x00)).
Proof. vm_compute. done. Qed.

(** *** Whole calls: defined, and leaving no pin behind *)

Lemma lfc_write_whole n rn fork blkno buffer st :
  lfc_inv st → below n st → n + 1 < 2 ^ 32 → quiescent st →
  ∃ st', lfc_write rn fork blkno buffer st = Done st' ∧ quiescent st'.
Proof.
  intros Hinv Hb Hn Hq.
  destruct (decide (lfc_size_limit st = 0)) as [Hz|Hlim].
  { exists st. split; [|done]. unfold lfc_write, lfc_write_begin.
    by rewrite Hz. }
  destruct (lfc_write_post n rn fork blkno buffer st)
    as (st' & e' & bm & Hw & He' & Hothers & _ & Hfrom & _); [done..|].
  exists st'. split; [done|]. intros k e Hk.
  destruct (decide (k = chunk_tag rn fork blkno)) as [->|Hne].
  - assert (e = e') as -> by congruence.
    destruct (lfc_hash st !! chunk_tag rn fork blkno) as [e0|] eqn:Ht.
    + destruct Hfrom as [_ ->]. by eapply Hq.
    + by destruct Hfrom.
  - eapply Hq, Hothers; eauto.
Qed.

Lemma lfc_read_whole n rn fork blkno st :
  lfc_inv st → below n st → n + 1 < 2 ^ 32 → quiescent st →
  ∃ r st', lfc_read rn fork blkno st = Done (r, st') ∧ quiescent st'.
Proof.
  intros Hinv Hb Hn Hq. unfold lfc_read, lfc_read_begin, lfc_read_end.
  destruct (lfc_size_limit st =? 0); [simpl; eauto|].
  destruct (lfc_hash st !! chunk_tag rn fork blkno) as [e|] eqn:Ht;
    [|simpl; eauto].
  destruct (negb _); [simpl; eauto|].
  rewrite (lfc_pin_defined _ e) by (done || apply Hinv). simpl.
  destruct (pin_state_inv n _ e st Hinv Hb Hn Ht) as [[_ Hl1 _ _ _] _].
  pose proof (Hq _ _ Ht) as Hz.
  erewrite lfc_unpin_defined; [|done|apply lookup_insert_eq|].
  2:{ simpl. rewrite Hz. by vm_compute. }
  simpl. eexists _, _. split; [done|].
  intros k e0. simpl. destruct (decide (k = chunk_tag rn fork blkno)) as [->|Hne].
  - rewrite lookup_insert_eq. intros [= <-]. simpl. rewrite Hz. by vm_compute.
  - rewrite !lookup_insert_ne by done. apply Hq.
Qed.

Lemma lfc_evict_whole ind rn fork blkno st :
  lfc_inv st → quiescent st →
  ∃ st', lfc_evict ind rn fork blkno st = Done st' ∧ quiescent st'.
Proof.
  intros [Hnd Hl _ _ _] Hq. unfold lfc_evict.
  destruct (lfc_size_limit st =? 0); [eauto|].
  destruct (lfc_hash st !! chunk_tag rn fork blkno) as [e|] eqn:Ht; [|eauto].
  assert (Hq1 : quiescent
    (set_hash (<[chunk_tag rn fork blkno :=
                   set_bitmap (bitmap_clear (bitmap e) (chunk_offs_of blkno)) e]>
                 (lfc_hash st)) st)).
  { intros k e0. simpl. destruct (decide (k = chunk_tag rn fork blkno)) as [->|Hne].
    - rewrite lookup_insert_eq. intros [= <-]. simpl. by eapply Hq.
    - rewrite lookup_insert_ne by done. apply Hq. }
  destruct (bitmap_word _ _ =? 0); [|eauto].
  destruct (negb _); [|eauto].
  simpl. unfold dlist_delete. rewrite decide_True.
  2:{ eapply unpinned_linked; eauto. }
  simpl. unfold dlist_push_head. rewrite decide_False.
  2:{ rewrite elem_of_unlink by done. tauto. }
  simpl. eauto.
Qed.

Lemma lfc_change_limit_hook_whole n attached newval st :
  lfc_inv st → below n st → n + 1 < 2 ^ 32 → quiescent st →
  ∃ st', lfc_change_limit_hook attached newval st = Done st' ∧ quiescent st'.
Proof.
  intros Hinv Hb Hn Hq. destruct attached; [|by exists st].
  destruct (lfc_change_limit_hook_spec n newval st Hinv Hb Hn)
    as (st' & victims & offsets & Hhook & _ & _ & _ & Hh' & _).
  exists st'. split; [done|]. intros k e. rewrite Hh'.
  destruct (decide (k ∈ victims)); [done|]. apply Hq.
Qed.

Lemma exec_whole n o st :
  whole_call o = true →
  lfc_inv st → below n st → n + 1 < 2 ^ 32 → quiescent st →
  ∃ st', exec o st = Done st' ∧ quiescent st'.
Proof.
  intros Hw Hinv Hb Hn Hq. destruct o; try discriminate; simpl.
  - eauto.
  - destruct (lfc_read_whole n rn fork blkno st) as (r & st' & -> & ?); eauto.
  - by apply (lfc_write_whole n).
  - by apply lfc_evict_whole.
  - by apply (lfc_change_limit_hook_whole n).
  - unfold assign_file_cache_size_limit.
    destruct (lfc_check_limit_hook _ _); [|simpl; eauto].
    destruct (lfc_change_limit_hook_whole n true newval st)
      as (st' & -> & ?); [done..|].
    simpl. eauto.
Qed.


(** *** What each critical section does to the list *)










(** *** Linkage and pins along schedules *)






(** *** Accounting *)

(** [used] counts the entries of the index and never exceeds [size]. *)
Lemma accounting max_size size_limit ops st :
  Z.of_nat (length ops) < 2 ^ 32 →
  run ops (lfc_shmem_startup max_size size_limit) = Done st →
  used_of st = Z.of_nat (entries_of st) ∧ used_of st ≤ size_of st.
Proof.
  intros Hlen Hrun.
  destruct (lfc_shmem_startup_inv max_size size_limit) as [Hinv0 Hb0].
  destruct (run_inv ops 0 _ st Hinv0 Hb0) as [[_ _ Hu Hus _] _]; done.
Qed.

(** C6, at the input that fails. The slab holds two chunks and the limit
    is two chunks. Two chunks are written; the limit is lowered to one
    chunk, which drops one of them, and raised to two again; a third
    chunk is written. It gets offset [size], which no write
    ever lowers: [size] becomes 3 with a capacity of 2, and the page goes
    to the first byte after the slab. [used] still counts the entries. *)
Theorem size_exceeds_slab_capacity :
  let st := run [Write (rel 1) 0 0 (page_of Byte.x61);
                 Write (rel 2) 0 0 (page_of Byte.x62);
                 AssignSizeLimit 1;
                 AssignSizeLimit 2;
                 Write (rel 3) 0 0 (page_of Byte.x63)]
                (lfc_shmem_startup 2 2) in
  observe capacity_chunks st = Some 2 ∧
  observe size_of st = Some 3 ∧
  observe used_of st = Some 2 ∧
  observe entries_of st = Some 2%nat ∧
  observe (entry_of (chunk0 3)) st = Some (Some (mkEntry 2 0 [1; 0; 0; 0])) ∧
  page_addr 2 0 = 2 * MB.
Proof. vm_compute. done. Qed.

(** *** Scenarios of the specification *)

(** Three writes: with a limit of two chunks the third write
    takes the slot of the first. *)
Example third_write_takes_first_slot :
  let st := run [Write (rel 1) 0 0 (page_of Byte.x61);
                 Write (rel 2) 0 0 (page_of Byte.x62);
                 Write (rel 3) 0 0 (page_of Byte.x63)]
                (lfc_shmem_startup 4 2) in
  observe (lfc_cache_contains (rel 1) 0 0) st = Some false ∧
  observe (lfc_cache_contains (rel 2) 0 0) st = Some true ∧
  observe (lfc_cache_contains (rel 3) 0 0) st = Some true ∧
  observe used_of st = Some 2 ∧
  observe (entry_of (chunk0 3)) st = Some (Some (mkEntry 0 0 [1; 0; 0; 0])).
Proof. vm_compute. done. Qed.

(** A read moves the chunk to the tail, so the next admission takes the
    other one. *)
Example lru_promotion_on_read :
  let st := run [Write (rel 1) 0 0 (page_of Byte.x61);
                 Write (rel 2) 0 0 (page_of Byte.x62);
                 Read (rel 1) 0 0;
                 Write (rel 3) 0 0 (page_of Byte.x63)]
                (lfc_shmem_startup 4 2) in
  observe (lfc_cache_contains (rel 1) 0 0) st = Some true ∧
  observe (lfc_cache_contains (rel 2) 0 0) st = Some false ∧
  observe (lfc_cache_contains (rel 3) 0 0) st = Some true ∧
  observe lru_of st = Some [chunk0 1; chunk0 3].
Proof. vm_compute. done. Qed.

(** Every chunk pinned: the admission allocates past the limit. *)
Example admission_with_all_chunks_pinned :
  let st := run [WriteBegin (rel 1) 0 0; WriteBegin (rel 2) 0 0]
                (lfc_shmem_startup 4 1) in
  observe lru_of st = Some [] ∧
  observe size_of st = Some 2 ∧ observe used_of st = Some 2 ∧
  SIZE_MB_TO_CHUNKS 1 = 1.
Proof. vm_compute. done. Qed.

End LFC_Theory.

Module PSC_Theory.
Import PSC.

Section with_header.
Context `{pagestore_client_h}.

(** *** Closing connections *)

Lemma pageserver_disconnect_shard_servers shard_no b :
  page_servers (pageserver_disconnect_shard shard_no b) =
    match page_servers b !! Z.to_nat shard_no with
    | Some _ => <[Z.to_nat shard_no := mkPageServer None false]> (page_servers b)
    | None => page_servers b
    end.
Proof.
  unfold pageserver_disconnect_shard.
  destruct (page_servers b !! Z.to_nat shard_no) as [ps|]; [|done].
  by destruct (conn ps).
Qed.

Lemma pageserver_disconnect_servers shard_no b :
  page_servers (pageserver_disconnect shard_no b) =
    match page_servers b !! Z.to_nat shard_no with
    | Some _ => <[Z.to_nat shard_no := mkPageServer None false]> (page_servers b)
    | None => page_servers b
    end.
Proof.
  unfold pageserver_disconnect.
  destruct (page_servers b !! Z.to_nat shard_no) as [ps|] eqn:E; [|done].
  rewrite pageserver_disconnect_shard_servers.
  destruct (conn ps); simpl; by rewrite E.
Qed.

Lemma same_counters_refl b : same_counters b b.
Proof. by repeat split. Qed.

Lemma same_counters_trans b1 b2 b3 :
  same_counters b1 b2 → same_counters b2 b3 → same_counters b1 b3.
Proof.
  intros (?&?&?&?&?&?&?) (?&?&?&?&?&?&?).
  repeat split; congruence.
Qed.

Lemma pageserver_disconnect_counters shard_no b :
  same_counters b (pageserver_disconnect shard_no b).
Proof.
  unfold pageserver_disconnect, pageserver_disconnect_shard.
  destruct (page_servers b !! Z.to_nat shard_no) as [ps|] eqn:E;
    [|apply same_counters_refl].
  destruct (conn ps) eqn:Ec; simpl; rewrite E; simpl; rewrite ?Ec;
    by repeat split.
Qed.

Lemma disconnect_if_open_counters b i :
  same_counters b (disconnect_if_open b i).
Proof.
  unfold disconnect_if_open.
  destruct (page_servers b !! Z.to_nat i) as [[[c|] w]|];
    try apply same_counters_refl.
  apply pageserver_disconnect_counters.
Qed.

Lemma disconnect_if_open_servers b i j :
  page_servers (disconnect_if_open b i) !! j =
    (λ ps, if is_open ps && bool_decide (j = Z.to_nat i)
           then mkPageServer None false else ps) <$> page_servers b !! j.
Proof.
  unfold disconnect_if_open.
  destruct (page_servers b !! Z.to_nat i) as [[[c|] w]|] eqn:E.
  - rewrite pageserver_disconnect_servers, E.
    destruct (decide (j = Z.to_nat i)) as [->|Hne].
    + rewrite list_lookup_insert_eq by (by eapply lookup_lt_Some).
      rewrite E. simpl. by rewrite bool_decide_eq_true_2.
    + rewrite list_lookup_insert_ne by done.
      destruct (page_servers b !! j) as [ps|]; [|done]. simpl.
      by rewrite bool_decide_eq_false_2, andb_false_r.
  - destruct (page_servers b !! j) as [ps|] eqn:Ej; [|done]. simpl.
    case_bool_decide as Hj; [|by rewrite andb_false_r].
    subst j. rewrite E in Ej. by injection Ej as <-.
  - destruct (page_servers b !! j) as [ps|] eqn:Ej; [|done]. simpl.
    case_bool_decide as Hj; [|by rewrite andb_false_r].
    subst j. by rewrite E in Ej.
Qed.

Lemma foldl_disconnect_servers (ixs : list Z) : ∀ b j,
  page_servers (foldl disconnect_if_open b ixs) !! j =
    (λ ps, if is_open ps && bool_decide (j ∈ Z.to_nat <$> ixs)
           then mkPageServer None false else ps) <$> page_servers b !! j.
Proof.
  induction ixs as [|i ixs IH]; intros b j; simpl.
  - destruct (page_servers b !! j); [|done]. simpl. by rewrite andb_false_r.
  - rewrite IH, disconnect_if_open_servers.
    destruct (page_servers b !! j) as [ps|]; [|done]. simpl. f_equal.
    destruct (decide (j = Z.to_nat i)) as [->|Hne].
    + rewrite (bool_decide_eq_true_2 (Z.to_nat i = Z.to_nat i)) by done.
      rewrite (bool_decide_eq_true_2 (_ ∈ _ :: _)) by (by left).
      rewrite !andb_true_r. destruct (is_open ps) eqn:Eo; simpl; [done|].
      by rewrite Eo.
    + rewrite (bool_decide_eq_false_2 (j = Z.to_nat i)) by done.
      rewrite andb_false_r.
      destruct (decide (j ∈ Z.to_nat <$> ixs)).
      * rewrite !bool_decide_eq_true_2; [done|by right|done].
      * rewrite !bool_decide_eq_false_2; [done| |done].
        by intros [?|?]%elem_of_cons.
Qed.

Lemma foldl_disconnect_counters (ixs : list Z) : ∀ b,
  same_counters b (foldl disconnect_if_open b ixs).
Proof.
  induction ixs as [|i ixs IH]; intros b; simpl; [apply same_counters_refl|].
  eapply same_counters_trans; [apply disconnect_if_open_counters|apply IH].
Qed.

(** After the loop no connection ixs open. *)
Lemma disconnect_all_closed b j ps :
  length (page_servers b) = Z.to_nat MAX_SHARDS →
  page_servers (disconnect_all b) !! j = Some ps → conn ps = None.
Proof.
  intros Hlen. unfold disconnect_all. rewrite foldl_disconnect_servers.
  destruct (page_servers b !! j) as [ps0|] eqn:E; [|done]. simpl.
  apply lookup_lt_Some in E as Hj.
  rewrite bool_decide_eq_true_2.
  2:{ apply list_elem_of_fmap. exists (Z.of_nat j). split; [lia|].
      apply elem_of_seqZ. lia. }
  rewrite andb_true_r. destruct ps0 as [[c|] w]; simpl; by intros [= <-].
Qed.

Lemma disconnect_all_length b :
  length (page_servers (disconnect_all b)) = length (page_servers b).
Proof.
  unfold disconnect_all. generalize (seqZ 0 MAX_SHARDS). intros ixs. revert b.
  induction ixs as [|i ixs IH]; intros b; simpl; [done|].
  rewrite IH. unfold disconnect_if_open.
  destruct (page_servers b !! Z.to_nat i) as [[[c|] w]|] eqn:E; try done.
  rewrite pageserver_disconnect_servers, E. apply length_insert.
Qed.

(** Connections that were not open stay as they were. *)
Lemma disconnect_all_unconnected shard_no b :
  unconnected shard_no b → unconnected shard_no (disconnect_all b).
Proof.
  intros [w Hw]. unfold unconnected, disconnect_all.
  rewrite foldl_disconnect_servers, Hw. simpl. eauto.
Qed.

(** *** The shard map as a backend reads it *)

Lemma seqlock_read_consistent turns r :
  seqlock_read turns = Some r → torn r = false ∧ r ∈ turns.
Proof.
  induction turns as [|t turns IH]; simpl; [done|].
  destruct (torn t) eqn:E.
  - intros Hr. apply IH in Hr as [? ?]. split; [done|by right].
  - intros [= <-]. split; [done|by left].
Qed.

Lemma torn_false r :
  torn r = false →
  rd_begin r = rd_end r ∧ rd_begin_again r = rd_begin r ∧ rd_end_again r = rd_end r.
Proof.
  unfold torn. intros Ht.
  apply orb_false_elim in Ht as [Ht H3]. apply orb_false_elim in Ht as [H1 H2].
  apply negb_false_iff, Z.eqb_eq in H1, H2, H3. lia.
Qed.

(** With no writer at work the first turn succeeds. *)
Lemma seqlock_read_quiet shm shard_no turns :
  begin_update_counter shm = end_update_counter shm →
  seqlock_read (quiet_reads shm shard_no :: turns) = Some (quiet_reads shm shard_no).
Proof.
  intros Heq. simpl. unfold torn. simpl. by rewrite Heq, !Z.eqb_refl.
Qed.

(** C9. A call of [load_shard_map] that reads a consistent snapshot
    either raises, having changed neither the connections nor the local
    counter, or returns. When it returns and the snapshot's end counter
    differs from the local counter, no shard connection is open any
    more, whatever the shard index, and the local counter is the end
    counter read; when the two are equal the call leaves the backend as
    it was. *)
Theorem load_shard_map_invalidates shard_no want turns b r :
  length (page_servers b) = Z.to_nat MAX_SHARDS →
  seqlock_read turns = Some r →
  rd_begin r = rd_end r ∧
  ((∃ b', load_shard_map shard_no want turns b = Raise b' ∧
          want = true ∧ to_shardno (rd_num_shards r) ≤ shard_no ∧
          page_servers b' = page_servers b ∧
          pagestore_local_counter b' = pagestore_local_counter b) ∨
   (∃ b', load_shard_map shard_no want turns b =
            Ret (to_shardno (rd_num_shards r), rd_connstr r) b' ∧
          (pagestore_local_counter b ≠ rd_end r →
             (∀ j ps, page_servers b' !! j = Some ps → conn ps = None) ∧
             length (page_servers b') = Z.to_nat MAX_SHARDS ∧
             pagestore_local_counter b' = rd_end r) ∧
          (pagestore_local_counter b = rd_end r → b' = b))).
Proof.
  intros Hlen Hr.
  destruct (seqlock_read_consistent _ _ Hr) as [Ht _].
  split; [by apply torn_false in Ht as [? _]|].
  unfold load_shard_map. rewrite Hr.
  destruct (want && _) eqn:Ew.
  - left. apply andb_true_iff in Ew as [-> Hle]. apply Z.leb_le in Hle.
    eexists. split_and!; done.
  - right. eexists. split; [done|].
    destruct (pagestore_local_counter b =? rd_end r) eqn:Ec; simpl.
    + apply Z.eqb_eq in Ec. split; [done|]. done.
    + apply Z.eqb_neq in Ec. split; [|done]. intros _. split_and!.
      * intros j ps. by apply disconnect_all_closed.
      * by rewrite disconnect_all_length.
      * done.
Qed.

End with_header.

Lemma load_shard_map_invalidates_witness :
  let shm := mkShmem 3 3 (mkShardMap (["host=ps1"; "host=ps2"]%string) 2) in
  let b := set_page_servers
             (<[1%nat := mkPageServer (Some (mkConn "host=old" false)) true]>
                (page_servers (backend_start (H := sample_header) 60 32768)))
             (backend_start (H := sample_header) 60 32768) in
  let r := quiet_reads shm 0 in
  rd_begin r = rd_end r ∧
  ((∃ b', load_shard_map (H := sample_header) 0 true [r] b = Raise b' ∧
          true = true ∧ to_shardno (H := sample_header) (rd_num_shards r) ≤ 0 ∧
          page_servers b' = page_servers b ∧
          pagestore_local_counter b' = pagestore_local_counter b) ∨
   (∃ b', load_shard_map (H := sample_header) 0 true [r] b =
            Ret (to_shardno (H := sample_header) (rd_num_shards r), rd_connstr r) b' ∧
          (pagestore_local_counter b ≠ rd_end r →
             (∀ j ps, page_servers b' !! j = Some ps → conn ps = None) ∧
             length (page_servers b') = Z.to_nat (MAX_SHARDS (pagestore_client_h := sample_header)) ∧
             pagestore_local_counter b' = rd_end r) ∧
          (pagestore_local_counter b = rd_end r → b' = b))).
Proof.
  intros shm b r.
  apply (load_shard_map_invalidates (H := sample_header) 0 true [r] b r).
  - reflexivity.
  - reflexivity.
Defined.

Section shard_router.
Context `{pagestore_client_h}.

(** *** The shard of a block *)

Lemma to_shardno_small z : 0 ≤ z ≤ MAX_SHARDS → to_shardno z = z.
Proof.
  intros Hz. unfold to_shardno. apply Z.mod_small.
  pose proof shards_fit. lia.
Qed.

Lemma murmurhash32_nonneg data : 0 ≤ murmurhash32 data.
Proof.
  unfold murmurhash32.
  apply Z.lxor_nonneg. split; intros _.
  - apply Z.shiftr_nonneg, uint32_range.
  - apply uint32_range.
Qed.

Lemma hash_combine_nonneg a b : 0 ≤ a → 0 ≤ hash_combine a b.
Proof.
  intros Ha. unfold hash_combine. apply Z.lxor_nonneg.
  split; intros _; [apply uint32_range|done].
Qed.

Lemma load_shard_map_counters shard_no want turns b v b' :
  load_shard_map shard_no want turns b = Ret v b' → same_counters b b'.
Proof.
  unfold load_shard_map. destruct (seqlock_read turns) as [r|]; [|done].
  destruct (want && _); [done|]. intros [= <- <-].
  destruct (negb _); [|apply same_counters_refl].
  eapply same_counters_trans; [apply foldl_disconnect_counters|].
  by repeat split.
Qed.

(** The parse loop never asks for more fuel than [ParseShardMap] gives. *)
Lemma strchr_comma_shorter p : ∀ item p',
  strchr_comma p = (item, Some p') → (String.length p' < String.length p)%nat.
Proof.
  induction p as [|c p IH]; intros item p'; simpl; [done|].
  destruct (Ascii.eqb c ","%char).
  - intros [= <- <-]. lia.
  - destruct (strchr_comma p) as [a r] eqn:E. intros [= <- ->].
    specialize (IH _ _ eq_refl). lia.
Qed.

Lemma ParseShardMap_loop_fuel fuel : ∀ p nshards acc,
  (String.length p < fuel)%nat →
  ParseShardMap_loop fuel p nshards acc ≠ MoreFuel.
Proof.
  induction fuel as [|fuel IH]; intros p nshards acc Hlen; [lia|]. simpl.
  destruct (strchr_comma p) as [item sep] eqn:E.
  destruct (_ && _); [done|].
  destruct (MAX_SHARDS <=? nshards); [done|].
  destruct (MAX_PAGESERVER_CONNSTRING_SIZE <=? _); [done|].
  destruct sep as [p'|]; [|done].
  apply IH. apply strchr_comma_shorter in E. lia.
Qed.

Lemma ParseShardMap_total connstr : ParseShardMap connstr ≠ MoreFuel.
Proof.
  unfold ParseShardMap.
  pose proof (ParseShardMap_loop_fuel (S (String.length connstr)) connstr 0 []
                ltac:(lia)).
  by destruct (ParseShardMap_loop _ _ _ _).
Qed.

(** The default connection string leaves the shard map without shards. *)
Lemma ParseShardMap_empty : ParseShardMap "" = Parsed empty_shard_map.
Proof.
  unfold ParseShardMap, empty_shard_map, pad_connstrings. simpl.
  by rewrite Nat.sub_0_r.
Qed.

Lemma PagestoreShmemInit_default :
  PagestoreShmemInit "" = Some (mkShmem 0 0 empty_shard_map).
Proof.
  unfold PagestoreShmemInit, AssignPageserverConnstring.
  rewrite ParseShardMap_empty. simpl. by rewrite bool_decide_eq_true_2.
Qed.

(** C10. [get_shard_number] reduces the combined hash of the relation
    and of the stripe of the block modulo the number of shards read from
    the shard map, without a test for zero. With at least one shard the
    call returns, and the result is the remainder, a function of the
    tag, the stripe size and the number of shards alone, below the
    number of shards. With no shard, as after a start with the default
    empty connection string, the call reaches the remainder by zero and
    is undefined; it neither returns nor raises. *)
Theorem get_shard_number_spec tag turns b r :
  seqlock_read turns = Some r →
  1 ≤ stripe_size b < 2 ^ 31 →
  (1 ≤ rd_num_shards r ≤ MAX_SHARDS →
     ∃ b', get_shard_number tag turns b =
             Ret (hash_combine (murmurhash32 (LFC.relNode (LFC.rnode tag)))
                               (murmurhash32 (LFC.blockNum tag / stripe_size b))
                  mod rd_num_shards r) b' ∧
           0 ≤ hash_combine (murmurhash32 (LFC.relNode (LFC.rnode tag)))
                            (murmurhash32 (LFC.blockNum tag / stripe_size b))
               mod rd_num_shards r
             < rd_num_shards r) ∧
  (rd_num_shards r = 0 → get_shard_number tag turns b = Undef) ∧
  (PagestoreShmemInit "" = Some (mkShmem 0 0 empty_shard_map) ∧
   get_shard_number tag [quiet_reads (mkShmem 0 0 empty_shard_map) 0] b = Undef).
Proof.
  intros Hr Hstripe.
  assert (Hgen : ∀ turns r, seqlock_read turns = Some r →
    ∃ b', load_shard_map 0 false turns b =
            Ret (to_shardno (rd_num_shards r), rd_connstr r) b' ∧
          uint32 (stripe_size b') = stripe_size b).
  { intros turns0 r0 Hr0. unfold load_shard_map. rewrite Hr0. simpl.
    eexists. split; [done|].
    assert (Hsame : same_counters b
      (if negb (pagestore_local_counter b =? rd_end r0)
       then set_local_counter (rd_end r0) (disconnect_all b) else b)).
    { eapply (load_shard_map_counters 0 false turns0).
      unfold load_shard_map. rewrite Hr0. simpl. done. }
    destruct Hsame as (_ & _ & -> & _). apply uint32_small. lia. }
  assert (Hzero : ∀ turns r, seqlock_read turns = Some r →
    rd_num_shards r = 0 → get_shard_number tag turns b = Undef).
  { intros turns0 r0 Hr0 Hz. unfold get_shard_number.
    destruct (Hgen _ _ Hr0) as (b' & -> & ->).
    rewrite Hz. unfold to_shardno. rewrite Z.mod_0_l by (pose proof shards_fit; lia).
    simpl. by destruct (stripe_size b =? 0). }
  split_and!.
  - intros Hn. unfold get_shard_number.
    destruct (Hgen _ _ Hr) as (b' & -> & ->).
    rewrite to_shardno_small by lia.
    rewrite (proj2 (Z.eqb_neq _ _)) by lia.
    rewrite (proj2 (Z.eqb_neq _ _)) by lia.
    set (hash := hash_combine _ _).
    assert (Hrange : 0 ≤ hash mod rd_num_shards r < rd_num_shards r)
      by (apply Z.mod_pos_bound; lia).
    rewrite to_shardno_small by lia. eauto.
  - by apply Hzero.
  - apply PagestoreShmemInit_default.
  - apply (Hzero _ (quiet_reads (mkShmem 0 0 empty_shard_map) 0)); [|done].
    by apply seqlock_read_quiet.
Qed.

End shard_router.

Lemma get_shard_number_spec_witness :
  let shm := mkShmem 1 1 (mkShardMap (["host=ps1"; "host=ps2"; "host=ps3"]%string) 3) in
  let b := backend_start (H := sample_header) 60 32768 in
  let tag := LFC.mkBufferTag (LFC.rel 16384) 0 100000 in
  let r := quiet_reads shm 0 in
  ∃ b', get_shard_number (H := sample_header) tag [r] b =
          Ret (hash_combine (murmurhash32 16384) (murmurhash32 (100000 / 32768))
               mod 3) b' ∧
        0 ≤ hash_combine (murmurhash32 16384) (murmurhash32 (100000 / 32768)) mod 3
          < 3.
Proof.
  intros shm b tag r.
  apply (proj1 (get_shard_number_spec (H := sample_header) tag [r] b r
                  ltac:(reflexivity) ltac:(simpl; lia))).
  simpl. lia.
Defined.

Example get_shard_number_sample :
  let shm := mkShmem 1 1 (mkShardMap (["host=ps1"; "host=ps2"; "host=ps3"]%string) 3) in
  statics (λ _, tt) (get_shard_number (H := sample_header)
                       (LFC.mkBufferTag (LFC.rel 16384) 0 100000)
                       [quiet_reads shm 0]
                       (backend_start (H := sample_header) 60 32768)) = Some tt ∧
  hash_combine (murmurhash32 16384) (murmurhash32 (100000 / 32768)) mod 3 = 1 ∧
  murmurhash32 0 = 0 ∧ murmurhash32 1 = 0x514e28b7 ∧
  hash_combine 0 0 = 0x9e3779b9.
Proof. vm_compute. done. Qed.

Section reconnect.
Context `{pagestore_client_h}.

(** *** Backoff *)

(** Less than the interval since the last attempt: sleep [delay_us],
    then double it, modulo the word size and nothing else. *)
Lemma backoff_within_interval now b :
  uint64 (now - last_connect_time b) < MAX_RECONNECT_INTERVAL_USEC →
  backoff now b = set_delay_us (uint64 (delay_us b * 2)) (pg_usleep (to_long (delay_us b)) b).
Proof. intros Hlt. unfold backoff. by rewrite (proj2 (Z.ltb_lt _ _) Hlt). Qed.

(** At least the interval: no sleep, and [delay_us] starts over. *)
Lemma backoff_after_interval now b :
  MAX_RECONNECT_INTERVAL_USEC ≤ uint64 (now - last_connect_time b) →
  backoff now b = set_delay_us MIN_RECONNECT_INTERVAL_USEC b.
Proof. intros Hge. unfold backoff. by rewrite (proj2 (Z.ltb_ge _ _) Hge). Qed.

Lemma backoff_counters now b :
  n_reconnect_attempts (backoff now b) = n_reconnect_attempts b ∧
  max_reconnect_attempts (backoff now b) = max_reconnect_attempts b ∧
  failure_levels (backoff now b) = failure_levels b ∧
  page_servers (backoff now b) = page_servers b.
Proof. unfold backoff. by destruct (_ <? _). Qed.

(** *** One attempt *)

Lemma failure_levels_report lvl m b :
  failure_levels (report lvl m b) =
    if is_connect_failure m then lvl :: failure_levels b else failure_levels b.
Proof.
  unfold failure_levels, report. simpl. rewrite filter_cons. simpl.
  destruct (is_connect_failure m); case_decide; done.
Qed.


Lemma load_shard_map_unconnected shard_no turns b v b' :
  unconnected shard_no b →
  load_shard_map shard_no true turns b = Ret v b' → unconnected shard_no b'.
Proof.
  intros Hu. unfold load_shard_map. destruct (seqlock_read turns) as [r|]; [|done].
  destruct (true && _); [done|]. intros [= <- <-].
  destruct (negb _); [|done].
  destruct (disconnect_all_unconnected shard_no b Hu) as [w Hw]. by exists w.
Qed.

Lemma load_shard_map_reads shard_no env b :
  reads_shard shard_no env →
  ∃ v b', load_shard_map shard_no true (ce_turns env) b = Ret v b'.
Proof.
  intros (r & Hr & Hlt). unfold load_shard_map. rewrite Hr. simpl.
  rewrite (proj2 (Z.leb_gt _ _) Hlt). eauto.
Qed.

(** What the attempt leaves before its outcome is known. *)
Lemma pageserver_connect_unfold shard_no lvl env b :
  unconnected shard_no b → reads_shard shard_no env →
  ∃ connstr b3,
    n_reconnect_attempts b3 = n_reconnect_attempts b ∧
    max_reconnect_attempts b3 = max_reconnect_attempts b ∧
    failure_levels b3 = failure_levels b ∧
    unconnected shard_no b3 ∧
    pageserver_connect shard_no lvl env b =
      match ce_outcome env with
      | ConnectionBad => connect_failed lvl CouldNotEstablishConnection b3
      | SendQueryFailed => connect_failed lvl CouldNotSendPagestream b3
      | HandshakeFailed =>
          match lvl with
          | ERROR => Undef
          | _ => connect_failed lvl CouldNotCompleteHandshake b3
          end
      | HandshakeDone =>
          Ret true
            (set_page_servers
               (<[Z.to_nat shard_no := mkPageServer (Some (mkConn connstr false)) true]>
                  (page_servers (report LOG Connected b3)))
               (report LOG Connected b3))
      end.
Proof.
  intros Hu Hreads. pose proof Hu as [w Hw].
  destruct (load_shard_map_reads shard_no env b Hreads) as ([n connstr] & b1 & Hload).
  pose proof (load_shard_map_counters _ _ _ _ _ _ Hload) as (Hn & Hm & _ & _ & _ & _ & Hf).
  pose proof (load_shard_map_unconnected _ _ _ _ _ Hu Hload) as [w1 Hw1].
  destruct (backoff_counters (ce_now env) b1) as (Hn2 & Hm2 & Hf2 & Hp2).
  exists connstr, (set_last_connect_time (ce_connected_at env) (backoff (ce_now env) b1)).
  split_and!.
  - simpl. congruence.
  - simpl. congruence.
  - unfold failure_levels in *. simpl. congruence.
  - exists w1. simpl. congruence.
  - unfold pageserver_connect. by rewrite Hw, Hload.
Qed.

Lemma pageserver_connect_refused_log shard_no env b :
  unconnected shard_no b → refused shard_no env →
  ∃ b', pageserver_connect shard_no LOG env b = Ret false b' ∧
        n_reconnect_attempts b' = n_reconnect_attempts b ∧
        max_reconnect_attempts b' = max_reconnect_attempts b ∧
        failure_levels b' = LOG :: failure_levels b ∧
        unconnected shard_no b'.
Proof.
  intros Hu [Hreads Hout].
  destruct (pageserver_connect_unfold shard_no LOG env b Hu Hreads)
    as (connstr & b3 & Hn & Hm & Hf & Hu3 & ->).
  destruct (ce_outcome env); [| | |done]; simpl;
    (eexists; split_and!; [done|done|done| |done]);
    by rewrite failure_levels_report, Hf.
Qed.

Lemma pageserver_connect_refused_error shard_no env b :
  unconnected shard_no b → refused shard_no env →
  ce_outcome env ≠ HandshakeFailed →
  ∃ b', pageserver_connect shard_no ERROR env b = Raise b' ∧
        n_reconnect_attempts b' = n_reconnect_attempts b ∧
        failure_levels b' = ERROR :: failure_levels b.
Proof.
  intros Hu [Hreads Hout] Hnh.
  destruct (pageserver_connect_unfold shard_no ERROR env b Hu Hreads)
    as (connstr & b3 & Hn & Hm & Hf & Hu3 & ->).
  destruct (ce_outcome env); [| |done|done]; simpl;
    (eexists; split_and!; [done|done|]);
    by rewrite failure_levels_report, Hf.
Qed.

(** The report of a failed handshake at [ERROR] is where the attempt
    leaves defined behaviour. *)
Lemma pageserver_connect_handshake_error shard_no env b :
  unconnected shard_no b → reads_shard shard_no env →
  ce_outcome env = HandshakeFailed →
  pageserver_connect shard_no ERROR env b = Undef.
Proof.
  intros Hu Hreads Hout.
  destruct (pageserver_connect_unfold shard_no ERROR env b Hu Hreads)
    as (connstr & b3 & _ & _ & _ & _ & ->).
  by rewrite Hout.
Qed.

Lemma pageserver_connect_accepted shard_no lvl env b :
  unconnected shard_no b → accepted shard_no env →
  ∃ b', pageserver_connect shard_no lvl env b = Ret true b' ∧
        failure_levels b' = failure_levels b ∧
        is_open <$> page_servers b' !! Z.to_nat shard_no = Some true.
Proof.
  intros Hu [Hreads Hout].
  destruct (pageserver_connect_unfold shard_no lvl env b Hu Hreads)
    as (connstr & b3 & Hn & Hm & Hf & [w3 Hw3] & ->).
  rewrite Hout. eexists. split_and!; [done| |].
  - change (failure_levels (report LOG Connected b3) = failure_levels b).
    by rewrite failure_levels_report, Hf.
  - simpl. rewrite list_lookup_insert_eq by (by eapply lookup_lt_Some). done.
Qed.

(** *** The retry loop *)

(** Refusals within the budget are reported at [LOG], counted, and the
    loop goes on. *)
Lemma connect_loop_retries shard_no fails : ∀ b more,
  unconnected shard_no b → Forall (refused shard_no) fails →
  n_reconnect_attempts b + Z.of_nat (length fails) ≤ max_reconnect_attempts b →
  ∃ b', connect_loop shard_no (fails ++ more) b = connect_loop shard_no more b' ∧
        n_reconnect_attempts b' = n_reconnect_attempts b + Z.of_nat (length fails) ∧
        max_reconnect_attempts b' = max_reconnect_attempts b ∧
        failure_levels b' = replicate (length fails) LOG ++ failure_levels b ∧
        unconnected shard_no b'.
Proof.
  induction fails as [|env fails IH]; intros b more Hu Hall Hbudget.
  { exists b. split_and!; try done. simpl. lia. }
  apply Forall_cons in Hall as [Henv Hall].
  change (length (env :: fails)) with (S (length fails)) in *.
  rewrite Nat2Z.inj_succ in Hbudget.
  destruct (pageserver_connect_refused_log shard_no env b Hu Henv)
    as (b1 & Hc & Hn1 & Hm1 & Hf1 & Hu1).
  destruct (IH (set_n_reconnect_attempts (n_reconnect_attempts b1 + 1) b1) more)
    as (b' & Hloop & Hn' & Hm' & Hf' & Hu'); [done|done|simpl; lia|].
  exists b'. split_and!.
  - simpl. rewrite (proj2 (Z.ltb_lt _ _)) by lia. by rewrite Hc.
  - rewrite Hn'. simpl. lia.
  - rewrite Hm'. done.
  - rewrite Hf'. change (failure_levels (set_n_reconnect_attempts _ b1))
      with (failure_levels b1). rewrite Hf1. simpl.
    by rewrite (cons_middle LOG), app_assoc, <- replicate_cons_app.
  - done.
Qed.

(** The reconnect budget where the (max+1)-th failure is a refused
    connection or a command that could not be sent: the first
    [max_reconnect_attempts] failures are reported at [LOG] and retried,
    the next one raises with the counter left at the budget; a connection
    made within the budget sets the counter to zero. *)
Lemma reconnect_budget shard_no fails env rest put_ok b :
  unconnected shard_no b → n_reconnect_attempts b = 0 →
  Forall (refused shard_no) fails →
  (Z.of_nat (length fails) = max_reconnect_attempts b →
   refused shard_no env → ce_outcome env ≠ HandshakeFailed →
   ∃ b', pageserver_send shard_no (fails ++ env :: rest) put_ok b = Raise b' ∧
         failure_levels b' =
           ERROR :: replicate (length fails) LOG ++ failure_levels b ∧
         n_reconnect_attempts b' = max_reconnect_attempts b) ∧
  (Z.of_nat (length fails) ≤ max_reconnect_attempts b →
   accepted shard_no env →
   ∃ b', pageserver_send shard_no (fails ++ env :: rest) true b = Ret true b' ∧
         failure_levels b' = replicate (length fails) LOG ++ failure_levels b ∧
         n_reconnect_attempts b' = 0).
Proof.
  intros Hu Hn Hall. pose proof Hu as [w Hw]. split.
  - intros Hlen Henv Hnh.
    destruct (connect_loop_retries shard_no fails b (env :: rest) Hu Hall)
      as (b1 & Hloop & Hn1 & Hm1 & Hf1 & Hu1); [lia|].
    destruct (pageserver_connect_refused_error shard_no env b1 Hu1 Henv Hnh)
      as (b2 & Hc & Hn2 & Hf2).
    exists b2. split_and!.
    + unfold pageserver_send. rewrite Hw. simpl. rewrite Hw, Hloop. simpl.
      rewrite (proj2 (Z.ltb_ge _ _)) by lia. by rewrite Hc.
    + by rewrite Hf2, Hf1.
    + lia.
  - intros Hlen Henv.
    destruct (connect_loop_retries shard_no fails b (env :: rest) Hu Hall)
      as (b1 & Hloop & Hn1 & Hm1 & Hf1 & Hu1); [lia|].
    destruct (pageserver_connect_accepted shard_no
                (if n_reconnect_attempts b1 <? max_reconnect_attempts b1
                 then LOG else ERROR) env b1 Hu1 Henv)
      as (b2 & Hc & Hf2 & _).
    eexists. split_and!.
    + unfold pageserver_send. rewrite Hw. simpl. rewrite Hw, Hloop. simpl.
      rewrite Hc. done.
    + change (failure_levels b2 = replicate (length fails) LOG ++ failure_levels b).
      by rewrite Hf2, Hf1.
    + done.
Qed.

End reconnect.

(** C8, at the input that fails. With the default budget of 60, sixty
    connections are refused and reported at [LOG]; the sixty-first
    attempt fails in the handshake. It is reported at [ERROR] after
    [PQfinish] and [FreeWaitEventSet], inside [PG_TRY]; the handler
    finishes and frees the same connection and wait event set a second
    time. The call neither returns nor raises. *)
Theorem handshake_failure_at_budget :
  let shm := mkShmem 1 1 (mkShardMap ["host=ps1"%string] 1) in
  let b := backend_start (H := sample_header) 60 32768 in
  pageserver_send (H := sample_header) 0
    (attempts shm 0 800000000000000 0
       (replicate 60 ConnectionBad ++ [HandshakeFailed])) true b = Undef ∧
  statics failure_levels
    (pageserver_send (H := sample_header) 0
       (attempts shm 0 800000000000000 0 (replicate 61 ConnectionBad)) true b)
    = Some (ERROR :: replicate 60 LOG).
Proof. vm_compute. done. Qed.

(** C7, at the input that fails. Twelve attempts follow one another
    within the second. The first finds [last_connect_time] unset and
    starts [delay_us] at a millisecond; each of the next eleven sleeps
    [delay_us] and doubles it, and nothing caps the product: the twelfth
    sleeps 1.024 s and leaves [delay_us] at 2.048 s, over
    [MAX_RECONNECT_INTERVAL_USEC]. *)
Theorem delay_us_exceeds_max_interval :
  let shm := mkShmem 1 1 (mkShardMap ["host=ps1"%string] 1) in
  let b := backend_start (H := sample_header) 60 32768 in
  let r := pageserver_send (H := sample_header) 0
             (attempts shm 0 800000000000000 0
                (replicate 11 ConnectionBad ++ [HandshakeDone])) true b in
  statics (λ b, take 3 (sleeps b)) r = Some [1024000; 512000; 256000] ∧
  statics delay_us r = Some 2048000 ∧
  statics n_reconnect_attempts r = Some 0 ∧
  MAX_RECONNECT_INTERVAL_USEC = 1000000.
Proof. vm_compute. done. Qed.

(** The doubling wraps at the word size: sixty-two attempts within the
    interval leave [delay_us] at zero, under
    [MIN_RECONNECT_INTERVAL_USEC]. *)
Lemma delay_us_wraps_to_zero :
  let shm := mkShmem 1 1 (mkShardMap ["host=ps1"%string] 1) in
  let b := backend_start (H := sample_header) 100 32768 in
  let r := pageserver_send (H := sample_header) 0
             (attempts shm 0 800000000000000 0
                (replicate 61 ConnectionBad ++ [HandshakeDone])) true b in
  statics delay_us r = Some 0.
Proof. vm_compute. done. Qed.

End PSC_Theory.
(** * Further properties of the local file cache *)

Module LFC_Extra.
Import LFC LFC_Theory.

(** *** Chunk keys and page numbers *)

Lemma chunk_tag_aligned rn fork blkno :
  chunk_offs_of (blockNum (chunk_tag rn fork blkno)) = 0.
Proof.
  unfold chunk_offs_of, chunk_tag, BLOCKS_PER_CHUNK. simpl.
  rewrite <- Z.land_assoc.
  change (Z.land (Z.lnot (128 - 1)) (128 - 1)) with 0.
  apply Z.land_0_r.
Qed.

(** A block number is the first block of its chunk plus its place in
    the chunk. *)
Lemma chunk_block_split rn fork blkno :
  blockNum (chunk_tag rn fork blkno) + chunk_offs_of blkno = blkno.
Proof.
  unfold chunk_offs_of, chunk_tag, BLOCKS_PER_CHUNK. simpl.
  change (128 - 1) with (Z.ones 7).
  rewrite <- Z.ldiff_land, Z.ldiff_ones_r, Z.land_ones by lia.
  rewrite Z.shiftr_div_pow2, Z.shiftl_mul_pow2 by lia.
  pose proof (Z.div_mod blkno (2 ^ 7)). lia.
Qed.

Lemma chunk_block_range rn fork blkno :
  0 ≤ blkno < 2 ^ 32 → 0 ≤ blockNum (chunk_tag rn fork blkno) < 2 ^ 32.
Proof.
  intros Hb. pose proof (chunk_block_split rn fork blkno).
  pose proof (chunk_offs_range blkno).
  split; [|lia]. unfold chunk_tag. simpl. apply Z.land_nonneg. lia.
Qed.

(** Two pages with the same chunk and the same place in it are one. *)
Lemma same_chunk_same_offs rn fork blkno rn' fork' blkno' :
  chunk_tag rn fork blkno = chunk_tag rn' fork' blkno' →
  chunk_offs_of blkno = chunk_offs_of blkno' →
  (rn, fork, blkno) = (rn', fork', blkno').
Proof.
  intros Ht Ho.
  pose proof (chunk_block_split rn fork blkno) as H1.
  pose proof (chunk_block_split rn' fork' blkno') as H2.
  rewrite Ht, Ho in H1.
  injection Ht as -> -> _. f_equal. lia.
Qed.

(** A key that is the first block of a chunk is the chunk key of each
    of the chunk's pages. *)
Lemma chunk_tag_of_page k i :
  chunk_offs_of (blockNum k) = 0 → 0 ≤ i < BLOCKS_PER_CHUNK →
  chunk_tag (rnode k) (forkNum k) (blockNum k + i) = k ∧
  chunk_offs_of (blockNum k + i) = i.
Proof.
  unfold chunk_offs_of, chunk_tag, BLOCKS_PER_CHUNK.
  change (128 - 1) with (Z.ones 7). intros Hk Hi.
  rewrite Z.land_ones in Hk by lia.
  rewrite <- Z.ldiff_land, Z.ldiff_ones_r, Z.land_ones by lia.
  rewrite Z.shiftr_div_pow2, Z.shiftl_mul_pow2 by lia.
  change (2 ^ 7) with 128 in *.
  assert (Hq : (blockNum k + i) `div` 128 = blockNum k `div` 128).
  { pose proof (Z.div_mod (blockNum k) 128 ltac:(lia)) as Hdm.
    symmetry. apply (Z.div_unique _ _ _ i); lia. }
  assert (Hm : (blockNum k + i) `mod` 128 = i).
  { pose proof (Z.div_mod (blockNum k) 128 ltac:(lia)) as Hdm.
    symmetry. apply (Z.mod_unique _ _ (blockNum k `div` 128)); lia. }
  split; [|done]. rewrite Hq. destruct k as [r f b]. simpl in *.
  f_equal. pose proof (Z.div_mod b 128 ltac:(lia)). lia.
Qed.

(** *** What the critical sections do to the index *)

Lemma index_kept_same blk st st' :
  lfc_hash st' = lfc_hash st → ctl_size (lfc_ctl st') = ctl_size (lfc_ctl st) →
  index_step blk st st'.
Proof.
  intros Hh Hs. apply index_kept; [done|]. intros k. rewrite Hh.
  by destruct (lfc_hash st !! k).
Qed.

Lemma index_kept_update blk tag e e' st st' :
  lfc_hash st !! tag = Some e →
  lfc_hash st' = <[tag := e']> (lfc_hash st) →
  ctl_size (lfc_ctl st') = ctl_size (lfc_ctl st) →
  offset e' = offset e → length (bitmap e') = length (bitmap e) →
  index_step blk st st'.
Proof.
  intros Ht Hh Hs Ho Hb. apply index_kept; [done|]. intros k. rewrite Hh.
  destruct (decide (k = tag)) as [->|Hne].
  - by rewrite lookup_insert_eq, Ht.
  - rewrite lookup_insert_ne by done. by destruct (lfc_hash st !! k).
Qed.

(** A step reads and writes the hash and [size] alone. *)
Lemma index_step_proper blk s1 s2 s1' s2' :
  lfc_hash s1' = lfc_hash s1 → ctl_size (lfc_ctl s1') = ctl_size (lfc_ctl s1) →
  lfc_hash s2' = lfc_hash s2 → ctl_size (lfc_ctl s2') = ctl_size (lfc_ctl s2) →
  index_step blk s1 s2 → index_step blk s1' s2'.
Proof.
  intros Hh1 Hs1 Hh2 Hs2
    [Hs Hk|Hs Hk|rn fork blkno victim v Hb Hs Hnew Hv Hz Hh|rn fork blkno Hb Hs Hnew Hh].
  - apply index_kept; [congruence|]. by rewrite Hh1, Hh2.
  - apply index_dropped; [congruence|]. by rewrite Hh1, Hh2.
  - eapply (index_replaced _ _ _ rn fork blkno victim v); congruence.
  - eapply (index_grown _ _ _ rn fork blkno); congruence.
Qed.

Lemma pin_index_step blk tag e st :
  lfc_hash st !! tag = Some e → index_step blk st (pin_state tag e st).
Proof. intros Ht. by eapply (index_kept_update _ tag e). Qed.

Lemma unpin_index_step blk tag e st :
  lfc_hash st !! tag = Some e → index_step blk st (unpin_state tag e st).
Proof. intros Ht. by eapply (index_kept_update _ tag e). Qed.

Lemma length_bitmap_set bm co : length (bitmap_set bm co) = length bm.
Proof. unfold bitmap_set. by rewrite length_insert. Qed.

Lemma length_bitmap_clear bm co : length (bitmap_clear bm co) = length bm.
Proof. unfold bitmap_clear. by rewrite length_insert. Qed.

Lemma shrink_loop_dropped new_size l : ∀ h used punched l' h' used' punched',
  shrink_loop new_size l h used punched = Done (l', h', used', punched') →
  ∀ k, h' !! k = h !! k ∨
       (h' !! k = None ∧ ∃ e, h !! k = Some e ∧ access_count e = 0).
Proof.
  induction l as [|v l IH]; intros h used punched l' h' used' punched'; simpl.
  { intros [= <- <- <- <-] k. by left. }
  destruct (new_size <? used); [|intros [= <- <- <- <-] k; by left].
  destruct (h !! v) as [ve|] eqn:Hv; [|done].
  intros H. apply bind_Done in H as ([] & Ha & H).
  apply Assert_Done, Z.eqb_eq in Ha.
  intros k. destruct (IH _ _ _ _ _ _ _ H k) as [Heq|[Hn (e & He & Hz)]].
  - destruct (decide (k = v)) as [->|Hne].
    + right. rewrite Heq, lookup_delete_eq. eauto.
    + left. by rewrite Heq, lookup_delete_ne.
  - right. split; [done|]. exists e. split; [|done].
    by apply lookup_delete_Some in He as [_ ?].
Qed.

Lemma lfc_change_limit_hook_index_step blk attached newval st st' :
  lfc_change_limit_hook attached newval st = Done st' →
  index_step blk st st' ∧ lfc_size_limit st' = lfc_size_limit st.
Proof.
  unfold lfc_change_limit_hook. destruct attached; simpl.
  - intros H. apply bind_Done in H as ([[[l h] u] p] & Hs & [= <-]).
    split; [|done]. apply index_dropped; [done|]. simpl.
    by eapply shrink_loop_dropped.
  - intros [= <-]. split; [|done]. by apply index_kept_same.
Qed.

Lemma lfc_write_begin_index_step n rn fork blkno st r st' :
  lfc_inv st → below n st → n + 1 < 2 ^ 32 →
  lfc_write_begin rn fork blkno st = Done (r, st') →
  index_step (Some blkno) st st'.
Proof.
  intros Hinv Hb Hn. unfold lfc_write_begin.
  destruct (lfc_size_limit st =? 0); [intros [= <- <-]; by apply index_kept_same|].
  destruct (lfc_hash st !! chunk_tag rn fork blkno) as [e|] eqn:Ht.
  { intros H. apply bind_Done in H as (s & Hp & [= <- <-]).
    apply lfc_pin_Done in Hp as [-> _]. by apply pin_index_step. }
  destruct (_ && _).
  - destruct (ctl_lru (lfc_ctl st)) as [|v rest]; [done|].
    destruct (lfc_hash st !! v) as [ve|] eqn:Hv; [|done].
    intros H. apply bind_Done in H as ([] & Ha & [= <- <-]).
    apply Assert_Done, Z.eqb_eq in Ha.
    by eapply (index_replaced _ _ _ rn fork blkno v ve).
  - intros [= <- <-].
    apply (index_grown _ _ _ rn fork blkno); [done| |done|done].
    simpl. destruct Hinv as [_ _ Hu Hus _]. destruct Hb as [Hbs _].
    apply uint32_small. lia.
Qed.

Lemma lfc_write_end_index_step blk rn fork blkno st st' :
  lfc_write_end rn fork blkno st = Done st' → index_step blk st st'.
Proof.
  unfold lfc_write_end. intros H. apply bind_Done in H as (s & Hu & H).
  apply lfc_unpin_Done in Hu as (e & Ht & _ & -> & _).
  revert H. destruct (negb _).
  - simpl. rewrite lookup_insert_eq. intros [= <-].
    eapply (index_kept_update _ _ e);
      [done|simpl; by rewrite insert_insert_eq|done|done|].
    simpl. apply length_bitmap_set.
  - intros [= <-]. by apply unpin_index_step.
Qed.

Lemma lfc_evict_index_step blk ind rn fork blkno st st' :
  lfc_evict ind rn fork blkno st = Done st' → index_step blk st st'.
Proof.
  unfold lfc_evict.
  destruct (lfc_size_limit st =? 0); [intros [= <-]; by apply index_kept_same|].
  destruct (lfc_hash st !! chunk_tag rn fork blkno) as [e|] eqn:Ht;
    [|intros [= <-]; by apply index_kept_same].
  assert (Hup : ∀ s, lfc_hash s = <[chunk_tag rn fork blkno :=
                        set_bitmap (bitmap_clear (bitmap e) (chunk_offs_of blkno)) e]>
                        (lfc_hash st) →
                     ctl_size (lfc_ctl s) = ctl_size (lfc_ctl st) →
                     index_step blk st s).
  { intros s Hh Hs. eapply (index_kept_update _ _ e); [done|done|done|done|].
    simpl. apply length_bitmap_clear. }
  destruct (bitmap_word _ _ =? 0); [|intros [= <-]; by apply Hup].
  destruct (negb _); [|intros [= <-]; by apply Hup].
  intros H. apply bind_Done in H as (l & _ & H).
  apply bind_Done in H as (l' & _ & [= <-]). by apply Hup.
Qed.

(** Every critical section is one step on the index. *)
Lemma exec_index_step n o st st' :
  lfc_inv st → below n st → n + 1 < 2 ^ 32 →
  critical_section o = true → exec o st = Done st' →
  index_step (op_block o) st st'.
Proof.
  intros Hinv Hb Hn Hcs. destruct o; try discriminate; simpl.
  - intros [= <-]. by apply index_kept_same.
  - apply lfc_evict_index_step.
  - intros H. by apply (lfc_change_limit_hook_index_step None) in H as [? _].
  - intros H. apply exec_AssignSizeLimit in H as [[_ ->]|(_ & s & Hh & ->)];
      [by apply index_kept_same|].
    apply (lfc_change_limit_hook_index_step None) in Hh as [Hs _].
    by eapply index_step_proper; [..|apply Hs].
  - intros H. apply bind_Done in H as ([r s] & Hr & [= <-]). revert Hr.
    unfold lfc_read_begin.
    destruct (lfc_size_limit st =? 0); [intros [= <- <-]; by apply index_kept_same|].
    destruct (lfc_hash st !! _) as [e|] eqn:Ht;
      [|intros [= <- <-]; by apply index_kept_same].
    destruct (negb _); [intros [= <- <-]; by apply index_kept_same|].
    intros H. apply bind_Done in H as (s1 & Hp & [= <- <-]).
    apply lfc_pin_Done in Hp as [-> _]. by apply pin_index_step.
  - intros H. apply lfc_unpin_Done in H as (e & Ht & _ & -> & _).
    by apply unpin_index_step.
  - intros H. apply bind_Done in H as ([r s] & Hr & [= <-]).
    by eapply lfc_write_begin_index_step.
  - destruct (lfc_hash st !! _); [|done]. intros [= <-].
    by apply index_kept_same.
  - apply lfc_write_end_index_step.
Qed.

(** A whole call is a chain of such steps. *)
Lemma exec_index_steps n o st st' :
  lfc_inv st → below n st → n + 2 < 2 ^ 32 →
  exec o st = Done st' → rtc (index_step (op_block o)) st st'.
Proof.
  intros Hinv Hb Hn Hex.
  destruct (critical_section o) eqn:Hcs.
  { apply rtc_once. by apply (exec_index_step n); [| |lia| |]. }
  destruct o; try discriminate; simpl in *.
  - apply bind_Done in Hex as ([r s] & Hr & [= <-]). unfold lfc_read in Hr.
    apply bind_Done in Hr as ([r1 s1] & Hbeg & Hr).
    assert (Hstep : index_step (Some blkno) st s1).
    { apply (exec_index_step n (ReadBegin rn fork blkno)); [done|done|lia|done|].
      simpl. by rewrite Hbeg. }
    destruct r1 as [chunk|]; [|injection Hr as <- <-; by apply rtc_once].
    apply bind_Done in Hr as (s2 & Hend & [= <- <-]).
    eapply rtc_l; [done|]. apply rtc_once.
    apply lfc_unpin_Done in Hend as (e & Ht & _ & -> & _).
    by apply unpin_index_step.
  - unfold lfc_write in Hex.
    apply bind_Done in Hex as ([r1 s1] & Hbeg & Hw).
    assert (Hstep : index_step (Some blkno) st s1)
      by (eapply lfc_write_begin_index_step; [done|done| |done]; lia).
    destruct r1 as [chunk|]; [|injection Hw as <-; by apply rtc_once].
    eapply rtc_l; [done|]. apply rtc_once.
    apply (lfc_write_end_index_step (Some blkno)) in Hw.
    by eapply index_step_proper; [..|apply Hw].
Qed.

(** *** Invariants of the index along the steps *)

Lemma index_step_shape blk st st' :
  index_step blk st st' → lfc_shape st → lfc_shape st'.
Proof.
  intros Hstep [Hal Hbm Hsz Hsl Hdi].
  destruct Hstep as [Hs Hk|Hs Hk|rn fork blkno victim v _ Hs Hnew Hv Hz Hh
                    |rn fork blkno _ Hs Hnew Hh].
  - assert (Hfrom : ∀ k e', lfc_hash st' !! k = Some e' →
              ∃ e, lfc_hash st !! k = Some e ∧ offset e' = offset e ∧
                   length (bitmap e') = length (bitmap e)).
    { intros k e' He'. specialize (Hk k). rewrite He' in Hk.
      destruct (lfc_hash st !! k) as [e|]; [eauto|done]. }
    split; rewrite ?Hs.
    + intros k e' (e & He & _)%Hfrom. eauto.
    + intros k e' (e & He & _ & ->)%Hfrom. eauto.
    + done.
    + intros k e' (e & He & -> & _)%Hfrom. eauto.
    + intros k1 k2 e1 e2 (e1' & He1 & -> & _)%Hfrom (e2' & He2 & -> & _)%Hfrom.
      eauto.
  - assert (Hfrom : ∀ k e', lfc_hash st' !! k = Some e' →
              lfc_hash st !! k = Some e').
    { intros k e' He'. destruct (Hk k) as [Heq|[Hn _]]; congruence. }
    split; rewrite ?Hs; eauto.
  - assert (Hfrom : ∀ k e', lfc_hash st' !! k = Some e' →
              (k = chunk_tag rn fork blkno ∧ e' = mkEntry (offset v) 1 bitmap_zero) ∨
              (k ≠ chunk_tag rn fork blkno ∧ k ≠ victim ∧ lfc_hash st !! k = Some e')).
    { intros k e'. rewrite Hh. destruct (decide (k = chunk_tag rn fork blkno)) as [->|Hne].
      - rewrite lookup_insert_eq. intros [= <-]. by left.
      - rewrite lookup_insert_ne by done.
        intros [? ?]%lookup_delete_Some. by right. }
    split; rewrite ?Hs.
    + intros k e' [[-> _]|(_ & _ & He)]%Hfrom; [apply chunk_tag_aligned|eauto].
    + intros k e' [[_ ->]|(_ & _ & He)]%Hfrom; [apply length_bitmap_zero|eauto].
    + done.
    + intros k e' [[_ ->]|(_ & _ & He)]%Hfrom; simpl; eauto.
    + intros k1 k2 e1 e2 [[-> ->]|(? & ? & He1)]%Hfrom
                         [[-> ->]|(? & ? & He2)]%Hfrom; simpl; intros Ho.
      * done.
      * exfalso. assert (k2 = victim) by eauto. done.
      * exfalso. assert (k1 = victim) by eauto. done.
      * eauto.
  - assert (Hfrom : ∀ k e', lfc_hash st' !! k = Some e' →
              (k = chunk_tag rn fork blkno ∧
               e' = mkEntry (ctl_size (lfc_ctl st)) 1 bitmap_zero) ∨
              (k ≠ chunk_tag rn fork blkno ∧ lfc_hash st !! k = Some e')).
    { intros k e'. rewrite Hh. destruct (decide (k = chunk_tag rn fork blkno)) as [->|Hne].
      - rewrite lookup_insert_eq. intros [= <-]. by left.
      - rewrite lookup_insert_ne by done. by right. }
    split; rewrite ?Hs.
    + intros k e' [[-> _]|[_ He]]%Hfrom; [apply chunk_tag_aligned|eauto].
    + intros k e' [[_ ->]|[_ He]]%Hfrom; [apply length_bitmap_zero|eauto].
    + lia.
    + intros k e' [[_ ->]|[_ He]]%Hfrom; simpl; [lia|].
      specialize (Hsl _ _ He). lia.
    + intros k1 k2 e1 e2 [[-> ->]|[? He1]]%Hfrom
                         [[-> ->]|[? He2]]%Hfrom; simpl; intros Ho.
      * done.
      * specialize (Hsl _ _ He2). lia.
      * specialize (Hsl _ _ He1). lia.
      * eauto.
Qed.

Lemma index_step_keys_typed blk st st' :
  index_step blk st st' → (∀ b, blk = Some b → 0 ≤ b < 2 ^ 32) →
  keys_typed st → keys_typed st'.
Proof.
  intros Hstep Hblk Hty k e'.
  destruct Hstep as [Hs Hk|Hs Hk|rn fork blkno victim v Hb Hs Hnew Hv Hz Hh
                    |rn fork blkno Hb Hs Hnew Hh].
  - intros He'. specialize (Hk k). rewrite He' in Hk.
    destruct (lfc_hash st !! k) as [e|] eqn:He; [by eapply Hty|done].
  - intros He'. destruct (Hk k) as [Heq|[Hn _]]; [|congruence].
    rewrite Heq in He'. by eapply Hty.
  - rewrite Hh. destruct (decide (k = chunk_tag rn fork blkno)) as [->|Hne].
    + intros _. apply chunk_block_range. by apply Hblk.
    + rewrite lookup_insert_ne by done. intros [? ?]%lookup_delete_Some.
      by eapply Hty.
  - rewrite Hh. destruct (decide (k = chunk_tag rn fork blkno)) as [->|Hne].
    + intros _. apply chunk_block_range. by apply Hblk.
    + rewrite lookup_insert_ne by done. by apply Hty.
Qed.

Lemma index_step_pinned blk st st' k e :
  index_step blk st st' →
  lfc_hash st !! k = Some e → access_count e ≠ 0 →
  ∃ e', lfc_hash st' !! k = Some e' ∧ offset e' = offset e.
Proof.
  intros Hstep He Hp.
  destruct Hstep as [Hs Hk|Hs Hk|rn fork blkno victim v Hb Hs Hnew Hv Hz Hh
                    |rn fork blkno Hb Hs Hnew Hh].
  - specialize (Hk k). rewrite He in Hk.
    destruct (lfc_hash st' !! k) as [e'|]; [|done]. exists e'. tauto.
  - destruct (Hk k) as [Heq|[_ (e0 & He0 & Hz)]].
    + exists e. by rewrite Heq.
    + congruence.
  - exists e. split; [|done]. rewrite Hh.
    rewrite lookup_insert_ne by congruence.
    rewrite lookup_delete_ne by congruence. done.
  - exists e. split; [|done]. rewrite Hh. by rewrite lookup_insert_ne by congruence.
Qed.

Lemma lfc_shmem_startup_shape max_size size_limit :
  lfc_shape (lfc_shmem_startup max_size size_limit) ∧
  keys_typed (lfc_shmem_startup max_size size_limit).
Proof.
  split; [split|]; simpl; try done; intros *; by rewrite lookup_empty.
Qed.

Lemma exec_shape n o st st' :
  lfc_inv st → below n st → n + 2 < 2 ^ 32 →
  exec o st = Done st' → lfc_shape st → lfc_shape st'.
Proof.
  intros Hinv Hb Hn Hex.
  pose proof (exec_index_steps n o st st' Hinv Hb Hn Hex) as Hsteps.
  clear Hinv Hb Hn Hex.
  induction Hsteps as [|s1 s2 s3 Hstep _ IH]; [done|].
  intros Hs. apply IH. by eapply index_step_shape.
Qed.

Lemma exec_keys_typed n o st st' :
  lfc_inv st → below n st → n + 2 < 2 ^ 32 → well_typed o →
  exec o st = Done st' → keys_typed st → keys_typed st'.
Proof.
  intros Hinv Hb Hn Hty Hex.
  pose proof (exec_index_steps n o st st' Hinv Hb Hn Hex) as Hsteps.
  assert (Hblk : ∀ b, op_block o = Some b → 0 ≤ b < 2 ^ 32).
  { intros b. destruct o; simpl in *; intros [= <-]; done. }
  clear Hinv Hb Hn Hex Hty.
  induction Hsteps as [|s1 s2 s3 Hstep _ IH]; [done|].
  intros Hs. apply IH. by eapply index_step_keys_typed.
Qed.

Lemma run_shape ops : ∀ n st st',
  lfc_inv st → below n st → n + Z.of_nat (length ops) + 1 < 2 ^ 32 →
  run ops st = Done st' → lfc_shape st → lfc_shape st'.
Proof.
  induction ops as [|o ops IH]; intros n st st' Hinv Hb Hn.
  - by intros [= <-].
  - change (length (o :: ops)) with (S (length ops)) in Hn.
    rewrite Nat2Z.inj_succ in Hn.
    intros H Hs. apply bind_Done in H as (st1 & Hex & H).
    pose proof (exec_shape n o st st1 Hinv Hb ltac:(lia) Hex Hs) as Hs1.
    apply (exec_inv n) in Hex as [Hinv1 Hb1]; [|done|done|lia].
    apply (IH (n + 1) st1); [done|done|lia|done|done].
Qed.

Lemma run_keys_typed ops : ∀ n st st',
  lfc_inv st → below n st → n + Z.of_nat (length ops) + 1 < 2 ^ 32 →
  Forall well_typed ops →
  run ops st = Done st' → keys_typed st → keys_typed st'.
Proof.
  induction ops as [|o ops IH]; intros n st st' Hinv Hb Hn Hall.
  - by intros [= <-].
  - change (length (o :: ops)) with (S (length ops)) in Hn.
    rewrite Nat2Z.inj_succ in Hn. apply Forall_cons in Hall as [Ho Hall].
    intros H Hs. apply bind_Done in H as (st1 & Hex & H).
    pose proof (exec_keys_typed n o st st1 Hinv Hb ltac:(lia) Ho Hex Hs) as Hs1.
    apply (exec_inv n) in Hex as [Hinv1 Hb1]; [|done|done|lia].
    apply (IH (n + 1) st1); [done|done|lia|done|done|done].
Qed.

(** *** The states a schedule reaches *)

Lemma reachable_inv st :
  reachable st →
  ∃ n, lfc_inv st ∧ below n st ∧ n + 4 < 2 ^ 32 ∧ lfc_shape st ∧ keys_typed st.
Proof.
  intros (max_size & size_limit & ops & Hlen & Hty & Hrun).
  destruct (lfc_shmem_startup_inv max_size size_limit) as [Hinv0 Hb0].
  destruct (lfc_shmem_startup_shape max_size size_limit) as [Hs0 Hk0].
  destruct (run_inv ops 0 _ st Hinv0 Hb0) as [Hinv Hb]; [lia|done|].
  exists (0 + Z.of_nat (length ops)). split_and!; [done|done|lia| |].
  - by apply (run_shape ops 0 _ st Hinv0 Hb0); [lia| |].
  - by apply (run_keys_typed ops 0 _ st Hinv0 Hb0); [lia| | |].
Qed.

Lemma reachable_startup max_size size_limit :
  reachable (lfc_shmem_startup max_size size_limit).
Proof. exists max_size, size_limit, []. split_and!; [simpl; lia|constructor|done]. Qed.

Lemma two_chunk_state_reachable : reachable two_chunk_state.
Proof.
  exists 4, 2, two_chunk_schedule. split_and!.
  - simpl. lia.
  - repeat constructor; simpl; lia.
  - vm_compute. reflexivity.
Qed.

Lemma two_chunk_state_quiescent : quiescent two_chunk_state.
Proof.
  intros k e. unfold two_chunk_state. simpl.
  destruct (decide (k = chunk0 2)) as [->|Hne].
  - rewrite lookup_insert_eq. by intros [= <-].
  - rewrite lookup_insert_ne by done.
    intros [_ <-]%lookup_singleton_Some. done.
Qed.

(** *** Slots *)

Lemma page_addr_disjoint c1 o1 c2 o2 a :
  0 ≤ o1 < BLOCKS_PER_CHUNK → 0 ≤ o2 < BLOCKS_PER_CHUNK →
  (c1, o1) ≠ (c2, o2) →
  page_bytes c1 o1 a → page_bytes c2 o2 a → False.
Proof.
  unfold page_bytes, page_addr, BLOCKS_PER_CHUNK, BLCKSZ. intros H1 H2 Hne Ha1 Ha2.
  assert (c1 * 128 + o1 = c2 * 128 + o2) as Heq by nia.
  apply Hne. f_equal; nia.
Qed.

(** X1. In every state reached by a schedule of critical sections on
    which the list contract holds at every call, so that the model is
    defined (a schedule in which [lfc_evict] empties the bitmap of a
    pinned chunk is not one), the slot of every entry of the index was
    allocated: it lies below [size]. Two entries of the index never hold
    the same slot, and no byte of the slab belongs to pages of two
    chunks. *)
Theorem slots_never_shared st :
  reachable st →
  (∀ k e, lfc_hash st !! k = Some e → 0 ≤ offset e < size_of st) ∧
  (∀ k1 k2 e1 e2,
     lfc_hash st !! k1 = Some e1 → lfc_hash st !! k2 = Some e2 → k1 ≠ k2 →
     offset e1 ≠ offset e2 ∧
     ∀ i j a, 0 ≤ i < BLOCKS_PER_CHUNK → 0 ≤ j < BLOCKS_PER_CHUNK →
              page_bytes (offset e1) i a → page_bytes (offset e2) j a → False).
Proof.
  intros (n & _ & _ & _ & [_ _ _ Hsl Hdi] & _)%reachable_inv.
  split; [exact Hsl|].
  intros k1 k2 e1 e2 H1 H2 Hne.
  assert (offset e1 ≠ offset e2) by (intros Ho; apply Hne; eauto).
  split; [done|].
  intros i j a Hi Hj. apply page_addr_disjoint; [done|done|congruence].
Qed.

Lemma slots_never_shared_witness :
  (∀ k e, lfc_hash two_chunk_state !! k = Some e →
          0 ≤ offset e < size_of two_chunk_state) ∧
  (∀ k1 k2 e1 e2,
     lfc_hash two_chunk_state !! k1 = Some e1 →
     lfc_hash two_chunk_state !! k2 = Some e2 → k1 ≠ k2 →
     offset e1 ≠ offset e2 ∧
     ∀ i j a, 0 ≤ i < BLOCKS_PER_CHUNK → 0 ≤ j < BLOCKS_PER_CHUNK →
              page_bytes (offset e1) i a → page_bytes (offset e2) j a → False).
Proof. exact (slots_never_shared two_chunk_state two_chunk_state_reachable). Defined.

(** *** Bits of a chunk's bitmap *)

Lemma land_pow2_eqb w b :
  0 ≤ b → (Z.land w (2 ^ b) =? 0) = negb (Z.testbit w b).
Proof.
  intros Hb. destruct (Z.testbit w b) eqn:E; simpl.
  - apply Z.eqb_neq. intros Hz.
    assert (Ht : Z.testbit (Z.land w (2 ^ b)) b = true)
      by (by rewrite Z.land_spec, E, Z.pow2_bits_true).
    rewrite Hz, Z.bits_0 in Ht. discriminate.
  - apply Z.eqb_eq, Z.bits_inj'. intros n Hn.
    rewrite Z.land_spec, Z.bits_0, Z.pow2_bits_eqb by done.
    destruct (b =? n) eqn:En; [|apply andb_false_r].
    apply Z.eqb_eq in En as <-. by rewrite E.
Qed.

Lemma bitmap_test_testbit bm co :
  bitmap_test bm co = Z.testbit (bitmap_word bm co) (Z.land co 31).
Proof.
  unfold bitmap_test. destruct (bit_mask_spec co) as [-> Hb].
  by rewrite land_pow2_eqb, negb_involutive.
Qed.

(** A place in the chunk is a word of the bitmap and a bit of the word. *)
Lemma chunk_offs_split co co' :
  0 ≤ co → 0 ≤ co' →
  Z.shiftr co 5 = Z.shiftr co' 5 → Z.land co 31 = Z.land co' 31 → co = co'.
Proof.
  intros Hco Hco'. rewrite !Z.shiftr_div_pow2 by lia.
  change 31 with (Z.ones 5). rewrite !Z.land_ones by lia.
  pose proof (Z.div_mod co (2 ^ 5)). pose proof (Z.div_mod co' (2 ^ 5)). lia.
Qed.

Lemma bit_index_range co : 0 ≤ Z.land co 31 < 32.
Proof.
  change 31 with (Z.ones 5). rewrite Z.land_ones by lia.
  apply Z.mod_pos_bound. lia.
Qed.

Lemma word_index_inj co co' :
  0 ≤ co → 0 ≤ co' →
  Z.to_nat (Z.shiftr co 5) = Z.to_nat (Z.shiftr co' 5) →
  Z.shiftr co 5 = Z.shiftr co' 5.
Proof.
  intros Hco Hco' Heq.
  assert (0 ≤ Z.shiftr co 5) by (by apply Z.shiftr_nonneg).
  assert (0 ≤ Z.shiftr co' 5) by (by apply Z.shiftr_nonneg).
  lia.
Qed.

(** Setting the bit of one page sets no other. *)
Lemma bitmap_test_set_other (bm : list Z) co co' :
  0 ≤ co < BLOCKS_PER_CHUNK → 0 ≤ co' < BLOCKS_PER_CHUNK → co ≠ co' →
  bitmap_test (bitmap_set bm co) co' = bitmap_test bm co'.
Proof.
  intros Hco Hco' Hne. rewrite !bitmap_test_testbit.
  unfold bitmap_set, bitmap_word at 1.
  destruct (decide (Z.to_nat (Z.shiftr co 5) = Z.to_nat (Z.shiftr co' 5))) as [Heq|Hw].
  - destruct (decide (Z.to_nat (Z.shiftr co 5) < length bm)%nat) as [Hlt|Hge].
    + rewrite <- Heq, list_lookup_total_insert_eq by done.
      destruct (bit_mask_spec co) as [-> Hb].
      rewrite Z.lor_spec, Z.pow2_bits_eqb by done.
      replace (Z.land co 31 =? Z.land co' 31) with false.
      * rewrite orb_false_r. unfold bitmap_word. by rewrite Heq.
      * symmetry. apply Z.eqb_neq. intros Hbits. apply Hne.
        apply chunk_offs_split; [lia|lia| |done].
        apply word_index_inj; [lia|lia|done].
    + by rewrite list_insert_ge by lia.
  - by rewrite list_lookup_total_insert_ne by done.
Qed.

(** Clearing the bit of a page clears it, and no other. *)
Lemma uint32_lnot_bit b n :
  0 ≤ b → 0 ≤ n < 32 →
  Z.testbit (uint32 (Z.lnot (2 ^ b))) n = negb (b =? n).
Proof.
  intros Hb Hn. unfold uint32.
  rewrite Z.mod_pow2_bits_low, Z.lnot_spec, Z.pow2_bits_eqb by lia. done.
Qed.

Lemma bitmap_test_clear (bm : list Z) co :
  0 ≤ co < BLOCKS_PER_CHUNK →
  length bm = Z.to_nat (BLOCKS_PER_CHUNK / 32) →
  bitmap_test (bitmap_clear bm co) co = false.
Proof.
  intros Hco Hlen. rewrite bitmap_test_testbit.
  unfold bitmap_clear, bitmap_word at 1.
  rewrite list_lookup_total_insert_eq
    by (rewrite Hlen; by apply bitmap_index_range).
  destruct (bit_mask_spec co) as [-> Hb].
  rewrite Z.land_spec, uint32_lnot_bit by (done || apply bit_index_range).
  rewrite Z.eqb_refl. apply andb_false_r.
Qed.

Lemma bitmap_test_clear_other (bm : list Z) co co' :
  0 ≤ co < BLOCKS_PER_CHUNK → 0 ≤ co' < BLOCKS_PER_CHUNK → co ≠ co' →
  bitmap_test (bitmap_clear bm co) co' = bitmap_test bm co'.
Proof.
  intros Hco Hco' Hne. rewrite !bitmap_test_testbit.
  unfold bitmap_clear, bitmap_word at 1.
  destruct (decide (Z.to_nat (Z.shiftr co 5) = Z.to_nat (Z.shiftr co' 5))) as [Heq|Hw].
  - destruct (decide (Z.to_nat (Z.shiftr co 5) < length bm)%nat) as [Hlt|Hge].
    + rewrite <- Heq, list_lookup_total_insert_eq by done.
      destruct (bit_mask_spec co) as [-> Hb].
      rewrite Z.land_spec, uint32_lnot_bit by (done || apply bit_index_range).
      replace (Z.land co 31 =? Z.land co' 31) with false.
      * rewrite andb_true_r. unfold bitmap_word. by rewrite Heq.
      * symmetry. apply Z.eqb_neq. intros Hbits. apply Hne.
        apply chunk_offs_split; [lia|lia| |done].
        apply word_index_inj; [lia|lia|done].
    + by rewrite list_insert_ge by lia.
  - by rewrite list_lookup_total_insert_ne by done.
Qed.

Lemma bitmap_test_zero co :
  0 ≤ co < BLOCKS_PER_CHUNK → bitmap_test bitmap_zero co = false.
Proof.
  intros Hco. rewrite bitmap_test_testbit. unfold bitmap_word, bitmap_zero.
  rewrite list_lookup_total_alt, lookup_replicate_2
    by (by apply bitmap_index_range).
  simpl. apply Z.bits_0.
Qed.

(** *** The slab *)

Lemma memcpy_other mem addr addr' (buffer : list Byte.byte) :
  (∀ a, addr ≤ a < addr + BLCKSZ → addr' ≤ a < addr' + BLCKSZ → False) →
  memcpy_from_slab (memcpy_to_slab mem addr buffer) addr' =
  memcpy_from_slab mem addr'.
Proof.
  intros Hdis. unfold memcpy_from_slab. apply list_fmap_ext.
  intros i a Ha. apply lookup_seqZ in Ha as [-> Hi].
  unfold memcpy_to_slab. rewrite decide_False; [done|].
  intros Hin. apply (Hdis (addr' + Z.of_nat i)); [done|lia].
Qed.

(** *** What a whole read and a whole write leave *)

Lemma set_access_count_id e c : access_count e = c → set_access_count c e = e.
Proof. intros <-. by destruct e. Qed.

(** A read hands back the cached page, and changes nothing but the
    place of the chunk in the list. *)
Lemma lfc_read_spec n rn fork blkno st :
  lfc_inv st → below n st → n + 1 < 2 ^ 32 →
  ∃ st',
    lfc_read rn fork blkno st = Done (cached_page rn fork blkno st, st') ∧
    lfc_hash st' = lfc_hash st ∧ lfc_mem st' = lfc_mem st ∧
    size_of st' = size_of st ∧ used_of st' = used_of st ∧
    lfc_size_limit st' = lfc_size_limit st ∧
    lfc_max_size st' = lfc_max_size st ∧
    lru_of st' =
      match lfc_hash st !! chunk_tag rn fork blkno with
      | Some e =>
          if is_Some_dec (cached_page rn fork blkno st) then
            if access_count e =? 0
            then unlink (chunk_tag rn fork blkno) (lru_of st) ++ [chunk_tag rn fork blkno]
            else lru_of st
          else lru_of st
      | None => lru_of st
      end.
Proof.
  intros Hinv Hb Hn. unfold lfc_read, lfc_read_begin, lfc_read_end, cached_page.
  destruct (lfc_size_limit st =? 0) eqn:Hlim.
  { exists st. split_and!; try done. by destruct (lfc_hash st !! _). }
  destruct (lfc_hash st !! chunk_tag rn fork blkno) as [e|] eqn:Ht;
    [|by exists st].
  destruct (bitmap_test (bitmap e) (chunk_offs_of blkno)) eqn:Hbit; simpl;
    [|by exists st].
  rewrite (lfc_pin_defined _ e) by (done || apply Hinv). simpl.
  destruct (pin_state_inv n _ e st Hinv Hb Hn Ht) as [[_ Hl1 _ _ _] _].
  pose proof (inv_count _ Hinv _ _ Ht) as Hc. pose proof (proj2 Hb _ _ Ht) as Hbn.
  assert (Hw : uint32 (access_count e + 1) = access_count e + 1)
    by (apply uint32_small; lia).
  erewrite lfc_unpin_defined; [|done|apply lookup_insert_eq|simpl; lia].
  simpl. eexists. split; [done|]. simpl.
  rewrite Hw. replace (access_count e + 1 - 1) with (access_count e) by lia.
  rewrite (uint32_small (access_count e)) by lia.
  split_and!; try done.
  - rewrite insert_insert_eq. apply insert_id.
    rewrite Ht. f_equal. destruct e; done.
  - unfold lru_of, unpin_state, pin_state. simpl.
    replace (access_count e + 1 - 1) with (access_count e) by lia.
    rewrite (uint32_small (access_count e)) by lia.
    by destruct (access_count e =? 0).
Qed.

(** A write leaves the page in the slab and its bit set. It keeps an
    entry that is there, or takes the slot of the list head, or a new
    slot. *)
Lemma lfc_write_spec n rn fork blkno buffer st :
  lfc_inv st → below n st → n + 1 < 2 ^ 32 → lfc_size_limit st ≠ 0 →
  let tag := chunk_tag rn fork blkno in
  let offs := chunk_offs_of blkno in
  ∃ st' e',
    lfc_write rn fork blkno buffer st = Done st' ∧
    lfc_hash st' !! tag = Some e' ∧
    lfc_mem st' = memcpy_to_slab (lfc_mem st) (page_addr (offset e') offs) buffer ∧
    lfc_size_limit st' = lfc_size_limit st ∧
    lfc_max_size st' = lfc_max_size st ∧
    ((∃ e, lfc_hash st !! tag = Some e ∧
           e' = set_bitmap (bitmap_set (bitmap e) offs) e ∧
           lfc_hash st' = <[tag := e']> (lfc_hash st) ∧
           size_of st' = size_of st ∧ used_of st' = used_of st ∧
           lru_of st' = if access_count e =? 0
                        then unlink tag (lru_of st) ++ [tag] else lru_of st) ∨
     (lfc_hash st !! tag = None ∧
      ∃ v ve rest,
        lru_of st = v :: rest ∧
        SIZE_MB_TO_CHUNKS (lfc_size_limit st) ≤ used_of st ∧
        lfc_hash st !! v = Some ve ∧ access_count ve = 0 ∧
        e' = mkEntry (offset ve) 0 (bitmap_set bitmap_zero offs) ∧
        lfc_hash st' = <[tag := e']> (delete v (lfc_hash st)) ∧
        size_of st' = size_of st ∧ used_of st' = used_of st ∧
        lru_of st' = rest ++ [tag]) ∨
     (lfc_hash st !! tag = None ∧
      (used_of st < SIZE_MB_TO_CHUNKS (lfc_size_limit st) ∨ lru_of st = []) ∧
      e' = mkEntry (size_of st) 0 (bitmap_set bitmap_zero offs) ∧
      lfc_hash st' = <[tag := e']> (lfc_hash st) ∧
      size_of st' = size_of st + 1 ∧ used_of st' = used_of st + 1 ∧
      lru_of st' = lru_of st ++ [tag])).
Proof.
  intros Hinv Hb Hn Hlim tag offs. unfold lfc_write.
  pose proof (lfc_write_begin_defined rn fork blkno st Hinv) as Hdef.
  destruct (lfc_write_begin rn fork blkno st) as [[r st1]|f] eqn:Hbeg; [|done].
  clear Hdef.
  destruct (lfc_write_begin_inv _ _ _ _ _ _ _ Hinv Hb Hn Hbeg) as [[_ Hl1 _ _ _] _].
  simpl. revert Hbeg Hl1. unfold lfc_write_begin.
  pose proof (proj2 (Z.eqb_neq _ _) Hlim) as Hlimb. rewrite Hlimb.
  fold tag.
  destruct (lfc_hash st !! tag) as [e|] eqn:Ht.
  - intros H Hl1. apply bind_Done in H as (s & Hp & [= <- <-]).
    apply lfc_pin_Done in Hp as [-> _].
    pose proof (inv_count _ Hinv _ _ Ht) as Hc. pose proof (proj2 Hb _ _ Ht) as Hbn.
    assert (Hw : uint32 (access_count e + 1) = access_count e + 1)
      by (apply uint32_small; lia).
    rewrite (lfc_write_end_defined _ _ _ (set_access_count (uint32 (access_count e + 1)) e));
      [|done|apply lookup_insert_eq|simpl; lia].
    simpl. rewrite Hlimb. simpl.
    rewrite Hw. replace (access_count e + 1 - 1) with (access_count e) by lia.
    rewrite (uint32_small (access_count e)) by lia.
    eexists _, _. split; [done|]. simpl. fold tag offs.
    rewrite lookup_insert_eq. split; [done|]. simpl.
    split_and!; try done. left. exists e. split_and!; try done.
    + rewrite !insert_insert_eq. done.
    + unfold lru_of, unpin_state, pin_state. simpl.
      replace (access_count e + 1 - 1) with (access_count e) by lia.
      rewrite (uint32_small (access_count e)) by lia.
      by destruct (access_count e =? 0).
  - destruct (_ && _) eqn:Hfull.
    + destruct (ctl_lru (lfc_ctl st)) as [|v rest] eqn:Hlru; [done|].
      destruct (lfc_hash st !! v) as [ve|] eqn:Hv; [|done].
      intros H Hl1. apply bind_Done in H as ([] & Ha & [= <- <-]).
      apply Assert_Done, Z.eqb_eq in Ha.
      apply andb_true_iff in Hfull as [Hfull _]. apply Z.leb_le in Hfull.
      rewrite (lfc_write_end_defined _ _ _ (mkEntry (offset ve) 1 bitmap_zero));
        [|done|apply lookup_insert_eq|simpl; lia].
      simpl. rewrite Hlimb. simpl.
      eexists _, _. split; [done|]. simpl. fold tag offs.
      rewrite lookup_insert_eq. split; [done|]. simpl.
      split_and!; try done. right. left. split; [done|].
      exists v, ve, rest. split_and!; try done.
      rewrite !insert_insert_eq. done.
    + intros [= <- <-] Hl1.
      rewrite (lfc_write_end_defined _ _ _ (mkEntry (ctl_size (lfc_ctl st)) 1 bitmap_zero));
        [|done|apply lookup_insert_eq|simpl; lia].
      simpl. rewrite Hlimb. simpl.
      destruct Hinv as [_ _ Hu Hus _]. destruct Hb as [Hbs _].
      eexists _, _. split; [done|]. simpl. fold tag offs.
      rewrite lookup_insert_eq. split; [done|]. simpl.
      split_and!; try done. right. right. split; [done|].
      split_and!; try done.
      * apply andb_false_iff in Hfull as [Hfull|Hfull].
        -- left. apply Z.leb_gt in Hfull. done.
        -- right. apply negb_false_iff in Hfull. unfold lru_of.
           by destruct (ctl_lru (lfc_ctl st)).
      * rewrite !insert_insert_eq. done.
      * unfold size_of. simpl. apply uint32_small. lia.
      * unfold used_of. simpl. apply uint32_small. lia.
Qed.

(** *** Reading, writing and evicting one page among the others *)

Lemma cached_page_contains rn fork blkno st :
  is_Some (cached_page rn fork blkno st) ↔ lfc_cache_contains rn fork blkno st = true.
Proof.
  unfold cached_page, lfc_cache_contains.
  destruct (lfc_size_limit st =? 0); [by split; [intros [? [=]]|]|].
  destruct (lfc_hash st !! _) as [e|]; [|by split; [intros [? [=]]|]].
  destruct (bitmap_test _ _); [by split; eauto|by split; [intros [? [=]]|]].
Qed.

(** X2. [lfc_read] hands back the page exactly when
    [lfc_cache_contains] tells that it is cached, and it leaves the
    cache as it found it: the index with its slots, bitmaps and pin
    counts, the slab, [size] and [used]. Every page reads afterwards as
    it read before; only the order of the list may differ. *)
Theorem lfc_read_leaves_contents rn fork blkno st :
  reachable st →
  ∃ r st',
    lfc_read rn fork blkno st = Done (r, st') ∧
    (is_Some r ↔ lfc_cache_contains rn fork blkno st = true) ∧
    lfc_hash st' = lfc_hash st ∧ lfc_mem st' = lfc_mem st ∧
    size_of st' = size_of st ∧ used_of st' = used_of st ∧
    ∀ rn' fork' blkno',
      lfc_cache_contains rn' fork' blkno' st' = lfc_cache_contains rn' fork' blkno' st ∧
      ∃ r' st1 st2,
        lfc_read rn' fork' blkno' st = Done (r', st1) ∧
        lfc_read rn' fork' blkno' st' = Done (r', st2).
Proof.
  intros (n & Hinv & Hb & Hn & _)%reachable_inv.
  destruct (lfc_read_spec n rn fork blkno st Hinv Hb ltac:(lia))
    as (st' & Hr & Hh & Hm & Hsz & Hu & Hlim & Hmax & _).
  exists (cached_page rn fork blkno st), st'.
  split_and!; try done; [apply cached_page_contains|].
  intros rn' fork' blkno'. split.
  { unfold lfc_cache_contains. by rewrite Hh, Hlim. }
  destruct (lfc_read_inv _ _ _ _ _ _ _ Hinv Hb ltac:(lia) Hr) as [Hinv' Hb'].
  destruct (lfc_read_spec n rn' fork' blkno' st Hinv Hb ltac:(lia))
    as (st1 & Hr1 & _).
  destruct (lfc_read_spec (n + 1) rn' fork' blkno' st' Hinv' Hb' ltac:(lia))
    as (st2 & Hr2 & _).
  exists (cached_page rn' fork' blkno' st), st1, st2. split; [done|].
  rewrite Hr2. unfold cached_page. by rewrite Hh, Hm, Hlim.
Qed.

Lemma lfc_read_leaves_contents_witness :
  ∃ r st',
    lfc_read (rel 1) 0 0 two_chunk_state = Done (r, st') ∧
    (is_Some r ↔ lfc_cache_contains (rel 1) 0 0 two_chunk_state = true) ∧
    lfc_hash st' = lfc_hash two_chunk_state ∧
    lfc_mem st' = lfc_mem two_chunk_state ∧
    size_of st' = size_of two_chunk_state ∧
    used_of st' = used_of two_chunk_state ∧
    ∀ rn' fork' blkno',
      lfc_cache_contains rn' fork' blkno' st' =
        lfc_cache_contains rn' fork' blkno' two_chunk_state ∧
      ∃ r' st1 st2,
        lfc_read rn' fork' blkno' two_chunk_state = Done (r', st1) ∧
        lfc_read rn' fork' blkno' st' = Done (r', st2).
Proof.
  apply (lfc_read_leaves_contents (rel 1) 0 0 two_chunk_state
           two_chunk_state_reachable).
Defined.

(** What a write does to another page. *)
Lemma lfc_write_frame n rn fork blkno buffer rn' fork' blkno' st :
  lfc_inv st → below n st → n + 1 < 2 ^ 32 → lfc_shape st →
  lfc_size_limit st ≠ 0 →
  (rn, fork, blkno) ≠ (rn', fork', blkno') →
  ∃ st1,
    lfc_write rn fork blkno buffer st = Done st1 ∧
    (cached_page rn' fork' blkno' st1 = cached_page rn' fork' blkno' st ∨
     (cached_page rn' fork' blkno' st1 = None ∧
      lfc_hash st !! chunk_tag rn fork blkno = None ∧
      SIZE_MB_TO_CHUNKS (lfc_size_limit st) ≤ used_of st ∧
      ∃ rest, lru_of st = chunk_tag rn' fork' blkno' :: rest)).
Proof.
  intros Hinv Hb Hn [_ _ _ Hsl Hdi] Hlim Hne.
  destruct (lfc_write_spec n rn fork blkno buffer st Hinv Hb Hn Hlim)
    as (st1 & e' & Hw & He' & Hmem & Hlim1 & _ & Hcases).
  exists st1. split; [done|].
  pose proof (chunk_offs_range blkno) as Hoa.
  pose proof (chunk_offs_range blkno') as Hob.
  set (tag := chunk_tag rn fork blkno) in *.
  set (tag' := chunk_tag rn' fork' blkno') in *.
  set (offs := chunk_offs_of blkno) in *.
  set (offs' := chunk_offs_of blkno') in *.
  pose proof (proj2 (Z.eqb_neq _ _) Hlim) as Hlimb.
  (* the bytes of the page read are not those of the page written *)
  assert (Hbytes : ∀ c, (offset e', offs) ≠ (c, offs') →
    memcpy_from_slab (lfc_mem st1) (page_addr c offs') =
    memcpy_from_slab (lfc_mem st) (page_addr c offs')).
  { intros c Hc. rewrite Hmem. apply memcpy_other. intros a Ha1 Ha2.
    by apply (page_addr_disjoint (offset e') offs c offs' a). }
  unfold cached_page. rewrite Hlim1, Hlimb. fold tag'.
  destruct (decide (tag' = tag)) as [Htag|Htag].
  - (* the same chunk, another page of it *)
    assert (Hoffs : offs ≠ offs').
    { intros Ho. apply Hne. by apply same_chunk_same_offs. }
    rewrite Htag, He'. left.
    destruct Hcases as [(e & He & -> & _)|[(Hnone & v & ve & rest & _ & _ & _ & _ & -> & _)
                                          |(Hnone & _ & -> & _)]];
      simpl; rewrite ?He, ?Hnone.
    + rewrite bitmap_test_set_other by done.
      destruct (bitmap_test (bitmap e) _); [|done].
      f_equal. apply Hbytes. simpl. congruence.
    + by rewrite bitmap_test_set_other, bitmap_test_zero.
    + by rewrite bitmap_test_set_other, bitmap_test_zero.
  - (* another chunk *)
    destruct Hcases as [(e & He & He'eq & Hh & _)
                       |[(Hnone & v & ve & rest & Hlru & Hfull & Hv & _ & He'eq & Hh & _)
                        |(Hnone & _ & He'eq & Hh & _)]].
    + left. rewrite Hh, lookup_insert_ne by done.
      destruct (lfc_hash st !! tag') as [e2|] eqn:He2; [|done].
      destruct (bitmap_test (bitmap e2) _); [|done].
      f_equal. apply Hbytes. rewrite He'eq. simpl. intros [= Ho _].
      apply Htag. symmetry. by apply (Hdi tag tag' e e2).
    + rewrite Hh, lookup_insert_ne by done.
      destruct (decide (tag' = v)) as [->|Hv'].
      * right. rewrite lookup_delete_eq. split_and!; [done|done|done|by exists rest].
      * left. rewrite lookup_delete_ne by done.
        destruct (lfc_hash st !! tag') as [e2|] eqn:He2; [|done].
        destruct (bitmap_test (bitmap e2) _); [|done].
        f_equal. apply Hbytes. rewrite He'eq. simpl. intros [= Ho _].
        apply Hv'. symmetry. by apply (Hdi v tag' ve e2).
    + left. rewrite Hh, lookup_insert_ne by done.
      destruct (lfc_hash st !! tag') as [e2|] eqn:He2; [|done].
      destruct (bitmap_test (bitmap e2) _); [|done].
      f_equal. apply Hbytes. rewrite He'eq. simpl. intros [= Ho _].
      specialize (Hsl _ _ He2). unfold size_of in Ho. lia.
Qed.

(** X3. In a state reached by a schedule on which the list contract
    held, a write that does not take [size] past the capacity of the
    slab leaves every other page as it was: after the write every slot
    of the index lies below the capacity, and a read of another page
    hands back what it handed back before. The one exception is the
    admission of a new chunk into a full cache, which takes the slot of
    the chunk at the head of the list; the pages of that chunk are no
    longer cached. *)
Theorem lfc_write_keeps_other_pages rn fork blkno buffer rn' fork' blkno' st :
  reachable st →
  stays_in_slab (lfc_write rn fork blkno buffer st) →
  (rn, fork, blkno) ≠ (rn', fork', blkno') →
  ∃ st1 r st2,
    lfc_write rn fork blkno buffer st = Done st1 ∧
    (∀ k e, lfc_hash st1 !! k = Some e → 0 ≤ offset e < capacity_chunks st1) ∧
    lfc_read rn' fork' blkno' st1 = Done (r, st2) ∧
    ((∃ st3, lfc_read rn' fork' blkno' st = Done (r, st3)) ∨
     (r = None ∧
      lfc_hash st !! chunk_tag rn fork blkno = None ∧
      SIZE_MB_TO_CHUNKS (lfc_size_limit st) ≤ used_of st ∧
      ∃ rest, lru_of st = chunk_tag rn' fork' blkno' :: rest)).
Proof.
  intros (n & Hinv & Hb & Hn & Hs & _)%reachable_inv Hslab Hne.
  destruct (lfc_read_spec n rn' fork' blkno' st Hinv Hb ltac:(lia))
    as (st3 & Hr3 & _).
  assert (Hw : ∃ st1, lfc_write rn fork blkno buffer st = Done st1 ∧
    (cached_page rn' fork' blkno' st1 = cached_page rn' fork' blkno' st ∨
     (cached_page rn' fork' blkno' st1 = None ∧
      lfc_hash st !! chunk_tag rn fork blkno = None ∧
      SIZE_MB_TO_CHUNKS (lfc_size_limit st) ≤ used_of st ∧
      ∃ rest, lru_of st = chunk_tag rn' fork' blkno' :: rest))).
  { destruct (decide (lfc_size_limit st = 0)) as [Hz|Hlim].
    - exists st. split; [|by left]. unfold lfc_write, lfc_write_begin. by rewrite Hz.
    - by apply (lfc_write_frame n); [| |lia| | |]. }
  destruct Hw as (st1 & Hw & Hcases).
  destruct (lfc_write_inv _ _ _ _ _ _ _ Hinv Hb ltac:(lia) Hw) as [Hinv1 Hb1].
  assert (Hs1 : lfc_shape st1)
    by (by apply (exec_shape n (Write rn fork blkno buffer) st st1); [| |lia| |]).
  destruct (lfc_read_spec (n + 1) rn' fork' blkno' st1 Hinv1 Hb1 ltac:(lia))
    as (st2 & Hr2 & _).
  exists st1, (cached_page rn' fork' blkno' st1), st2. split_and!; [done| |done|].
  - intros k e He. pose proof (shape_slot _ Hs1 _ _ He) as Hslot.
    revert Hslab. unfold stays_in_slab. rewrite Hw. simpl. unfold slab_holds.
    destruct (size_of st1 <=? capacity_chunks st1) eqn:E; [|done].
    intros _. apply Z.leb_le in E. unfold size_of in E. lia.
  - destruct Hcases as [->|(Hnone & ?)]; [left; eauto|by right].
Qed.

Lemma lfc_write_keeps_other_pages_witness :
  ∃ st1 r st2,
    lfc_write (rel 3) 0 0 (page_of Byte.x63) two_chunk_state = Done st1 ∧
    (∀ k e, lfc_hash st1 !! k = Some e → 0 ≤ offset e < capacity_chunks st1) ∧
    lfc_read (rel 2) 0 0 st1 = Done (r, st2) ∧
    ((∃ st3, lfc_read (rel 2) 0 0 two_chunk_state = Done (r, st3)) ∨
     (r = None ∧
      lfc_hash two_chunk_state !! chunk_tag (rel 3) 0 0 = None ∧
      SIZE_MB_TO_CHUNKS (lfc_size_limit two_chunk_state) ≤ used_of two_chunk_state ∧
      ∃ rest, lru_of two_chunk_state = chunk_tag (rel 2) 0 0 :: rest)).
Proof.
  apply (lfc_write_keeps_other_pages (rel 3) 0 0 (page_of Byte.x63) (rel 2) 0 0
           two_chunk_state two_chunk_state_reachable).
  - vm_compute. discriminate.
  - discriminate.
Defined.

(** *** Eviction of a page *)

Lemma lfc_evict_frame ind rn fork blkno st st' :
  lfc_evict ind rn fork blkno st = Done st' →
  lfc_mem st' = lfc_mem st ∧ lfc_size_limit st' = lfc_size_limit st ∧
  lfc_max_size st' = lfc_max_size st.
Proof.
  unfold lfc_evict.
  destruct (lfc_size_limit st =? 0); [by intros [= <-]|].
  destruct (lfc_hash st !! _) as [e|]; [|by intros [= <-]].
  destruct (bitmap_word _ _ =? 0); [|by intros [= <-]].
  destruct (negb _); [|by intros [= <-]].
  intros H. apply bind_Done in H as (l & _ & H).
  by apply bind_Done in H as (l' & _ & [= <-]).
Qed.

Lemma lfc_evict_defined ind rn fork blkno st :
  lfc_inv st →
  (∀ e, lfc_hash st !! chunk_tag rn fork blkno = Some e → access_count e = 0) →
  is_done (lfc_evict ind rn fork blkno st).
Proof.
  intros [Hnd Hl _ _ _] Hz. unfold lfc_evict.
  destruct (lfc_size_limit st =? 0); [done|].
  destruct (lfc_hash st !! chunk_tag rn fork blkno) as [e|] eqn:Ht; [|done].
  destruct (bitmap_word _ _ =? 0); [|done].
  destruct (negb _); [|done]. simpl.
  assert (Hin : chunk_tag rn fork blkno ∈ ctl_lru (lfc_ctl st)).
  { apply Hl. exists e. split; [done|]. by apply Hz. }
  unfold dlist_delete. rewrite decide_True by done. simpl.
  unfold dlist_push_head. rewrite decide_False; [done|].
  rewrite elem_of_unlink by done. tauto.
Qed.

(** X4. [lfc_evict] of a page of a chunk that no backend has pinned
    completes; afterwards the page is not cached, whatever the
    uninitialised local held, and every other page, of the same chunk
    and of the others, reads as before. The chunk keeps its entry and
    its slot: [used] and the slab are as they were. *)
Theorem lfc_evict_removes_the_page ind rn fork blkno st :
  reachable st →
  (∀ e, lfc_hash st !! chunk_tag rn fork blkno = Some e → access_count e = 0) →
  ∃ st',
    lfc_evict ind rn fork blkno st = Done st' ∧
    lfc_cache_contains rn fork blkno st' = false ∧
    (∀ rn' fork' blkno', (rn, fork, blkno) ≠ (rn', fork', blkno') →
       cached_page rn' fork' blkno' st' = cached_page rn' fork' blkno' st ∧
       lfc_cache_contains rn' fork' blkno' st' =
         lfc_cache_contains rn' fork' blkno' st) ∧
    used_of st' = used_of st ∧ size_of st' = size_of st ∧
    lfc_mem st' = lfc_mem st ∧
    (∀ k, is_Some (lfc_hash st' !! k) ↔ is_Some (lfc_hash st !! k)).
Proof.
  intros (n & Hinv & Hb & Hn & [_ Hbm _ _ _] & _)%reachable_inv Hz.
  pose proof (lfc_evict_defined ind rn fork blkno st Hinv Hz) as Hdef.
  destruct (lfc_evict ind rn fork blkno st) as [st'|] eqn:Hev; [|done].
  exists st'. split; [done|].
  destruct (lfc_evict_frame _ _ _ _ _ _ Hev) as (Hmem & Hlim & _).
  pose proof (chunk_offs_range blkno) as Hoa.
  destruct (decide (lfc_size_limit st = 0)) as [Hzero|Hnz].
  { assert (st' = st) as ->.
    { revert Hev. unfold lfc_evict. rewrite Hzero. by intros [= <-]. }
    split_and!; try done.
    unfold lfc_cache_contains. by rewrite Hzero. }
  destruct (lfc_hash st !! chunk_tag rn fork blkno) as [e|] eqn:Ht.
  - destruct (lfc_evict_entry _ _ _ _ _ _ _ Hnz Ht Hev) as (Hh & Hsz & Hu).
    assert (Hcont : ∀ rn' fork' blkno',
      (rn, fork, blkno) ≠ (rn', fork', blkno') →
      cached_page rn' fork' blkno' st' = cached_page rn' fork' blkno' st).
    { intros rn' fork' blkno' Hne. unfold cached_page. rewrite Hlim, Hmem, Hh.
      destruct (lfc_size_limit st =? 0); [done|].
      destruct (decide (chunk_tag rn' fork' blkno' = chunk_tag rn fork blkno))
        as [Htag|Htag].
      - rewrite Htag, lookup_insert_eq, Ht. simpl.
        rewrite bitmap_test_clear_other; [done|done|apply chunk_offs_range|].
        intros Ho. apply Hne. by apply same_chunk_same_offs.
      - by rewrite lookup_insert_ne. }
    split_and!; try done.
    + unfold lfc_cache_contains. rewrite Hlim, Hh, lookup_insert_eq.
      destruct (lfc_size_limit st =? 0); [done|]. simpl.
      apply bitmap_test_clear; [done|by eapply Hbm].
    + intros rn' fork' blkno' Hne. split; [by apply Hcont|].
      apply eq_true_iff_eq. rewrite <- !cached_page_contains.
      by rewrite Hcont.
    + intros k. rewrite Hh. destruct (decide (k = chunk_tag rn fork blkno)) as [->|?].
      * rewrite lookup_insert_eq, Ht. split; eauto.
      * by rewrite lookup_insert_ne.
  - assert (st' = st) as ->.
    { revert Hev. unfold lfc_evict. rewrite (proj2 (Z.eqb_neq _ _) Hnz), Ht.
      by intros [= <-]. }
    split_and!; try done.
    unfold lfc_cache_contains. rewrite Ht. by destruct (_ =? _).
Qed.

Lemma lfc_evict_removes_the_page_witness :
  ∃ st',
    lfc_evict true (rel 1) 0 0 two_chunk_state = Done st' ∧
    lfc_cache_contains (rel 1) 0 0 st' = false ∧
    (∀ rn' fork' blkno', (rel 1, 0, 0) ≠ (rn', fork', blkno') →
       cached_page rn' fork' blkno' st' = cached_page rn' fork' blkno' two_chunk_state ∧
       lfc_cache_contains rn' fork' blkno' st' =
         lfc_cache_contains rn' fork' blkno' two_chunk_state) ∧
    used_of st' = used_of two_chunk_state ∧ size_of st' = size_of two_chunk_state ∧
    lfc_mem st' = lfc_mem two_chunk_state ∧
    (∀ k, is_Some (lfc_hash st' !! k) ↔ is_Some (lfc_hash two_chunk_state !! k)).
Proof.
  apply (lfc_evict_removes_the_page true (rel 1) 0 0 two_chunk_state
           two_chunk_state_reachable).
  intros e He. by eapply two_chunk_state_quiescent.
Defined.

(** *** Pinned chunks *)

(** X5. From a state reached by a schedule on which the list contract
    held, a critical section that keeps it as well, which is any but an
    [lfc_evict] of a page of a pinned chunk and the later steps of a
    call whose first critical section has not run, is defined, leaves
    every pinned chunk in the index and leaves its slot as it is: while
    a backend copies a page to or from the slab between its two
    critical sections, the slot stays the chunk's. *)
Theorem pinned_chunk_keeps_its_slot o st k e :
  reachable st → critical_section o = true → keeps_contract o st →
  lfc_hash st !! k = Some e → access_count e ≠ 0 →
  ∃ st', exec o st = Done st' ∧
         ∃ e', lfc_hash st' !! k = Some e' ∧ offset e' = offset e.
Proof.
  intros (n & Hinv & Hb & Hn & _)%reachable_inv Hcs Hkeep Hk Hp.
  assert (Hdef : is_done (exec o st)).
  { pose proof (inv_linked _ Hinv) as Hl.
    destruct o; try discriminate; simpl in *.
    - done.
    - by apply lfc_evict_defined.
    - destruct attached; [|done].
      destruct (lfc_change_limit_hook_spec n newval st Hinv Hb ltac:(lia))
        as (s & ? & ? & -> & _). done.
    - unfold assign_file_cache_size_limit.
      destruct (lfc_check_limit_hook _ _); [|done].
      destruct (lfc_change_limit_hook_spec n newval st Hinv Hb ltac:(lia))
        as (s & ? & ? & -> & _). done.
    - unfold lfc_read_begin.
      destruct (lfc_size_limit st =? 0); [done|].
      destruct (lfc_hash st !! chunk_tag rn fork blkno) as [e0|] eqn:He0; [|done].
      destruct (negb (bitmap_test (bitmap e0) (chunk_offs_of blkno))); [done|].
      by rewrite (lfc_pin_defined _ e0).
    - destruct Hkeep as (e0 & He0 & Hp0).
      pose proof (inv_count _ Hinv _ _ He0).
      unfold lfc_read_end. rewrite (lfc_unpin_defined _ e0); [done..|lia].
    - pose proof (lfc_write_begin_defined rn fork blkno st Hinv) as Hd.
      by destruct (lfc_write_begin rn fork blkno st) as [[? ?]|].
    - destruct Hkeep as (e0 & -> & _). done.
    - destruct Hkeep as (e0 & He0 & Hp0).
      pose proof (inv_count _ Hinv _ _ He0).
      rewrite (lfc_write_end_defined _ _ _ e0); [done..|lia]. }
  destruct (exec o st) as [st'|] eqn:Hex; [|done].
  exists st'. split; [done|].
  eapply index_step_pinned; [|done|done].
  by apply (exec_index_step n o); [| |lia| |].
Qed.

Lemma pinned_chunk_state_reachable : reachable pinned_chunk_state.
Proof.
  exists 4, 1, [WriteBegin (rel 1) 0 0]. split_and!.
  - simpl. lia.
  - repeat constructor; simpl; lia.
  - vm_compute. reflexivity.
Qed.

Lemma pinned_chunk_keeps_its_slot_witness :
  ∃ st', exec (WriteBegin (rel 2) 0 0) pinned_chunk_state = Done st' ∧
         ∃ e', lfc_hash st' !! chunk0 1 = Some e' ∧
               offset e' = offset (mkEntry 0 1 bitmap_zero).
Proof.
  apply (pinned_chunk_keeps_its_slot (WriteBegin (rel 2) 0 0)
           pinned_chunk_state (chunk0 1)
           (mkEntry 0 1 bitmap_zero) pinned_chunk_state_reachable).
  - reflexivity.
  - exact I.
  - reflexivity.
  - discriminate.
Defined.

(** *** Order of use and the limit, without overlapping calls *)

(** With no call in flight every entry is linked. *)
Lemma quiescent_lru_length st :
  lfc_inv st → quiescent st → Z.of_nat (length (lru_of st)) = used_of st.
Proof.
  intros [Hnd Hl Hu _ _] Hq. unfold used_of, lru_of. rewrite Hu. f_equal.
  rewrite <- size_dom. unfold size, set_size. simpl.
  apply Permutation_length, NoDup_Permutation; [done|apply NoDup_elements|].
  intros k. rewrite elem_of_elements, elem_of_dom, (Hl k). split.
  - intros (e & He & _). eauto.
  - intros [e He]. exists e. split; [done|]. by eapply Hq.
Qed.

Lemma quiescent_empty_list st :
  lfc_inv st → quiescent st → lru_of st = [] → used_of st = 0.
Proof.
  intros Hinv Hq Hnil. rewrite <- quiescent_lru_length by done. by rewrite Hnil.
Qed.

Lemma lfc_write_tail n rn fork blkno buffer st st1 :
  lfc_inv st → below n st → n + 1 < 2 ^ 32 → quiescent st →
  lfc_size_limit st ≠ 0 →
  lfc_write rn fork blkno buffer st = Done st1 →
  ∃ l, lru_of st1 = l ++ [chunk_tag rn fork blkno].
Proof.
  intros Hinv Hb Hn Hq Hlim Hw.
  destruct (lfc_write_spec n rn fork blkno buffer st Hinv Hb Hn Hlim)
    as (st1' & e' & Hw' & _ & _ & _ & _ & Hcases).
  assert (st1' = st1) as -> by congruence.
  destruct Hcases as [(e & He & _ & _ & _ & _ & Hlru)
                     |[(_ & v & ve & rest & _ & _ & _ & _ & _ & _ & _ & _ & Hlru)
                      |(_ & _ & _ & _ & _ & _ & Hlru)]]; [|eauto..].
  rewrite (Hq _ _ He) in Hlru. simpl in Hlru. eauto.
Qed.

(** The chunk at the tail of the list outlives a write to another
    page when the limit is two chunks or more. *)
Lemma tail_chunk_survives n rn fork blkno rn' fork' blkno' buffer' l st1 :
  lfc_inv st1 → below n st1 → n + 1 < 2 ^ 32 → lfc_shape st1 → quiescent st1 →
  2 ≤ SIZE_MB_TO_CHUNKS (lfc_size_limit st1) →
  lru_of st1 = l ++ [chunk_tag rn fork blkno] →
  (rn, fork, blkno) ≠ (rn', fork', blkno') →
  ∃ st2, lfc_write rn' fork' blkno' buffer' st1 = Done st2 ∧
         cached_page rn fork blkno st2 = cached_page rn fork blkno st1.
Proof.
  intros Hinv Hb Hn Hs Hq Hlimit Hlru Hne.
  assert (Hlim : lfc_size_limit st1 ≠ 0).
  { intros Hz. rewrite Hz in Hlimit. vm_compute in Hlimit. by apply Hlimit. }
  destruct (lfc_write_frame n rn' fork' blkno' buffer' rn fork blkno st1)
    as (st2 & Hw & Hcases); [done|done|done|done|done|congruence|].
  exists st2. split; [done|].
  destruct Hcases as [?|(_ & _ & Hfull & rest & Hhead)]; [done|exfalso].
  pose proof (quiescent_lru_length st1 Hinv Hq) as Hlen.
  destruct Hinv as [Hnd _ _ _ _]. unfold lru_of in *.
  rewrite Hlru in Hhead, Hlen, Hnd.
  destruct l as [|x l].
  - simpl in Hlen. lia.
  - injection Hhead as -> _. apply NoDup_cons in Hnd as [Hnotin _].
    apply Hnotin, elem_of_app. right. by left.
Qed.

Lemma slots_in_slab st :
  lfc_shape st → stays_in_slab (Done st) →
  ∀ k e, lfc_hash st !! k = Some e → 0 ≤ offset e < capacity_chunks st.
Proof.
  intros Hs Hslab k e He. pose proof (shape_slot _ Hs _ _ He) as Hslot.
  revert Hslab. unfold stays_in_slab. simpl. unfold slab_holds.
  destruct (size_of st <=? capacity_chunks st) eqn:E; [|done].
  intros _. apply Z.leb_le in E. unfold size_of in E. lia.
Qed.

(** X6. Least recently used, in a state reached by a schedule on which
    the list contract held: with a limit of two chunks or more and no
    call in flight, the chunk of the page just written, or just read,
    is not the one that the next write to another page replaces. When
    that write does not take [size] past the capacity of the slab, every
    slot of the index lies below the capacity after it, and the page is
    still cached, with the content it had. *)
Theorem recently_used_chunk_survives rn fork blkno buffer rn' fork' blkno' buffer' st :
  reachable st → quiescent st →
  2 ≤ SIZE_MB_TO_CHUNKS (lfc_size_limit st) →
  length buffer = Z.to_nat BLCKSZ →
  (rn, fork, blkno) ≠ (rn', fork', blkno') →
  (stays_in_slab (lfc_write rn fork blkno buffer st
                    ≫= lfc_write rn' fork' blkno' buffer') →
   ∃ st1 st2 st3,
     lfc_write rn fork blkno buffer st = Done st1 ∧
     lfc_write rn' fork' blkno' buffer' st1 = Done st2 ∧
     (∀ k e, lfc_hash st2 !! k = Some e → 0 ≤ offset e < capacity_chunks st2) ∧
     lfc_read rn fork blkno st2 = Done (Some buffer, st3)) ∧
  (∀ page st1,
     lfc_read rn fork blkno st = Done (Some page, st1) →
     stays_in_slab (lfc_write rn' fork' blkno' buffer' st1) →
     ∃ st2 st3,
       lfc_write rn' fork' blkno' buffer' st1 = Done st2 ∧
       (∀ k e, lfc_hash st2 !! k = Some e → 0 ≤ offset e < capacity_chunks st2) ∧
       lfc_read rn fork blkno st2 = Done (Some page, st3)).
Proof.
  intros (n & Hinv & Hb & Hn & Hs & _)%reachable_inv Hq Hlimit Hlen Hne.
  assert (Hlim : lfc_size_limit st ≠ 0).
  { intros Hz. rewrite Hz in Hlimit. vm_compute in Hlimit. by apply Hlimit. }
  split.
  - intros Hslab.
    destruct (lfc_write_whole n rn fork blkno buffer st)
      as (st1 & Hw & Hq1); [done|done|lia|done|].
    destruct (lfc_write_inv _ _ _ _ _ _ _ Hinv Hb ltac:(lia) Hw) as [Hinv1 Hb1].
    assert (Hs1 : lfc_shape st1)
      by (by apply (exec_shape n (Write rn fork blkno buffer) st st1); [| |lia| |]).
    destruct (lfc_write_tail n rn fork blkno buffer st st1) as [l Hl];
      [done|done|lia|done|done|done|].
    destruct (lfc_write_spec n rn fork blkno buffer st Hinv Hb ltac:(lia) Hlim)
      as (st1' & e' & Hw' & He' & Hmem & Hlim1 & _ & Hcases).
    assert (st1' = st1) as -> by congruence.
    assert (Hpage : cached_page rn fork blkno st1 = Some buffer).
    { unfold cached_page. rewrite Hlim1, (proj2 (Z.eqb_neq _ _) Hlim), He'.
      assert (Hbit : bitmap_test (bitmap e') (chunk_offs_of blkno) = true).
      { destruct Hcases as [(e & He & -> & _)
                           |[(_ & v & ve & rest & _ & _ & _ & _ & -> & _)
                            |(_ & _ & -> & _)]]; simpl;
          (apply bitmap_test_set; [apply chunk_offs_range|]).
        - by eapply (shape_bitmap _ Hs).
        - apply length_bitmap_zero.
        - apply length_bitmap_zero. }
      rewrite Hbit, Hmem. f_equal. by apply memcpy_roundtrip. }
    destruct (tail_chunk_survives (n + 1) rn fork blkno rn' fork' blkno' buffer' l st1)
      as (st2 & Hw2 & Hsame); [done|done|lia|done|done|by rewrite Hlim1|done|done|].
    destruct (lfc_write_inv _ _ _ _ _ _ _ Hinv1 Hb1 ltac:(lia) Hw2) as [Hinv2 Hb2].
    assert (Hs2 : lfc_shape st2)
      by (by apply (exec_shape (n + 1) (Write rn' fork' blkno' buffer') st1 st2);
            [| |lia| |]).
    destruct (lfc_read_spec (n + 1 + 1) rn fork blkno st2 Hinv2 Hb2 ltac:(lia))
      as (st3 & Hr & _).
    exists st1, st2, st3. split_and!; [done|done| |].
    + apply slots_in_slab; [done|]. revert Hslab. rewrite Hw. simpl. by rewrite Hw2.
    + by rewrite Hr, Hsame, Hpage.
  - intros page st1 Hr Hslab.
    destruct (lfc_read_spec n rn fork blkno st Hinv Hb ltac:(lia))
      as (st1' & Hr' & Hh & Hm & Hsz & Hu & Hlim1 & _ & Hlru).
    rewrite Hr in Hr'. injection Hr' as Hpage <-.
    destruct (lfc_read_inv _ _ _ _ _ _ _ Hinv Hb ltac:(lia) Hr) as [Hinv1 Hb1].
    assert (Hs1 : lfc_shape st1).
    { apply (exec_shape n (Read rn fork blkno) st st1); [done|done|lia| |done].
      simpl. by rewrite Hr. }
    assert (Hq1 : quiescent st1) by (intros k e; rewrite Hh; apply Hq).
    assert (Hl : ∃ l, lru_of st1 = l ++ [chunk_tag rn fork blkno]).
    { rewrite <- Hpage in Hlru.
      destruct (lfc_hash st !! chunk_tag rn fork blkno) as [e|] eqn:He.
      - destruct (is_Some_dec _) as [_|Hnone]; [|exfalso; apply Hnone; eauto].
        rewrite (Hq _ _ He) in Hlru. simpl in Hlru. eauto.
      - exfalso. revert Hpage. unfold cached_page.
        by rewrite (proj2 (Z.eqb_neq _ _) Hlim), He. }
    destruct Hl as [l Hl].
    destruct (tail_chunk_survives (n + 1) rn fork blkno rn' fork' blkno' buffer' l st1)
      as (st2 & Hw2 & Hsame); [done|done|lia|done|done|by rewrite Hlim1|done|done|].
    destruct (lfc_write_inv _ _ _ _ _ _ _ Hinv1 Hb1 ltac:(lia) Hw2) as [Hinv2 Hb2].
    assert (Hs2 : lfc_shape st2)
      by (by apply (exec_shape (n + 1) (Write rn' fork' blkno' buffer') st1 st2);
            [| |lia| |]).
    destruct (lfc_read_spec (n + 1 + 1) rn fork blkno st2 Hinv2 Hb2 ltac:(lia))
      as (st3 & Hr3 & _).
    exists st2, st3. split_and!; [done| |].
    + apply slots_in_slab; [done|]. by rewrite <- Hw2.
    + rewrite Hr3, Hsame.
      assert (cached_page rn fork blkno st1 = cached_page rn fork blkno st) as ->
        by (unfold cached_page; by rewrite Hh, Hm, Hlim1).
      by rewrite <- Hpage.
Qed.

Lemma recently_used_chunk_survives_witness :
  ∃ st1 st2 st3,
    lfc_write (rel 1) 0 0 (page_of Byte.x61) two_chunk_state = Done st1 ∧
    lfc_write (rel 3) 0 0 (page_of Byte.x63) st1 = Done st2 ∧
    (∀ k e, lfc_hash st2 !! k = Some e → 0 ≤ offset e < capacity_chunks st2) ∧
    lfc_read (rel 1) 0 0 st2 = Done (Some (page_of Byte.x61), st3).
Proof.
  apply (proj1 (recently_used_chunk_survives (rel 1) 0 0 (page_of Byte.x61)
                  (rel 3) 0 0 (page_of Byte.x63) two_chunk_state
                  two_chunk_state_reachable two_chunk_state_quiescent
                  ltac:(vm_compute; discriminate)
                  ltac:(apply length_replicate)
                  ltac:(discriminate))).
  vm_compute. discriminate.
Defined.
(** *** The limit *)

Lemma lfc_evict_used ind rn fork blkno st st' :
  lfc_evict ind rn fork blkno st = Done st' →
  used_of st' = used_of st ∧ size_of st' = size_of st.
Proof.
  unfold lfc_evict.
  destruct (lfc_size_limit st =? 0); [by intros [= <-]|].
  destruct (lfc_hash st !! _) as [e|]; [|by intros [= <-]].
  destruct (bitmap_word _ _ =? 0); [|by intros [= <-]].
  destruct (negb _); [|by intros [= <-]].
  intros H. apply bind_Done in H as (l & _ & H).
  by apply bind_Done in H as (l' & _ & [= <-]).
Qed.

Lemma lfc_change_limit_hook_max_size attached newval st st' :
  lfc_change_limit_hook attached newval st = Done st' →
  lfc_max_size st' = lfc_max_size st ∧ lfc_size_limit st' = lfc_size_limit st.
Proof.
  unfold lfc_change_limit_hook. destruct attached; simpl; [|by intros [= <-]].
  intros H. by apply bind_Done in H as ([[[l h] u] p] & _ & [= <-]).
Qed.

(** With no call in flight, shrinking stops at its target. *)
Lemma lfc_change_limit_hook_reaches n attached newval st st' :
  lfc_inv st → below n st → n + 1 < 2 ^ 32 → quiescent st →
  lfc_change_limit_hook attached newval st = Done st' →
  used_of st' ≤ used_of st ∧
  (attached = true → used_of st' ≤ SIZE_MB_TO_CHUNKS newval).
Proof.
  intros Hinv Hb Hn Hq. destruct attached; [|intros [= <-]; split; [lia|done]].
  destruct (lfc_change_limit_hook_spec n newval st Hinv Hb Hn)
    as (s & victims & offsets & Hhook & _ & _ & _ & Hh & Hu & _ & _ & Hexit & _).
  rewrite Hhook. intros [= <-]. split; [lia|]. intros _.
  destruct Hexit as [?|Hnil]; [lia|].
  destruct (lfc_change_limit_hook_inv n _ _ _ _ Hinv Hb ltac:(lia) Hhook)
    as [Hinv' _].
  assert (Hq' : quiescent s).
  { intros k e. rewrite Hh. destruct (decide (k ∈ victims)); [done|]. apply Hq. }
  rewrite (quiescent_empty_list s Hinv' Hq' Hnil).
  by destruct (SIZE_MB_TO_CHUNKS_range newval).
Qed.

(** What a whole call does to [used], with no call in flight: it ends
    within the limit of the caller, or it has left the limit alone and
    has not raised [used]. *)
Lemma exec_used n o st st' :
  lfc_inv st → below n st → n + 1 < 2 ^ 32 → quiescent st →
  whole_call o = true → well_typed o →
  0 ≤ lfc_size_limit st < 2 ^ 31 →
  exec o st = Done st' →
  0 ≤ lfc_size_limit st' < 2 ^ 31 ∧
  lfc_max_size st' = lfc_max_size st ∧
  (used_of st' ≤ SIZE_MB_TO_CHUNKS (lfc_size_limit st') ∨
   (lfc_size_limit st' = lfc_size_limit st ∧ used_of st' ≤ used_of st)).
Proof.
  intros Hinv Hb Hn Hq Hw Hty Hrange.
  destruct o; try discriminate; simpl in *.
  - intros [= <-]. split_and!; [lia|lia|done|right; split; [done|lia]].
  - intros H. apply bind_Done in H as ([r s] & Hr & [= <-]).
    destruct (lfc_read_spec n rn fork blkno st Hinv Hb Hn)
      as (s' & Hr' & _ & _ & _ & Hu & Hlim & Hmax & _).
    assert (s' = s) as -> by congruence. rewrite Hu, Hlim, Hmax.
    split_and!; [lia|lia|done|right; split; [done|lia]].
  - destruct (decide (lfc_size_limit st = 0)) as [Hz|Hlim].
    { assert (lfc_write rn fork blkno buffer st = Done st) as ->
        by (unfold lfc_write, lfc_write_begin; by rewrite Hz).
      intros [= <-]. split_and!; [lia|lia|done|right; split; [done|lia]]. }
    destruct (lfc_write_spec n rn fork blkno buffer st Hinv Hb Hn Hlim)
      as (s & e' & -> & _ & _ & Hlim1 & Hmax & Hcases).
    intros [= <-]. rewrite Hlim1, Hmax. split_and!; [lia|lia|done|].
    destruct Hcases as [(e & _ & _ & _ & _ & -> & _)
                       |[(_ & v & ve & rest & _ & _ & _ & _ & _ & _ & _ & -> & _)
                        |(_ & Hroom & _ & _ & _ & -> & _)]];
      [right; split; [done|lia]..|].
    left. destruct Hroom as [?|Hnil]; [lia|].
    rewrite (quiescent_empty_list st Hinv Hq Hnil).
    rewrite SIZE_MB_TO_CHUNKS_id by lia. lia.
  - intros H. destruct (lfc_evict_frame _ _ _ _ _ _ H) as (_ & Hlim & Hmax).
    apply lfc_evict_used in H as [H _]. rewrite H, Hlim, Hmax.
    split_and!; [lia|lia|done|right; split; [done|lia]].
  - intros H. destruct (lfc_change_limit_hook_max_size _ _ _ _ H) as [Hmax Hlim].
    apply (lfc_change_limit_hook_reaches n) in H as [Hle _]; [|done..].
    rewrite Hlim, Hmax. split_and!; [lia|lia|done|right; split; [done|lia]].
  - intros H.
    apply (exec_AssignSizeLimit newval st st') in H as [[_ ->]|(_ & s & Hh & ->)].
    { split_and!; [lia|lia|done|right; split; [done|lia]]. }
    simpl.
    destruct (lfc_change_limit_hook_max_size _ _ _ _ Hh) as [Hmax _].
    apply (lfc_change_limit_hook_reaches n) in Hh as [_ Hle]; [|done..].
    specialize (Hle eq_refl).
    split_and!; [lia|lia|done|by left].
Qed.

(** *** Several processes *)







(** The limit of one process does not bind another: process 0 lowers
    its limit from two chunks to one and shrinks the cache to one
    chunk; process 1 still holds two and takes in a second chunk. *)
Example limit_of_another_process :
  let c := run_as [(0%nat, Write (rel 1) 0 0 (page_of Byte.x61));
                   (1%nat, Write (rel 2) 0 0 (page_of Byte.x62));
                   (0%nat, AssignSizeLimit 1);
                   (1%nat, Write (rel 3) 0 0 (page_of Byte.x63))]
                  (cluster_start 4 2) in
  match c with
  | Done c => used_of (shmem c) = 2 ∧ limit_of c 0%nat = 1 ∧ limit_of c 1%nat = 2
  | Undefined _ => False
  end.
Proof. vm_compute. done. Qed.

(** *** The slab that lfc_init sizes *)

Lemma exec_cache_call n o st st' :
  lfc_inv st → below n st → n + 1 < 2 ^ 32 →
  cache_call o = true → exec o st = Done st' →
  lfc_size_limit st' = lfc_size_limit st ∧
  (size_of st = used_of st → size_of st' = used_of st').
Proof.
  intros Hinv Hb Hn Hc. destruct o; try discriminate; simpl.
  - by intros [= <-].
  - intros H. apply bind_Done in H as ([r s] & Hr & [= <-]).
    destruct (lfc_read_spec n rn fork blkno st Hinv Hb Hn)
      as (s' & Hr' & _ & _ & Hsz & Hu & Hlim & _).
    assert (s' = s) as -> by congruence. split; [done|]. lia.
  - destruct (decide (lfc_size_limit st = 0)) as [Hz|Hlim].
    { assert (lfc_write rn fork blkno buffer st = Done st) as ->
        by (unfold lfc_write, lfc_write_begin; by rewrite Hz).
      by intros [= <-]. }
    destruct (lfc_write_spec n rn fork blkno buffer st Hinv Hb Hn Hlim)
      as (s & e' & -> & _ & _ & Hlim1 & _ & Hcases).
    intros [= <-]. split; [done|].
    destruct Hcases as [(e & _ & _ & _ & -> & -> & _)
                       |[(_ & v & ve & rest & _ & _ & _ & _ & _ & _ & -> & -> & _)
                        |(_ & _ & _ & _ & -> & -> & _)]]; lia.
  - intros H. destruct (lfc_evict_frame _ _ _ _ _ _ H) as (_ & Hlim & _).
    apply lfc_evict_used in H as [-> ->]. done.
Qed.

Lemma run_cache_calls ops : ∀ n st,
  lfc_inv st → below n st → n + Z.of_nat (length ops) + 1 < 2 ^ 32 →
  quiescent st → lfc_shape st →
  Forall (λ o, cache_call o = true) ops → Forall well_typed ops →
  0 ≤ lfc_size_limit st < 2 ^ 31 →
  size_of st = used_of st →
  used_of st ≤ SIZE_MB_TO_CHUNKS (lfc_size_limit st) →
  ∃ st', run ops st = Done st' ∧ lfc_shape st' ∧
         lfc_size_limit st' = lfc_size_limit st ∧
         lfc_max_size st' = lfc_max_size st ∧
         size_of st' = used_of st' ∧
         used_of st' ≤ SIZE_MB_TO_CHUNKS (lfc_size_limit st').
Proof.
  induction ops as [|o ops IH];
    intros n st Hinv Hb Hn Hq Hs Hall Hty Hrange Hsize Hused.
  - by exists st.
  - change (length (o :: ops)) with (S (length ops)) in Hn.
    rewrite Nat2Z.inj_succ in Hn.
    apply Forall_cons in Hall as [Ho Hall]. apply Forall_cons in Hty as [Hto Hty].
    assert (Hw : whole_call o = true) by (by destruct o).
    destruct (exec_whole n o st) as (st1 & Hex & Hq1); [done|done|done|lia|done|].
    destruct (exec_inv n o st st1) as [Hinv1 Hb1]; [done|done|lia|done|].
    destruct (exec_used n o st st1) as (_ & Hmax1 & Hused1); [done|done|lia|done..|].
    destruct (exec_cache_call n o st st1) as [Hlim1 Hsize1]; [done|done|lia|done..|].
    pose proof (exec_shape n o st st1 Hinv Hb ltac:(lia) Hex Hs) as Hs1.
    destruct (IH (n + 1) st1)
      as (st' & Hrun & Hs' & Hlim' & Hmax' & Hsize' & Hused');
      [done|done|lia|done|done|done|done|by rewrite Hlim1|by apply Hsize1| |].
    { rewrite Hlim1. destruct Hused1 as [Hle|[_ Hle]]; [by rewrite <- Hlim1|lia]. }
    exists st'. split_and!; [|done|congruence|congruence|done|done].
    simpl. by rewrite Hex.
Qed.

(** X8. The cache that [lfc_init] sets up stays within
    [neon.max_inmem_cache_size] as long as the limit is left as it was
    at the start: [lfc_shmem_request] cuts both sizes down to it before
    the slab is sized, so the slab has no more bytes than the smaller of
    [neon.max_file_cache_size] and [neon.max_inmem_cache_size] has
    megabytes, and after every sequence of whole calls of
    [lfc_cache_contains], [lfc_read], [lfc_write] and [lfc_evict], with
    a limit that the check hook accepts, every slot handed out is in
    use, their number is within the limit, and every page of every
    chunk in the index lies inside the slab. With
    [neon.max_file_cache_size] at 0 there is no cache at all. *)
Theorem cache_within_max_inmem g ops :
  0 ≤ file_cache_size_limit g ≤ max_file_cache_size g →
  max_file_cache_size g < 2 ^ 31 → 0 ≤ max_inmem_cache_size g →
  Z.of_nat (length ops) < 2 ^ 31 →
  Forall (λ o, cache_call o = true) ops → Forall well_typed ops →
  (max_file_cache_size g = 0 → lfc_init g = None) ∧
  (max_file_cache_size g ≠ 0 →
   ∃ st0 st,
     lfc_init g = Some st0 ∧ run ops st0 = Done st ∧
     lfc_max_size st = Z.min (max_file_cache_size g) (max_inmem_cache_size g) ∧
     lfc_size_limit st = Z.min (file_cache_size_limit g) (max_inmem_cache_size g) ∧
     slab_bytes (lfc_max_size st) =
       Z.min (max_file_cache_size g) (max_inmem_cache_size g) * MB ∧
     size_of st = used_of st ∧
     used_of st ≤ lfc_size_limit st ∧ lfc_size_limit st ≤ lfc_max_size st ∧
     ∀ k e i, lfc_hash st !! k = Some e → 0 ≤ i < BLOCKS_PER_CHUNK →
              in_slab (lfc_max_size st) (offset e) i).
Proof.
  intros Hlimit Hmax Hmem Hlen Hall Hty. unfold lfc_init, lfc_shmem_request. split.
  { intros ->. done. }
  intros Hnz. rewrite (proj2 (Z.eqb_neq _ _) Hnz). simpl.
  set (max_size := Z.min (max_file_cache_size g) (max_inmem_cache_size g)).
  set (size_limit := Z.min (file_cache_size_limit g) (max_inmem_cache_size g)).
  destruct (lfc_shmem_startup_inv max_size size_limit) as [Hinv0 Hb0].
  destruct (lfc_shmem_startup_shape max_size size_limit) as [Hs0 _].
  destruct (run_cache_calls ops 0 (lfc_shmem_startup max_size size_limit))
    as (st & Hrun & Hs & Hlim' & Hmax' & Hsize & Hused);
    [done|done|lia|by intros k e; simpl; rewrite lookup_empty|done|done|done| |done| |].
  - simpl. lia.
  - change (0 ≤ SIZE_MB_TO_CHUNKS size_limit).
    by destruct (SIZE_MB_TO_CHUNKS_range size_limit).
  - exists (lfc_shmem_startup max_size size_limit), st.
    simpl in Hmax', Hlim'. rewrite Hlim', SIZE_MB_TO_CHUNKS_id in Hused by lia.
    assert (Hbytes : slab_bytes max_size = max_size * MB).
    { unfold slab_bytes. rewrite (uint64_small max_size) by lia.
      apply uint64_small. unfold MB. lia. }
    rewrite Hmax', Hlim'.
    split_and!; [done|done|done|done|done|done|done|lia|].
    intros k e i He Hi. pose proof (shape_slot _ Hs _ _ He) as Hslot.
    fold (size_of st) in Hslot.
    unfold in_slab. rewrite Hbytes.
    unfold page_addr, BLOCKS_PER_CHUNK, BLCKSZ, MB in *. lia.
Qed.

Lemma cache_within_max_inmem_witness :
  ∃ st0 st,
    lfc_init (mkGucs 1024 128 512 0) = Some st0 ∧
    run [Write (rel 1) 0 0 (page_of Byte.x61); Read (rel 1) 0 0;
         Write (rel 2) 0 0 (page_of Byte.x62); Evict false (rel 1) 0 0] st0
      = Done st ∧
    lfc_max_size st = Z.min 1024 128 ∧
    lfc_size_limit st = Z.min 512 128 ∧
    slab_bytes (lfc_max_size st) = Z.min 1024 128 * MB ∧
    size_of st = used_of st ∧
    used_of st ≤ lfc_size_limit st ∧ lfc_size_limit st ≤ lfc_max_size st ∧
    ∀ k e i, lfc_hash st !! k = Some e → 0 ≤ i < BLOCKS_PER_CHUNK →
             in_slab (lfc_max_size st) (offset e) i.
Proof.
  apply (proj2 (cache_within_max_inmem (mkGucs 1024 128 512 0)
                  [Write (rel 1) 0 0 (page_of Byte.x61); Read (rel 1) 0 0;
                   Write (rel 2) 0 0 (page_of Byte.x62); Evict false (rel 1) 0 0]
                  ltac:(simpl; lia) ltac:(simpl; lia) ltac:(simpl; lia)
                  ltac:(simpl; lia) ltac:(repeat constructor)
                  ltac:(repeat constructor; simpl; lia))).
  simpl. lia.
Defined.

(** *** The memory monitor *)

Lemma shiftr_limit_range limit factor :
  0 ≤ limit < 2 ^ 31 → 0 ≤ factor →
  0 ≤ Z.shiftr limit factor ≤ limit ∧
  SIZE_MB_TO_CHUNKS (Z.shiftr limit factor) = Z.shiftr limit factor.
Proof.
  intros Hl Hf.
  assert (0 ≤ Z.shiftr limit factor ≤ limit) as Hr.
  { rewrite Z.shiftr_div_pow2 by done. split.
    - apply Z.div_pos; [lia|]. by apply Z.pow_pos_nonneg.
    - apply Z.div_le_upper_bound; [by apply Z.pow_pos_nonneg|].
      assert (1 ≤ 2 ^ factor) by (pose proof (Z.pow_pos_nonneg 2 factor); lia).
      nia. }
  split; [done|]. apply SIZE_MB_TO_CHUNKS_id. lia.
Qed.

(** A turn that finds less memory than the watermark moves the factor
    one up, to 31 at most, and shrinks the cache to the limit shifted
    right by the factor. *)
Lemma monitor_turn_low n interval si m :
  lfc_inv (mon_cache m) → below n (mon_cache m) → n + 1 < 2 ^ 32 →
  quiescent (mon_cache m) →
  0 < lfc_size_limit (mon_cache m) < 2 ^ 31 →
  lfc_free_memory_watermark m ≠ 0 →
  0 ≤ lfc_shrinking_factor m ≤ 31 →
  low_memory (lfc_free_memory_watermark m) si →
  ∃ st',
    monitor_turn true interval si m =
      Done (Some (mkMonitor st' (lfc_free_memory_watermark m)
                    (Z.min (lfc_shrinking_factor m + 1) 31)
                    (interval :: mon_sleeps m))) ∧
    lfc_inv st' ∧ below n st' ∧ quiescent st' ∧
    lfc_size_limit st' = lfc_size_limit (mon_cache m) ∧
    used_of st' ≤ used_of (mon_cache m) ∧
    used_of st' ≤ Z.shiftr (lfc_size_limit (mon_cache m))
                           (Z.min (lfc_shrinking_factor m + 1) 31).
Proof.
  intros Hinv Hb Hn Hq Hlim Hwm Hf [Hrc Hlow]. unfold monitor_turn.
  rewrite (proj2 (Z.eqb_neq _ _)) by lia.
  rewrite (proj2 (Z.eqb_neq _ _) Hwm). simpl.
  unfold get_available_memory. rewrite (proj2 (Z.ltb_ge _ _) Hrc).
  rewrite (proj2 (Z.ltb_lt _ _) Hlow).
  set (factor := if lfc_shrinking_factor m <? 31
                 then lfc_shrinking_factor m + 1 else lfc_shrinking_factor m).
  assert (Hfactor : factor = Z.min (lfc_shrinking_factor m + 1) 31).
  { unfold factor. destruct (_ <? 31) eqn:E; [apply Z.ltb_lt in E|apply Z.ltb_ge in E]; lia. }
  destruct (lfc_change_limit_hook_whole n true
              (Z.shiftr (lfc_size_limit (mon_cache m)) factor) (mon_cache m))
    as (st' & Hhook & Hq'); [done..|].
  destruct (lfc_change_limit_hook_inv n _ _ _ _ Hinv Hb ltac:(lia) Hhook) as [Hinv' Hb'].
  destruct (lfc_change_limit_hook_max_size _ _ _ _ Hhook) as [_ Hlim'].
  destruct (lfc_change_limit_hook_reaches n _ _ _ _ Hinv Hb Hn Hq Hhook) as [Hle Hmax].
  specialize (Hmax eq_refl).
  destruct (shiftr_limit_range (lfc_size_limit (mon_cache m)) factor) as [Hsr Hid];
    [lia|lia|].
  rewrite Hhook. simpl. rewrite <- Hfactor. exists st'. split_and!; try done.
  rewrite Hid in Hmax. lia.
Qed.

Lemma monitor_low_turns n interval turns : ∀ m,
  lfc_inv (mon_cache m) → below n (mon_cache m) → n + 1 < 2 ^ 32 →
  quiescent (mon_cache m) →
  0 < lfc_size_limit (mon_cache m) < 2 ^ 31 →
  lfc_free_memory_watermark m ≠ 0 →
  0 ≤ lfc_shrinking_factor m ≤ 31 →
  Forall (low_memory (lfc_free_memory_watermark m)) turns →
  ∃ m',
    FileCacheMonitorMain true interval turns m = Done (Some m') ∧
    lfc_shrinking_factor m' =
      Z.min (lfc_shrinking_factor m + Z.of_nat (length turns)) 31 ∧
    lfc_inv (mon_cache m') ∧
    lfc_size_limit (mon_cache m') = lfc_size_limit (mon_cache m) ∧
    used_of (mon_cache m') ≤ used_of (mon_cache m) ∧
    (turns ≠ [] →
     used_of (mon_cache m') ≤
       Z.shiftr (lfc_size_limit (mon_cache m)) (lfc_shrinking_factor m')) ∧
    mon_sleeps m' = replicate (length turns) interval ++ mon_sleeps m.
Proof.
  induction turns as [|si turns IH]; intros m Hinv Hb Hn Hq Hlim Hwm Hf Hall.
  { exists m. simpl. split_and!; try done; lia. }
  apply Forall_cons in Hall as [Hsi Hall].
  destruct (monitor_turn_low n interval si m)
    as (st1 & Hturn & Hinv1 & Hb1 & Hq1 & Hlim1 & Hle1 & Hused1); [done..|].
  set (m1 := mkMonitor st1 (lfc_free_memory_watermark m)
               (Z.min (lfc_shrinking_factor m + 1) 31) (interval :: mon_sleeps m)) in *.
  destruct (IH m1) as (m' & Hrun & Hf' & Hinv' & Hlim' & Hle' & Hused' & Hsl');
    [done|done|done|done|simpl; lia|done|simpl; lia|done|].
  simpl in *. exists m'. split_and!.
  - by rewrite Hturn.
  - rewrite Hf'. lia.
  - done.
  - congruence.
  - lia.
  - intros _. destruct turns as [|si' turns'].
    + simpl in Hrun. injection Hrun as <-. simpl. done.
    + rewrite <- Hlim1. apply Hused'. done.
  - rewrite Hsl'. by rewrite (cons_middle interval), app_assoc, <- replicate_cons_app.
Qed.

(** X9. The monitor under memory pressure, with no call in flight.
    From its start, every turn that finds less memory than
    [neon.free_memory_watermark] moves the shrinking factor one up, 31
    at most, and shrinks the cache to the limit shifted by it: the
    first turn halves the cache, the second quarters it, and after 31
    turns in a row the index is empty. The limit itself stays as it is,
    so the cache fills again. A turn that finds enough memory puts the
    factor back to 0 and leaves the cache alone; the error of
    [sysinfo] ends the worker. Between two turns the worker sleeps
    [monitor_interval], which is 0 for the free space watermark the
    file has. *)
Theorem monitor_shrinks_under_pressure watermark turns st :
  reachable st → quiescent st →
  0 < lfc_size_limit st < 2 ^ 31 → watermark ≠ 0 →
  (Forall (low_memory watermark) turns →
   ∃ m,
     FileCacheMonitorMain true (monitor_interval lfc_free_space_watermark) turns
       (monitor_start watermark st) = Done (Some m) ∧
     lfc_shrinking_factor m = Z.min (Z.of_nat (length turns)) 31 ∧
     lfc_size_limit (mon_cache m) = lfc_size_limit st ∧
     used_of (mon_cache m) ≤ used_of st ∧
     (turns ≠ [] →
      used_of (mon_cache m) ≤
        Z.shiftr (lfc_size_limit st) (Z.min (Z.of_nat (length turns)) 31)) ∧
     (31 ≤ Z.of_nat (length turns) → lfc_hash (mon_cache m) = ∅) ∧
     mon_sleeps m = replicate (length turns) 0) ∧
  (∀ si factor sleeps,
     0 ≤ si_rc si → ¬ low_memory watermark si →
     monitor_turn true (monitor_interval lfc_free_space_watermark) si
       (mkMonitor st watermark factor sleeps) =
     Done (Some (mkMonitor st watermark 0 (0 :: sleeps)))) ∧
  (∀ si factor sleeps,
     si_rc si < 0 →
     monitor_turn true (monitor_interval lfc_free_space_watermark) si
       (mkMonitor st watermark factor sleeps) = Done None).
Proof.
  intros (n & Hinv & Hb & Hn & _)%reachable_inv Hq Hlim Hwm. split_and!.
  - intros Hall.
    destruct (monitor_low_turns n (monitor_interval lfc_free_space_watermark)
                turns (monitor_start watermark st))
      as (m & Hrun & Hf & Hinv' & Hlim' & Hle & Hused & Hsl);
      [done|done|lia|done|done|done|simpl; lia|done|].
    change (lfc_shrinking_factor (monitor_start watermark st)) with 0 in Hf.
    rewrite Z.add_0_l in Hf.
    change (mon_cache (monitor_start watermark st)) with st in *.
    change (mon_sleeps (monitor_start watermark st)) with (@nil Z) in Hsl.
    exists m. split_and!; try done.
    + intros Hne. rewrite <- Hf. by apply Hused.
    + intros Hlen. destruct turns as [|si turns]; [simpl in Hlen; lia|].
      specialize (Hused ltac:(done)). rewrite Hf in Hused.
      rewrite Z.min_r in Hused by lia.
      rewrite Z.shiftr_div_pow2, Z.div_small in Hused by lia.
      destruct Hinv' as [_ _ Hu _ _]. unfold used_of in Hused.
      apply map_size_empty_iff. lia.
    + rewrite Hsl. by rewrite app_nil_r.
  - intros si factor sleeps Hrc Hnl. unfold monitor_turn. simpl.
    rewrite (proj2 (Z.eqb_neq _ _)) by lia.
    rewrite (proj2 (Z.eqb_neq _ _) Hwm). simpl.
    unfold get_available_memory. rewrite (proj2 (Z.ltb_ge _ _) Hrc).
    destruct (_ <? _) eqn:E; [|done].
    apply Z.ltb_lt in E. exfalso. apply Hnl. by split.
  - intros si factor sleeps Hrc. unfold monitor_turn. simpl.
    rewrite (proj2 (Z.eqb_neq _ _)) by lia.
    rewrite (proj2 (Z.eqb_neq _ _) Hwm). simpl.
    unfold get_available_memory. by rewrite (proj2 (Z.ltb_lt _ _) Hrc).
Qed.

Lemma monitor_shrinks_under_pressure_witness :
  ∃ m,
    FileCacheMonitorMain true (monitor_interval lfc_free_space_watermark)
      [mkSysinfo 0 1024 1024] (monitor_start 64 two_chunk_state) = Done (Some m) ∧
    lfc_shrinking_factor m = Z.min (Z.of_nat (length [mkSysinfo 0 1024 1024])) 31 ∧
    lfc_size_limit (mon_cache m) = lfc_size_limit two_chunk_state ∧
    used_of (mon_cache m) ≤ used_of two_chunk_state ∧
    ([mkSysinfo 0 1024 1024] ≠ [] →
     used_of (mon_cache m) ≤
       Z.shiftr (lfc_size_limit two_chunk_state)
                (Z.min (Z.of_nat (length [mkSysinfo 0 1024 1024])) 31)) ∧
    (31 ≤ Z.of_nat (length [mkSysinfo 0 1024 1024]) → lfc_hash (mon_cache m) = ∅) ∧
    mon_sleeps m = replicate (length [mkSysinfo 0 1024 1024]) 0.
Proof.
  apply (proj1 (monitor_shrinks_under_pressure 64 [mkSysinfo 0 1024 1024]
                  two_chunk_state two_chunk_state_reachable
                  two_chunk_state_quiescent
                  ltac:(simpl; lia) ltac:(lia))).
  repeat constructor; simpl; vm_compute; done.
Defined.

(** *** The listing of the cache *)

Lemma uint32_add_l a b : uint32 (uint32 a + b) = uint32 (a + b).
Proof. unfold uint32. apply Zplus_mod_idemp_l. Qed.

Lemma count_chunk_spec entry n_pages :
  0 ≤ n_pages < 2 ^ 32 →
  count_chunk entry n_pages =
    uint32 (n_pages + Z.of_nat (length (cached_offsets entry))).
Proof.
  unfold count_chunk, cached_offsets. revert n_pages.
  induction (seqZ 0 BLOCKS_PER_CHUNK) as [|i l IH]; intros n Hn; simpl.
  - rewrite Z.add_0_r. symmetry. by apply uint32_small.
  - rewrite IH by apply uint32_range. rewrite uint32_add_l, filter_cons.
    destruct (bitmap_test (bitmap entry) i) eqn:E.
    + rewrite decide_True by done. simpl length. f_equal. lia.
    + rewrite decide_False by done. f_equal. lia.
Qed.

Lemma count_pages_spec entries :
  count_pages entries = uint32 (Z.of_nat (length (fill_records entries))).
Proof.
  unfold count_pages, fill_records.
  assert (Hgen : ∀ n, 0 ≤ n < 2 ^ 32 →
    foldl (λ n_pages '(_, entry), count_chunk entry n_pages) n entries =
    uint32 (n + Z.of_nat (length
      (entries ≫= (λ '(key, entry), page_record key entry <$> cached_offsets entry))))).
  { induction entries as [|[k e] entries IH]; intros n Hn.
    - simpl. rewrite Z.add_0_r. symmetry. by apply uint32_small.
    - cbn [foldl]. rewrite count_chunk_spec by done.
      rewrite IH by apply uint32_range.
      rewrite bind_cons, uint32_add_l, length_app, length_fmap. f_equal. lia. }
  by rewrite Hgen by lia.
Qed.

Lemma length_cached_offsets entry :
  Z.of_nat (length (cached_offsets entry)) ≤ BLOCKS_PER_CHUNK.
Proof.
  unfold cached_offsets.
  pose proof (length_filter (λ i, bitmap_test (bitmap entry) i = true)
                (seqZ 0 BLOCKS_PER_CHUNK)) as Hle.
  rewrite length_seqZ in Hle. unfold BLOCKS_PER_CHUNK in *. lia.
Qed.

Lemma length_fill_records entries :
  Z.of_nat (length (fill_records entries)) ≤
    BLOCKS_PER_CHUNK * Z.of_nat (length entries).
Proof.
  unfold fill_records. induction entries as [|[k e] entries IH]; [simpl; lia|].
  rewrite bind_cons, length_app, length_fmap.
  pose proof (length_cached_offsets e). simpl length. lia.
Qed.

Lemma elem_of_cached_offsets entry i :
  i ∈ cached_offsets entry ↔
  bitmap_test (bitmap entry) i = true ∧ 0 ≤ i < BLOCKS_PER_CHUNK.
Proof.
  unfold cached_offsets. rewrite list_elem_of_filter, elem_of_seqZ.
  unfold BLOCKS_PER_CHUNK. split; intros [? ?]; (split; [done|lia]).
Qed.

Lemma elem_of_fill_records st r :
  r ∈ fill_records (map_to_list (lfc_hash st)) ↔
  ∃ k e i, lfc_hash st !! k = Some e ∧
           bitmap_test (bitmap e) i = true ∧ 0 ≤ i < BLOCKS_PER_CHUNK ∧
           r = page_record k e i.
Proof.
  unfold fill_records. rewrite list_elem_of_bind. split.
  - intros ([k e] & Hr & Hke). apply elem_of_map_to_list in Hke.
    apply list_elem_of_fmap in Hr as (i & -> & Hi).
    apply elem_of_cached_offsets in Hi as [? ?]. by exists k, e, i.
  - intros (k & e & i & Hke & Hbit & Hi & ->). exists (k, e). split.
    + apply list_elem_of_fmap. exists i. split; [done|].
      by apply elem_of_cached_offsets.
    + by apply elem_of_map_to_list.
Qed.

Lemma list_fmap_of_bind {A B C} (f : B → C) (g : A → list B) (l : list A) :
  f <$> (l ≫= g) = l ≫= (λ x, f <$> g x).
Proof.
  induction l as [|x l IH]; [done|]. by rewrite !bind_cons, fmap_app, IH.
Qed.

(** The first block of a chunk leaves room for the chunk below 2^32. *)
Lemma aligned_block_room k :
  chunk_offs_of (blockNum k) = 0 → 0 ≤ blockNum k < 2 ^ 32 →
  blockNum k + BLOCKS_PER_CHUNK ≤ 2 ^ 32.
Proof.
  unfold chunk_offs_of, BLOCKS_PER_CHUNK. change (128 - 1) with (Z.ones 7).
  rewrite Z.land_ones by lia. intros Hal Hr.
  pose proof (Z.div_mod (blockNum k) (2 ^ 7) ltac:(lia)) as Hdm.
  assert (blockNum k `div` 2 ^ 7 < 2 ^ 25)
    by (apply Z.div_lt_upper_bound; lia).
  lia.
Qed.

(** X10. [local_cache_pages] lists the index: in a state reached by
    a schedule on which the list contract held, called for a row type
    of seven columns on a cache of fewer than 2^25 chunks, the first
    call stores one record for every bit set in the index, as many as
    the first scan counted; a page has a record exactly when its chunk
    is in the index with the bit of the page set, and no two records
    name the same page. The function does not read [lfc_size_limit]:
    when the limit of the calling process is not 0 the pages listed are
    those that [lfc_cache_contains] tells of, and when it is 0
    [lfc_cache_contains] tells of none, whatever the index holds. The
    later calls hand the records out in their order and end after the
    last. With another result type the first call raises before it
    looks at the cache. *)
Theorem local_cache_pages_lists_the_cache st :
  reachable st → used_of st < 2 ^ 25 →
  ∃ record,
    local_cache_pages_first_call true NUM_LOCALCACHE_PAGES_ELEM st =
      Records (Z.of_nat (length record)) record ∧
    (∀ rn fork blkno, 0 ≤ blkno < 2 ^ 32 →
       ((∃ e, lfc_hash st !! chunk_tag rn fork blkno = Some e ∧
              bitmap_test (bitmap e) (chunk_offs_of blkno) = true) ↔
        ∃ r, r ∈ record ∧
             relfilenode r = relNode rn ∧ reltablespace r = spcNode rn ∧
             reldatabase r = dbNode rn ∧ forknum r = fork ∧ blocknum r = blkno)) ∧
    (∀ rn fork blkno, 0 ≤ blkno < 2 ^ 32 →
       if lfc_size_limit st =? 0
       then lfc_cache_contains rn fork blkno st = false
       else lfc_cache_contains rn fork blkno st = true ↔
            ∃ r, r ∈ record ∧
                 relfilenode r = relNode rn ∧ reltablespace r = spcNode rn ∧
                 reldatabase r = dbNode rn ∧ forknum r = fork ∧ blocknum r = blkno) ∧
    NoDup ((λ r, (relfilenode r, reltablespace r, reldatabase r,
                  forknum r, blocknum r)) <$> record) ∧
    (∀ call_cntr, 0 ≤ call_cntr →
       local_cache_pages_row (Z.of_nat (length record)) record call_cntr =
         row_values <$> record !! Z.to_nat call_cntr) ∧
    (∀ natts, local_cache_pages_first_call false natts st = NotARowType) ∧
    (∀ natts, natts ≠ NUM_LOCALCACHE_PAGES_ELEM →
       local_cache_pages_first_call true natts st = WrongNumberOfArguments).
Proof.
  intros (n & Hinv & Hb & Hn & Hs & Hkt)%reachable_inv Hused.
  pose proof Hs as [Hal Hbm _ _ _].
  set (record := fill_records (map_to_list (lfc_hash st))).
  assert (Hlen : Z.of_nat (length record) < 2 ^ 32).
  { pose proof (length_fill_records (map_to_list (lfc_hash st))) as Hle.
    rewrite length_map_to_list in Hle.
    destruct Hinv as [_ _ Hu _ _]. unfold used_of in Hused. rewrite Hu in Hused.
    fold record in Hle. unfold BLOCKS_PER_CHUNK in Hle. lia. }
  (* the page a record stands for *)
  assert (Hpage : ∀ k e i,
    lfc_hash st !! k = Some e → 0 ≤ i < BLOCKS_PER_CHUNK →
    blocknum (page_record k e i) = blockNum k + i ∧
    chunk_tag (rnode k) (forkNum k) (blockNum k + i) = k ∧
    chunk_offs_of (blockNum k + i) = i).
  { intros k e i Hk Hi.
    pose proof (aligned_block_room k (Hal _ _ Hk) (Hkt _ _ Hk)) as Hroom.
    pose proof (Hkt _ _ Hk) as Hrange.
    split; [|by apply chunk_tag_of_page; [eapply Hal|]].
    simpl. apply uint32_small. lia. }
  assert (Hlisted : ∀ rn fork blkno, 0 ≤ blkno < 2 ^ 32 →
    ((∃ e, lfc_hash st !! chunk_tag rn fork blkno = Some e ∧
           bitmap_test (bitmap e) (chunk_offs_of blkno) = true) ↔
     ∃ r, r ∈ record ∧
          relfilenode r = relNode rn ∧ reltablespace r = spcNode rn ∧
          reldatabase r = dbNode rn ∧ forknum r = fork ∧ blocknum r = blkno)).
  { intros rn fork blkno Hblk. split.
    + intros (e & He & Hbit).
      exists (page_record (chunk_tag rn fork blkno) e (chunk_offs_of blkno)).
      split_and!; try done.
      * apply elem_of_fill_records.
        exists (chunk_tag rn fork blkno), e, (chunk_offs_of blkno).
        pose proof (chunk_offs_range blkno). done.
      * unfold page_record. cbn [blocknum].
        rewrite chunk_block_split. apply uint32_small. lia.
    + intros (r & Hr & Hrel & Hspc & Hdb & Hfork & Hblock).
      apply elem_of_fill_records in Hr as (k & e & i & Hk & Hbit & Hi & ->).
      destruct (Hpage k e i Hk Hi) as (Hbn & Htag & Hoffs).
      rewrite Hbn in Hblock. simpl in Hrel, Hspc, Hdb, Hfork.
      assert (rnode k = rn) as <-.
      { destruct (rnode k), rn. simpl in *. congruence. }
      rewrite <- Hfork, <- Hblock, Htag, Hoffs. eauto. }
  exists record. split_and!.
  - unfold local_cache_pages_first_call. simpl.
    rewrite count_pages_spec. fold record.
    rewrite uint32_small by lia. by rewrite Z.leb_refl.
  - done.
  - intros rn fork blkno Hblk. unfold lfc_cache_contains.
    destruct (lfc_size_limit st =? 0); [done|].
    rewrite <- (Hlisted rn fork blkno Hblk).
    destruct (lfc_hash st !! chunk_tag rn fork blkno) as [e|]; [|naive_solver].
    split; [eauto|]. by intros (e' & [= <-] & ?).
  - unfold record, fill_records. rewrite list_fmap_of_bind.
    apply NoDup_bind.
    + intros [k1 e1] [k2 e2] y H1 H2 Hy1 Hy2. cbn beta iota in Hy1, Hy2.
      apply elem_of_map_to_list in H1, H2.
      apply list_elem_of_fmap in Hy1 as (r1 & -> & Hr1).
      apply list_elem_of_fmap in Hr1 as (i1 & -> & Hi1).
      apply list_elem_of_fmap in Hy2 as (r2 & Heq & Hr2).
      apply list_elem_of_fmap in Hr2 as (i2 & -> & Hi2).
      apply elem_of_cached_offsets in Hi1 as [_ Hi1].
      apply elem_of_cached_offsets in Hi2 as [_ Hi2].
      destruct (Hpage k1 e1 i1 H1 Hi1) as (Hb1 & Ht1 & _).
      destruct (Hpage k2 e2 i2 H2 Hi2) as (Hb2 & Ht2 & _).
      injection Heq as Hrel Hspc Hdb Hfork Hblock.
      change (blocknum (page_record k1 e1 i1) = blocknum (page_record k2 e2 i2))
        in Hblock.
      rewrite Hb1, Hb2 in Hblock.
      assert (rnode k1 = rnode k2) as Hrn.
      { destruct (rnode k1), (rnode k2). simpl in *. congruence. }
      assert (k1 = k2) as <-.
      { rewrite <- Ht1, <- Ht2. by rewrite Hrn, Hfork, Hblock. }
      f_equal. congruence.
    + intros [k e] Hke. apply elem_of_map_to_list in Hke. cbn beta iota.
      rewrite <- list_fmap_compose. apply NoDup_fmap_2_strong.
      * intros i1 i2 Hi1 Hi2. simpl. intros [= Hblock].
        change (blocknum (page_record k e i1) = blocknum (page_record k e i2))
          in Hblock.
        apply elem_of_cached_offsets in Hi1 as [_ Hi1].
        apply elem_of_cached_offsets in Hi2 as [_ Hi2].
        destruct (Hpage k e i1 Hke Hi1) as (Hb1 & _).
        destruct (Hpage k e i2 Hke Hi2) as (Hb2 & _).
        lia.
      * apply NoDup_filter, NoDup_seqZ.
    + apply NoDup_map_to_list.
  - intros call_cntr Hc. unfold local_cache_pages_row.
    destruct (call_cntr <? _) eqn:E; [done|].
    apply Z.ltb_ge in E. rewrite lookup_ge_None_2; [done|lia].
  - done.
  - intros natts Hne. unfold local_cache_pages_first_call. simpl.
    by rewrite (proj2 (Z.eqb_neq _ _) Hne).
Qed.

Lemma local_cache_pages_lists_the_cache_witness :
  ∃ record,
    local_cache_pages_first_call true NUM_LOCALCACHE_PAGES_ELEM two_chunk_state =
      Records (Z.of_nat (length record)) record ∧
    (∀ rn fork blkno, 0 ≤ blkno < 2 ^ 32 →
       ((∃ e, lfc_hash two_chunk_state !! chunk_tag rn fork blkno = Some e ∧
              bitmap_test (bitmap e) (chunk_offs_of blkno) = true) ↔
        ∃ r, r ∈ record ∧
             relfilenode r = relNode rn ∧ reltablespace r = spcNode rn ∧
             reldatabase r = dbNode rn ∧ forknum r = fork ∧ blocknum r = blkno)) ∧
    (∀ rn fork blkno, 0 ≤ blkno < 2 ^ 32 →
       if lfc_size_limit two_chunk_state =? 0
       then lfc_cache_contains rn fork blkno two_chunk_state = false
       else lfc_cache_contains rn fork blkno two_chunk_state = true ↔
            ∃ r, r ∈ record ∧
                 relfilenode r = relNode rn ∧ reltablespace r = spcNode rn ∧
                 reldatabase r = dbNode rn ∧ forknum r = fork ∧ blocknum r = blkno) ∧
    NoDup ((λ r, (relfilenode r, reltablespace r, reldatabase r,
                  forknum r, blocknum r)) <$> record) ∧
    (∀ call_cntr, 0 ≤ call_cntr →
       local_cache_pages_row (Z.of_nat (length record)) record call_cntr =
         row_values <$> record !! Z.to_nat call_cntr) ∧
    (∀ natts, local_cache_pages_first_call false natts two_chunk_state = NotARowType) ∧
    (∀ natts, natts ≠ NUM_LOCALCACHE_PAGES_ELEM →
       local_cache_pages_first_call true natts two_chunk_state =
         WrongNumberOfArguments).
Proof.
  apply (local_cache_pages_lists_the_cache two_chunk_state
           two_chunk_state_reachable).
  vm_compute. reflexivity.
Defined.

(** With the limit at 0 in the calling process and a pinned chunk left
    in the index, [lfc_cache_contains] tells of no page and
    [local_cache_pages] lists the page of the chunk. *)
Example local_cache_pages_at_limit_zero :
  let st := run [Write (rel 1) 0 0 (page_of Byte.x61); ReadBegin (rel 1) 0 0;
                 AssignSizeLimit 0] (lfc_shmem_startup 4 2) in
  observe lfc_size_limit st = Some 0 ∧
  observe (lfc_cache_contains (rel 1) 0 0) st = Some false ∧
  observe (λ s, match local_cache_pages_first_call true
                        NUM_LOCALCACHE_PAGES_ELEM s with
                | Records n_pages record => Some (n_pages, blocknum <$> record)
                | _ => None
                end) st = Some (Some (1, [0])).
Proof. vm_compute. done. Qed.

End LFC_Extra.
(** * Further properties of the page-store client *)

Module PSC_Extra.
Import PSC PSC_Theory.

Section shard_map_text.
Context `{pagestore_client_h}.

(** *** Parsing the setting *)

Lemma length_string_append s t :
  String.length (String.append s t) = (String.length s + String.length t)%nat.
Proof. induction s as [|c s IH]; simpl; [done|]. by rewrite IH. Qed.

Lemma strchr_comma_item s rest :
  comma_free s = true →
  strchr_comma (String.append s (String ","%char rest)) = (s, Some rest).
Proof.
  induction s as [|c s IH]; simpl; [done|].
  intros [Hc Hs]%andb_true_iff. apply negb_true_iff in Hc. rewrite Hc.
  by rewrite IH.
Qed.

Lemma strchr_comma_last s :
  comma_free s = true → strchr_comma s = (s, None).
Proof.
  induction s as [|c s IH]; simpl; [done|].
  intros [Hc Hs]%andb_true_iff. apply negb_true_iff in Hc. rewrite Hc.
  by rewrite IH.
Qed.

(** What [strchr] cuts off holds no comma. *)
Lemma strchr_comma_free p : comma_free (strchr_comma p).1 = true.
Proof.
  induction p as [|c p IH]; simpl; [done|].
  destruct (Ascii.eqb c ","%char) eqn:E; [done|].
  destruct (strchr_comma p) as [a r]. simpl in *. by rewrite E, IH.
Qed.

Lemma join_commas_cons s s' rest :
  join_commas (s :: s' :: rest) =
  String.append s (String ","%char (join_commas (s' :: rest))).
Proof. done. Qed.

(** The loop on a list of strings joined by commas: it takes them one
    by one, and a last string that is empty is the trailing comma it
    ignores. *)
Lemma ParseShardMap_loop_join items : ∀ fuel nshards acc,
  Forall fits_row items →
  nshards + Z.of_nat (length items) ≤ MAX_SHARDS →
  (last items ≠ Some EmptyString →
   (String.length (join_commas items) < fuel)%nat →
   ParseShardMap_loop fuel (join_commas items) nshards acc =
     Parsed (mkShardMap (acc ++ items) (nshards + Z.of_nat (length items)))) ∧
  ((String.length (join_commas (items ++ [EmptyString])) < fuel)%nat →
   ParseShardMap_loop fuel (join_commas (items ++ [EmptyString])) nshards acc =
     Parsed (mkShardMap (acc ++ items) (nshards + Z.of_nat (length items)))).
Proof.
  induction items as [|s items IH]; intros fuel nshards acc Hfit Hmax.
  { simpl. split; intros; (destruct fuel; [lia|]); simpl;
      by rewrite app_nil_r, Z.add_0_r. }
  apply Forall_cons in Hfit as [[Hcf Hlen] Hfit].
  change (length (s :: items)) with (S (length items)) in *.
  rewrite Nat2Z.inj_succ in *.
  assert (Hstep : ∀ fuel' rest,
    ParseShardMap_loop (S fuel') (String.append s (String ","%char rest)) nshards acc =
    ParseShardMap_loop fuel' rest (nshards + 1) (acc ++ [s])).
  { intros fuel' rest. simpl. rewrite strchr_comma_item by done.
    rewrite andb_false_r.
    rewrite (proj2 (Z.leb_gt _ _)) by lia.
    by rewrite (proj2 (Z.leb_gt _ _)) by lia. }
  destruct items as [|s' items].
  - split.
    + intros Hlast Hfuel. destruct fuel; [lia|]. simpl.
      rewrite strchr_comma_last by done.
      assert (String.length s ≠ 0%nat) by (destruct s; [by destruct Hlast|done]).
      rewrite (proj2 (Z.eqb_neq _ _)) by lia. simpl.
      rewrite (proj2 (Z.leb_gt _ _)) by lia.
      by rewrite (proj2 (Z.leb_gt _ _)) by lia.
    + intros Hfuel. change (join_commas ([s] ++ [EmptyString]))
        with (String.append s (String ","%char EmptyString)) in *.
      rewrite length_string_append in Hfuel. simpl in Hfuel.
      destruct fuel; [lia|]. rewrite Hstep.
      destruct fuel; [lia|]. simpl. f_equal; f_equal; lia.
  - destruct (IH (pred fuel) (nshards + 1) (acc ++ [s]) Hfit ltac:(simpl length in *; lia))
      as [IH1 IH2].
    split.
    + intros Hlast Hfuel. rewrite join_commas_cons in *.
      rewrite length_string_append in Hfuel. simpl in Hfuel.
      destruct fuel; [lia|]. rewrite Hstep. simpl pred in IH1.
      rewrite IH1; [|done|simpl in *; lia].
      rewrite <- app_assoc. simpl. f_equal; f_equal; lia.
    + intros Hfuel.
      change (join_commas ((s :: s' :: items) ++ [EmptyString]))
        with (String.append s (String ","%char
                (join_commas ((s' :: items) ++ [EmptyString])))) in *.
      rewrite length_string_append in Hfuel. simpl in Hfuel.
      destruct fuel; [lia|]. rewrite Hstep. simpl pred in IH2.
      rewrite IH2 by (simpl in *; lia).
      rewrite <- app_assoc. simpl. f_equal; f_equal; lia.
Qed.

(** X11. [ParseShardMap] takes apart what the commas join. A list of
    at most [MAX_SHARDS] connection strings without comma, each shorter
    than [MAX_PAGESERVER_CONNSTRING_SIZE] and the last not empty, joined
    by commas, is accepted by [CheckPageserverConnstring] and parsed
    into that list, in order, with [num_shards] its length and the rows
    left over empty; a comma after the last string changes nothing. *)
Theorem ParseShardMap_join_commas items :
  Forall fits_row items → Z.of_nat (length items) ≤ MAX_SHARDS →
  last items ≠ Some EmptyString →
  ParseShardMap (join_commas items) =
    Parsed (pad_connstrings (mkShardMap items (Z.of_nat (length items)))) ∧
  ParseShardMap (join_commas (items ++ [EmptyString])) =
    Parsed (pad_connstrings (mkShardMap items (Z.of_nat (length items)))) ∧
  CheckPageserverConnstring (join_commas items) = true ∧
  (∀ i s, items !! i = Some s →
     connstring (pad_connstrings (mkShardMap items (Z.of_nat (length items)))) !! i
       = Some s).
Proof.
  intros Hfit Hmax Hlast.
  destruct (ParseShardMap_loop_join items
              (S (String.length (join_commas items))) 0 [] Hfit ltac:(lia))
    as [H1 _].
  destruct (ParseShardMap_loop_join items
              (S (String.length (join_commas (items ++ [EmptyString])))) 0 [] Hfit
              ltac:(lia)) as [_ H2].
  assert (Hp : ParseShardMap (join_commas items) =
    Parsed (pad_connstrings (mkShardMap items (Z.of_nat (length items))))).
  { unfold ParseShardMap. rewrite H1 by (done || lia). done. }
  split_and!.
  - done.
  - unfold ParseShardMap. rewrite H2 by lia. done.
  - unfold CheckPageserverConnstring. by rewrite Hp.
  - intros i s Hi. unfold pad_connstrings. simpl.
    by apply lookup_app_l_Some.
Qed.

(** The loop refuses a list that is too long or holds a string that is
    too long. *)
Lemma ParseShardMap_loop_rejects items : ∀ fuel nshards acc,
  Forall (λ s, comma_free s = true) items →
  last items ≠ Some EmptyString →
  (String.length (join_commas items) < fuel)%nat →
  MAX_SHARDS < nshards + Z.of_nat (length items) ∨
  Exists (λ s, MAX_PAGESERVER_CONNSTRING_SIZE ≤ Z.of_nat (String.length s)) items →
  nshards ≤ MAX_SHARDS →
  ParseShardMap_loop fuel (join_commas items) nshards acc = Rejected.
Proof.
  induction items as [|s items IH]; intros fuel nshards acc Hcf Hlast Hfuel Hbad Hn.
  { destruct Hbad as [Hbad|Hbad]; [simpl in Hbad; lia|by apply Exists_nil in Hbad]. }
  apply Forall_cons in Hcf as [Hs Hcf].
  change (length (s :: items)) with (S (length items)) in *.
  rewrite Nat2Z.inj_succ in *.
  destruct fuel; [lia|].
  destruct items as [|s' items].
  - simpl. rewrite strchr_comma_last by done.
    assert (String.length s ≠ 0%nat) by (destruct s; [by destruct Hlast|done]).
    rewrite (proj2 (Z.eqb_neq _ _)) by lia. simpl.
    destruct (MAX_SHARDS <=? nshards) eqn:E1; [done|]. apply Z.leb_gt in E1.
    destruct (MAX_PAGESERVER_CONNSTRING_SIZE <=? _) eqn:E2; [done|].
    apply Z.leb_gt in E2. exfalso.
    destruct Hbad as [Hbad|Hbad]; [simpl in Hbad; lia|].
    apply Exists_cons in Hbad as [?|Hbad]; [lia|by apply Exists_nil in Hbad].
  - rewrite join_commas_cons in *.
    rewrite length_string_append in Hfuel. simpl in Hfuel.
    cbn [ParseShardMap_loop]. rewrite strchr_comma_item by done.
    rewrite andb_false_r.
    destruct (MAX_SHARDS <=? nshards) eqn:E1; [done|]. apply Z.leb_gt in E1.
    destruct (MAX_PAGESERVER_CONNSTRING_SIZE <=? _) eqn:E2; [done|].
    apply Z.leb_gt in E2.
    apply IH; [done|done|simpl in *; lia| |lia].
    destruct Hbad as [Hbad|Hbad]; [left; simpl length in *; lia|].
    apply Exists_cons in Hbad as [?|Hbad]; [lia|by right].
Qed.

(** X12. [ParseShardMap] refuses more than [MAX_SHARDS] connection
    strings, and any connection string of
    [MAX_PAGESERVER_CONNSTRING_SIZE] characters or more:
    [CheckPageserverConnstring] returns false for such a setting, and
    [AssignPageserverConnstring], were it given the value all the same,
    raises and leaves the shared map as it is. *)
Theorem ParseShardMap_rejects items shm :
  Forall (λ s, comma_free s = true) items →
  last items ≠ Some EmptyString →
  MAX_SHARDS < Z.of_nat (length items) ∨
  Exists (λ s, MAX_PAGESERVER_CONNSTRING_SIZE ≤ Z.of_nat (String.length s)) items →
  ParseShardMap (join_commas items) = Rejected ∧
  CheckPageserverConnstring (join_commas items) = false ∧
  AssignPageserverConnstring (join_commas items) shm = None.
Proof.
  intros Hcf Hlast Hbad.
  assert (Hp : ParseShardMap (join_commas items) = Rejected).
  { unfold ParseShardMap.
    rewrite (ParseShardMap_loop_rejects items); [done|done|done|lia| |].
    - destruct Hbad; [left; lia|by right].
    - pose proof shards_fit. lia. }
  unfold CheckPageserverConnstring, AssignPageserverConnstring. by rewrite Hp.
Qed.

End shard_map_text.

Lemma ParseShardMap_join_commas_witness :
  ParseShardMap (H := sample_header) (join_commas two_pageservers) =
    Parsed (pad_connstrings (H := sample_header)
              (mkShardMap two_pageservers (Z.of_nat (length two_pageservers)))) ∧
  ParseShardMap (H := sample_header)
    (join_commas (two_pageservers ++ [EmptyString])) =
    Parsed (pad_connstrings (H := sample_header)
              (mkShardMap two_pageservers (Z.of_nat (length two_pageservers)))) ∧
  CheckPageserverConnstring (H := sample_header) (join_commas two_pageservers) = true ∧
  (∀ i s, two_pageservers !! i = Some s →
     connstring (pad_connstrings (H := sample_header)
                   (mkShardMap two_pageservers (Z.of_nat (length two_pageservers))))
       !! i = Some s).
Proof.
  apply (ParseShardMap_join_commas (H := sample_header) two_pageservers).
  - repeat constructor; simpl; lia.
  - simpl. lia.
  - discriminate.
Defined.

Lemma ParseShardMap_rejects_witness :
  ParseShardMap (H := sample_header)
    (join_commas (replicate 129 "h"%string)) = Rejected ∧
  CheckPageserverConnstring (H := sample_header)
    (join_commas (replicate 129 "h"%string)) = false ∧
  AssignPageserverConnstring (H := sample_header)
    (join_commas (replicate 129 "h"%string))
    (mkShmem 0 0 (empty_shard_map (H := sample_header))) = None.
Proof.
  apply (ParseShardMap_rejects (H := sample_header) (replicate 129 "h"%string)).
  - apply Forall_replicate. reflexivity.
  - vm_compute. discriminate.
  - left. vm_compute. reflexivity.
Defined.

Section shared_map.
Context `{pagestore_client_h}.

(** *** The shard map in shared memory *)

Lemma ParseShardMap_loop_rows fuel : ∀ p nshards acc m,
  ParseShardMap_loop fuel p nshards acc = Parsed m →
  Forall fits_row acc → nshards = Z.of_nat (length acc) → nshards ≤ MAX_SHARDS →
  Forall fits_row (connstring m) ∧
  num_shards m = Z.of_nat (length (connstring m)) ∧
  num_shards m ≤ MAX_SHARDS.
Proof.
  induction fuel as [|fuel IH]; intros p nshards acc m; simpl; [done|].
  destruct (strchr_comma p) as [item sep] eqn:Hp.
  pose proof (strchr_comma_free p) as Hcf. rewrite Hp in Hcf. simpl in Hcf.
  destruct (_ && _); [by intros [= <-]|].
  destruct (MAX_SHARDS <=? nshards) eqn:E1; [done|]. apply Z.leb_gt in E1.
  destruct (MAX_PAGESERVER_CONNSTRING_SIZE <=? _) eqn:E2; [done|].
  apply Z.leb_gt in E2.
  assert (Hacc : ∀ acc, Forall fits_row acc → Forall fits_row (acc ++ [item])).
  { intros acc0 Hacc0. apply Forall_app. split; [done|]. by repeat constructor. }
  destruct sep as [p'|].
  - intros Hloop Hfit -> _. eapply IH; [done|by apply Hacc| |lia].
    rewrite length_app. simpl. lia.
  - intros [= <-] Hfit -> _. simpl. split_and!; [by apply Hacc| |lia].
    rewrite length_app. simpl. lia.
Qed.

Lemma ParseShardMap_well_formed connstr m :
  ParseShardMap connstr = Parsed m → well_formed m.
Proof.
  unfold ParseShardMap.
  destruct (ParseShardMap_loop _ _ _ _) as [m0| |] eqn:Hloop; [|done..].
  intros [= <-].
  destruct (ParseShardMap_loop_rows _ _ _ _ _ Hloop) as (Hfit & Hnum & Hmax);
    [done|done|pose proof shards_fit; lia|].
  unfold well_formed, pad_connstrings. simpl. rewrite Hnum, Nat2Z.id.
  split_and!.
  - lia.
  - lia.
  - rewrite length_app, length_replicate. lia.
  - intros i Hi. destruct (lookup_lt_is_Some_2 (connstring m0) i Hi) as [s Hs].
    exists s. split; [by apply lookup_app_l_Some|].
    by eapply (proj1 (Forall_lookup _ _) Hfit).
  - intros i Hge Hlt. rewrite lookup_app_r by done.
    apply lookup_replicate_2. lia.
Qed.

Lemma ShardMap_eq m m' :
  connstring m = connstring m' → num_shards m = num_shards m' → m = m'.
Proof. destruct m, m'. simpl. by intros -> ->. Qed.

(** What one assignment leaves. *)
Lemma AssignPageserverConnstring_spec newval shm shm' :
  AssignPageserverConnstring newval shm = Some shm' →
  ParseShardMap newval = Parsed (shard_map shm') ∧
  ((shm' = shm) ∨
   (shard_map shm' ≠ shard_map shm ∧
    begin_update_counter shm' = uint64 (begin_update_counter shm + 1) ∧
    end_update_counter shm' = uint64 (end_update_counter shm + 1))).
Proof.
  unfold AssignPageserverConnstring.
  destruct (ParseShardMap newval) as [m| |]; [|done..].
  case_bool_decide as Heq.
  - intros [= <-]. destruct Heq as [Hc Hn]. split; [|by left].
    f_equal. symmetry. by apply ShardMap_eq.
  - intros [= <-]. simpl. split; [done|]. right. split; [|done].
    intros ->. by apply Heq.
Qed.

Lemma uint64_range z : 0 ≤ uint64 z < 2 ^ 64.
Proof. unfold uint64. apply Z.mod_pos_bound. lia. Qed.

Lemma uint64_succ_ne z : 0 ≤ z < 2 ^ 64 → uint64 (z + 1) ≠ z.
Proof.
  intros Hz. unfold uint64.
  destruct (decide (z + 1 < 2 ^ 64)).
  - rewrite Z.mod_small by lia. lia.
  - replace (z + 1) with (2 ^ 64) by lia. rewrite Z.mod_same by lia. lia.
Qed.

Lemma last_cons_default {A} (l : list A) : ∀ a d,
  List.last (a :: l) d = List.last l a.
Proof.
  induction l as [|a' l IH]; intros a d; [done|].
  change (List.last (a :: a' :: l) d) with (List.last (a' :: l) d).
  by rewrite !IH.
Qed.

Lemma postmaster_assigns_spec newvals : ∀ shm shm' last_val,
  postmaster_assigns newvals shm = Some shm' →
  begin_update_counter shm = end_update_counter shm →
  0 ≤ end_update_counter shm < 2 ^ 64 →
  ParseShardMap last_val = Parsed (shard_map shm) →
  begin_update_counter shm' = end_update_counter shm' ∧
  0 ≤ end_update_counter shm' < 2 ^ 64 ∧
  ParseShardMap (List.last newvals last_val) = Parsed (shard_map shm').
Proof.
  induction newvals as [|v vs IH]; intros shm shm' last_val;
    cbn [postmaster_assigns].
  { by intros [= <-]. }
  destruct (AssignPageserverConnstring v shm) as [shm1|] eqn:Ha; [|done].
  intros Hrest Heq Hrange Hlast.
  apply AssignPageserverConnstring_spec in Ha as [Hp Hcases].
  rewrite last_cons_default.
  destruct Hcases as [->|(_ & Hb & He)].
  - by eapply IH.
  - eapply IH; [done| | |done].
    + by rewrite Hb, He, Heq.
    + rewrite He. apply uint64_range.
Qed.

(** X13. The shard map in shared memory and the routing on it. After
    [PagestoreShmemInit] and any number of assignments of the setting
    that parse, the two counters are equal, and the map is the parse of
    the latest value: no more than [MAX_SHARDS] shards, each with a
    connection string that fits its row. When it holds a shard at all,
    [get_shard_number] returns for every block a shard number that has
    a row in the map and a slot in [page_servers], and
    [load_shard_map] for that shard returns its connection string
    without raising. *)
Theorem postmaster_shard_map_routes page_server_connstring newvals shm0 shm tag b :
  PagestoreShmemInit page_server_connstring = Some shm0 →
  postmaster_assigns newvals shm0 = Some shm →
  begin_update_counter shm = end_update_counter shm ∧
  well_formed (shard_map shm) ∧
  ParseShardMap (List.last newvals page_server_connstring) = Parsed (shard_map shm) ∧
  (1 ≤ num_shards (shard_map shm) → 1 ≤ stripe_size b < 2 ^ 31 →
   length (page_servers b) = Z.to_nat MAX_SHARDS →
   ∃ shard b' connstr,
     get_shard_number tag [quiet_reads shm 0] b = Ret shard b' ∧
     0 ≤ shard < num_shards (shard_map shm) ∧
     is_Some (page_servers b' !! Z.to_nat shard) ∧
     connstring (shard_map shm) !! Z.to_nat shard = Some connstr ∧
     fits_row connstr ∧
     load_shard_map shard true [quiet_reads shm shard] b' =
       Ret (num_shards (shard_map shm), connstr) b').
Proof.
  intros Hinit Hassigns.
  unfold PagestoreShmemInit in Hinit.
  pose proof Hinit as [Hp0 Hc0]%AssignPageserverConnstring_spec.
  assert (begin_update_counter shm0 = end_update_counter shm0 ∧
          0 ≤ end_update_counter shm0 < 2 ^ 64) as [Heq0 Hr0].
  { destruct Hc0 as [->|(_ & -> & ->)]; simpl; [lia|]. vm_compute. done. }
  destruct (postmaster_assigns_spec newvals shm0 shm page_server_connstring)
    as (Heq & Hrange & Hparse); [done..|].
  pose proof (ParseShardMap_well_formed _ _ Hparse) as Hwf.
  split_and!; [done..|].
  intros Hshards Hstripe Hlen.
  destruct Hwf as (Hn & Hrows & Hfit & _).
  set (n := num_shards (shard_map shm)) in *.
  set (shard := hash_combine (murmurhash32 (LFC.relNode (LFC.rnode tag)))
                             (murmurhash32 (LFC.blockNum tag / stripe_size b)) mod n).
  assert (Hshard : 0 ≤ shard < n) by (apply Z.mod_pos_bound; lia).
  set (b' := if negb (pagestore_local_counter b =? end_update_counter shm)
             then set_local_counter (end_update_counter shm) (disconnect_all b)
             else b).
  assert (Hload : ∀ s want, (want = true → s < n) →
    load_shard_map s want [quiet_reads shm s] b =
      Ret (n, default EmptyString (connstring (shard_map shm) !! Z.to_nat s)) b').
  { intros s want Hs. unfold load_shard_map.
    rewrite seqlock_read_quiet by done. simpl.
    fold n. rewrite (to_shardno_small n) by lia.
    destruct want; simpl; [|done].
    by rewrite (proj2 (Z.leb_gt _ _)) by (by apply Hs). }
  assert (Hsame : same_counters b b').
  { eapply (load_shard_map_counters 0 false). by apply Hload. }
  assert (Hlen' : length (page_servers b') = Z.to_nat MAX_SHARDS).
  { unfold b'. destruct (negb _); [|done]. simpl. by rewrite disconnect_all_length. }
  destruct (Hfit (Z.to_nat shard) ltac:(lia)) as (connstr & Hrow & Hfits).
  exists shard, b', connstr. split_and!; try done; try lia.
  - unfold get_shard_number. rewrite Hload by done.
    destruct Hsame as (_ & _ & -> & _).
    rewrite uint32_small by lia.
    rewrite (proj2 (Z.eqb_neq _ _)) by lia.
    rewrite (proj2 (Z.eqb_neq _ _)) by lia.
    fold shard. by rewrite to_shardno_small by lia.
  - apply lookup_lt_is_Some_2. lia.
  - (* the backend is up to date after the first call *)
    unfold load_shard_map. rewrite seqlock_read_quiet by done. simpl.
    fold n. rewrite (to_shardno_small n) by lia.
    rewrite (proj2 (Z.leb_gt _ _)) by lia. rewrite Hrow. simpl.
    replace (pagestore_local_counter b' =? end_update_counter shm) with true; [done|].
    symmetry. apply Z.eqb_eq. unfold b'.
    destruct (pagestore_local_counter b =? end_update_counter shm) eqn:E; simpl; [|done].
    by apply Z.eqb_eq.
Qed.

(** X14. An assignment that leaves the setting as it was changes
    nothing in shared memory, and a backend that has loaded the shard
    map keeps its connections when it loads it again. An assignment
    that changes the map advances the end counter by one, modulo
    2^64, to a value other than the one the backend holds. The next
    load in that backend then either asks for the connection string of a
    shard that the new map no longer holds, raises the error before it
    compares the counters and leaves the connections and the counter of
    the backend as they were, or it returns, takes the new counter and
    closes every connection. *)
Theorem unchanged_connstring_keeps_connections newval newval' shm shm1 shm2
    shard_no want b v b1 :
  0 ≤ end_update_counter shm < 2 ^ 64 →
  length (page_servers b) = Z.to_nat MAX_SHARDS →
  AssignPageserverConnstring newval shm = Some shm1 →
  load_shard_map shard_no want [quiet_reads shm1 shard_no] b = Ret v b1 →
  AssignPageserverConnstring newval shm1 = Some shm1 ∧
  load_shard_map shard_no want [quiet_reads shm1 shard_no] b1 = Ret v b1 ∧
  (AssignPageserverConnstring newval' shm1 = Some shm2 → shm2 ≠ shm1 →
   end_update_counter shm2 = uint64 (end_update_counter shm1 + 1) ∧
   end_update_counter shm2 ≠ pagestore_local_counter b1 ∧
   if want && (to_shardno (num_shards (shard_map shm2)) <=? shard_no)
   then load_shard_map shard_no want [quiet_reads shm2 shard_no] b1 =
          Raise (report ERROR ShardOutOfRange b1) ∧
        page_servers (report ERROR ShardOutOfRange b1) = page_servers b1 ∧
        pagestore_local_counter (report ERROR ShardOutOfRange b1) =
          pagestore_local_counter b1
   else ∃ b2,
     load_shard_map shard_no want [quiet_reads shm2 shard_no] b1 =
       Ret (to_shardno (num_shards (shard_map shm2)),
            default EmptyString (connstring (shard_map shm2) !! Z.to_nat shard_no)) b2 ∧
     pagestore_local_counter b2 = end_update_counter shm2 ∧
     ∀ j ps, page_servers b2 !! j = Some ps → conn ps = None).
Proof.
  intros Hrange Hlen Ha Hload.
  pose proof Ha as [Hp Hcases]%AssignPageserverConnstring_spec.
  assert (Hagain : AssignPageserverConnstring newval shm1 = Some shm1).
  { unfold AssignPageserverConnstring. rewrite Hp.
    by rewrite bool_decide_eq_true_2. }
  revert Hload. unfold load_shard_map at 1.
  destruct (seqlock_read [quiet_reads shm1 shard_no]) as [r|] eqn:Hr; [|done].
  assert (r = quiet_reads shm1 shard_no) as ->.
  { apply seqlock_read_consistent in Hr as [_ Hin]. by apply list_elem_of_singleton. }
  assert (Hquiet : begin_update_counter shm1 = end_update_counter shm1).
  { apply seqlock_read_consistent in Hr as [Ht _].
    by apply torn_false in Ht as [? _]. }
  destruct (want && _) eqn:Hw; [done|]. intros [= <- Hb1].
  assert (Hcounter : pagestore_local_counter b1 = end_update_counter shm1).
  { rewrite <- Hb1.
    change (rd_end (quiet_reads shm1 shard_no)) with (end_update_counter shm1).
    destruct (pagestore_local_counter b =? _) eqn:E; simpl; [|done].
    by apply Z.eqb_eq in E. }
  assert (Hlen1 : length (page_servers b1) = Z.to_nat MAX_SHARDS).
  { rewrite <- Hb1. destruct (negb _); [|done]. simpl.
    by rewrite disconnect_all_length. }
  clear Hb1.
  split_and!; [done| |].
  - unfold load_shard_map. rewrite Hr, Hw.
    change (rd_end (quiet_reads shm1 shard_no)) with (end_update_counter shm1).
    by rewrite Hcounter, Z.eqb_refl.
  - intros Ha2 Hne.
    apply AssignPageserverConnstring_spec in Ha2 as [_ [?|(_ & Hb & He)]]; [done|].
    assert (Hr1 : 0 ≤ end_update_counter shm1 < 2 ^ 64).
    { destruct Hcases as [->|(_ & _ & ->)]; [done|apply uint64_range]. }
    split; [done|]. split; [rewrite Hcounter, He; by apply uint64_succ_ne|].
    unfold load_shard_map.
    rewrite seqlock_read_quiet by (by rewrite Hb, He, Hquiet).
    change (rd_num_shards (quiet_reads shm2 shard_no))
      with (num_shards (shard_map shm2)).
    destruct (want && (to_shardno (num_shards (shard_map shm2)) <=? shard_no));
      [done|].
    change (rd_end (quiet_reads shm2 shard_no)) with (end_update_counter shm2).
    rewrite Hcounter, He.
    rewrite (proj2 (Z.eqb_neq _ _)) by (symmetry; by apply uint64_succ_ne).
    simpl. eexists. split; [done|]. split; [done|].
    intros j ps. simpl. by apply disconnect_all_closed.
Qed.

End shared_map.

Lemma postmaster_shard_map_routes_witness :
  let tag := LFC.mkBufferTag (LFC.rel 16384) 0 100000 in
  let b := backend_start (H := sample_header) 60 32768 in
  ∃ shm0 shm,
    PagestoreShmemInit (H := sample_header) "host=ps0" = Some shm0 ∧
    postmaster_assigns (H := sample_header) [join_commas two_pageservers] shm0
      = Some shm ∧
    begin_update_counter shm = end_update_counter shm ∧
    well_formed (H := sample_header) (shard_map shm) ∧
    ∃ shard b' connstr,
      get_shard_number (H := sample_header) tag [quiet_reads shm 0] b
        = Ret shard b' ∧
      0 ≤ shard < num_shards (shard_map shm) ∧
      is_Some (page_servers b' !! Z.to_nat shard) ∧
      connstring (shard_map shm) !! Z.to_nat shard = Some connstr ∧
      fits_row (H := sample_header) connstr ∧
      load_shard_map (H := sample_header) shard true [quiet_reads shm shard] b'
        = Ret (num_shards (shard_map shm), connstr) b'.
Proof.
  intros tag b.
  eexists _, _.
  split; [vm_compute; reflexivity|].
  split; [vm_compute; reflexivity|].
  match goal with
  | |- begin_update_counter ?shm = _ ∧ _ =>
      destruct (postmaster_shard_map_routes (H := sample_header) "host=ps0"
                  [join_commas two_pageservers] _ shm tag b
                  ltac:(vm_compute; reflexivity) ltac:(vm_compute; reflexivity))
        as (Heq & Hwf & _ & Hroute)
  end.
  split; [exact Heq|]. split; [exact Hwf|].
  apply Hroute.
  - vm_compute. discriminate.
  - vm_compute. split; [discriminate|reflexivity].
  - reflexivity.
Defined.

Lemma unchanged_connstring_keeps_connections_witness :
  let shm := mkShmem 1 1 (pad_connstrings (H := sample_header)
                            (mkShardMap ["host=ps0"%string] 1)) in
  let shm1 := mkShmem 2 2 (pad_connstrings (H := sample_header)
                             (mkShardMap two_pageservers 2)) in
  let shm2 := mkShmem 3 3 (pad_connstrings (H := sample_header)
                             (mkShardMap (["host=ps1"; "host=ps3"]%string) 2)) in
  let b := set_local_counter 1
             (set_page_servers
                (<[0%nat := mkPageServer (Some (mkConn "host=ps0" false)) true]>
                   (page_servers (backend_start (H := sample_header) 60 32768)))
                (backend_start (H := sample_header) 60 32768)) in
  let b1 := set_local_counter 2 (disconnect_all (H := sample_header) b) in
  AssignPageserverConnstring (H := sample_header) (join_commas two_pageservers) shm
    = Some shm1 ∧
  load_shard_map (H := sample_header) 1 true [quiet_reads shm1 1] b
    = Ret (2, "host=ps2"%string) b1 ∧
  AssignPageserverConnstring (H := sample_header) (join_commas two_pageservers) shm1
    = Some shm1 ∧
  load_shard_map (H := sample_header) 1 true [quiet_reads shm1 1] b1
    = Ret (2, "host=ps2"%string) b1 ∧
  AssignPageserverConnstring (H := sample_header) "host=ps1,host=ps3" shm1
    = Some shm2 ∧
  end_update_counter shm2 = 3 ∧
  ∃ b2,
    load_shard_map (H := sample_header) 1 true [quiet_reads shm2 1] b1
      = Ret (2, "host=ps3"%string) b2 ∧
    pagestore_local_counter b2 = 3 ∧
    ∀ j ps, page_servers b2 !! j = Some ps → conn ps = None.
Proof.
  intros shm shm1 shm2 b b1.
  assert (Ha : AssignPageserverConnstring (H := sample_header)
                 (join_commas two_pageservers) shm = Some shm1)
    by (vm_compute; reflexivity).
  assert (Hl : load_shard_map (H := sample_header) 1 true [quiet_reads shm1 1] b
               = Ret (2, "host=ps2"%string) b1)
    by (vm_compute; reflexivity).
  assert (Ha2 : AssignPageserverConnstring (H := sample_header)
                  "host=ps1,host=ps3" shm1 = Some shm2)
    by (vm_compute; reflexivity).
  destruct (unchanged_connstring_keeps_connections (H := sample_header)
              (join_commas two_pageservers) "host=ps1,host=ps3" shm shm1 shm2 1 true b
              (2, "host=ps2"%string) b1
              ltac:(vm_compute; split; [discriminate|reflexivity])
              ltac:(reflexivity) Ha Hl)
    as (Hagain & Hload & Hclose).
  split; [exact Ha|]. split; [exact Hl|]. split; [exact Hagain|].
  split; [exact Hload|]. split; [exact Ha2|].
  destruct (Hclose Ha2 ltac:(discriminate)) as (He & _ & Hnext).
  split; [exact He|]. exact Hnext.
Defined.

Section seqlock.
Context `{pagestore_client_h}.

(** *** The reader beside the writer *)

Lemma history_lookup ws : ∀ shm t s,
  history shm ws !! t = Some s ↔
  (t ≤ length ws)%nat ∧ s = foldl shmem_apply shm (take t ws).
Proof.
  induction ws as [|w ws IH]; intros shm t s.
  - destruct t as [|t]; simpl.
    + split; [by intros [= <-]|by intros [_ ->]].
    + split; [done|]. intros [Hle _]. simpl in Hle. lia.
  - destruct t as [|t].
    + simpl. split; [intros [= <-]; split; [lia|done]|by intros [_ ->]].
    + change (history shm (w :: ws) !! S t)
        with (history (shmem_apply shm w) ws !! t).
      rewrite IH. simpl. split; intros [? ?]; (split; [lia|done]).
Qed.

(** The counters along writes that follow the protocol: they never go
    back, they differ by one while an update is at work and are equal
    otherwise, and a write from the idle state moves the begin
    counter. *)
Lemma postmaster_writes_counters ws : ∀ updating rest shm,
  postmaster_writes updating (ws ++ rest) = true →
  begin_update_counter shm = end_update_counter shm + Z.b2z updating →
  0 ≤ end_update_counter shm →
  begin_update_counter shm + Z.of_nat (length ws) < 2 ^ 64 →
  ∃ updating',
    postmaster_writes updating' rest = true ∧
    begin_update_counter (foldl shmem_apply shm ws)
      = end_update_counter (foldl shmem_apply shm ws) + Z.b2z updating' ∧
    begin_update_counter shm ≤ begin_update_counter (foldl shmem_apply shm ws) ∧
    begin_update_counter (foldl shmem_apply shm ws)
      ≤ begin_update_counter shm + Z.of_nat (length ws) ∧
    end_update_counter shm ≤ end_update_counter (foldl shmem_apply shm ws) ∧
    (updating = false → ws ≠ [] →
     begin_update_counter shm < begin_update_counter (foldl shmem_apply shm ws)).
Proof.
  induction ws as [|w ws IH]; intros updating rest shm Hp Hc Hpos Hmax.
  { exists updating. simpl in *. split_and!; try done; lia. }
  change (length (w :: ws)) with (S (length ws)) in Hmax |- *.
  change (foldl shmem_apply shm (w :: ws))
    with (foldl shmem_apply (shmem_apply shm w) ws).
  assert (Hsmall : ∀ z, 0 ≤ z < 2 ^ 64 → uint64 z = z).
  { intros z Hz. unfold uint64. by apply Z.mod_small. }
  assert (Hb : Z.b2z updating = 0 ∨ Z.b2z updating = 1) by (destruct updating; auto).
  destruct w as [|found|]; simpl in Hp; apply andb_prop in Hp as [Hu Hp].
  - (* BeginUpdate *)
    destruct updating; [done|]. simpl in Hc.
    assert (Hb1 : begin_update_counter (shmem_apply shm BeginUpdate)
                  = begin_update_counter shm + 1) by (simpl; apply Hsmall; lia).
    assert (He1 : end_update_counter (shmem_apply shm BeginUpdate)
                  = end_update_counter shm) by done.
    destruct (IH true rest (shmem_apply shm BeginUpdate) Hp)
      as (u' & Hrest & Hinv & Hlo & Hhi & Hend & _);
      [rewrite Hb1, He1; simpl; lia|rewrite He1; lia|rewrite Hb1; lia|].
    rewrite Hb1 in Hlo, Hhi. rewrite He1 in Hend.
    exists u'. split_and!; try done; try lia.
  - (* Copy *)
    destruct updating; [|done]. simpl in Hc.
    assert (Hb1 : begin_update_counter (shmem_apply shm (Copy found))
                  = begin_update_counter shm) by done.
    assert (He1 : end_update_counter (shmem_apply shm (Copy found))
                  = end_update_counter shm) by done.
    destruct (IH true rest (shmem_apply shm (Copy found)) Hp)
      as (u' & Hrest & Hinv & Hlo & Hhi & Hend & _);
      [rewrite Hb1, He1; simpl; lia|rewrite He1; lia|rewrite Hb1; lia|].
    rewrite Hb1 in Hlo, Hhi. rewrite He1 in Hend.
    exists u'. split_and!; try done; try lia.
  - (* EndUpdate *)
    destruct updating; [|done]. simpl in Hc.
    assert (Hb1 : begin_update_counter (shmem_apply shm EndUpdate)
                  = begin_update_counter shm) by done.
    assert (He1 : end_update_counter (shmem_apply shm EndUpdate)
                  = end_update_counter shm + 1) by (simpl; apply Hsmall; lia).
    destruct (IH false rest (shmem_apply shm EndUpdate) Hp)
      as (u' & Hrest & Hinv & Hlo & Hhi & Hend & _);
      [rewrite Hb1, He1; simpl; lia|rewrite He1; lia|rewrite Hb1; lia|].
    rewrite Hb1 in Hlo, Hhi. rewrite He1 in Hend.
    exists u'. split_and!; try done; try lia.
Qed.

(** Two times of one history. *)
Lemma history_segment shm0 ws t t' :
  begin_update_counter shm0 = end_update_counter shm0 →
  0 ≤ end_update_counter shm0 →
  begin_update_counter shm0 + Z.of_nat (length ws) < 2 ^ 64 →
  postmaster_writes false ws = true →
  (t ≤ t')%nat → (t' ≤ length ws)%nat →
  let s := foldl shmem_apply shm0 (take t ws) in
  let s' := foldl shmem_apply shm0 (take t' ws) in
  begin_update_counter s ≤ begin_update_counter s' ∧
  end_update_counter s ≤ end_update_counter s' ∧
  end_update_counter s ≤ begin_update_counter s ∧
  (begin_update_counter s = end_update_counter s →
   begin_update_counter s' = begin_update_counter s → s' = s).
Proof.
  intros Hidle Hpos Hmax Hp Htt Ht' s s'.
  set (seg := take (t' - t) (drop t ws)).
  assert (Hws : ws = take t ws ++ (seg ++ drop t' ws)).
  { unfold seg. rewrite <- (take_drop t ws) at 1. f_equal.
    rewrite <- (take_drop (t' - t) (drop t ws)) at 1. f_equal.
    rewrite drop_drop. f_equal. lia. }
  assert (Hs' : s' = foldl shmem_apply s seg).
  { unfold s', s, seg. rewrite <- foldl_app. f_equal.
    rewrite <- (take_drop t (take t' ws)) at 1.
    rewrite take_take, Nat.min_l by lia. f_equal.
    by rewrite skipn_firstn_comm. }
  rewrite Hws in Hp.
  assert (Hlen : (length (take t ws) = t)%nat) by (rewrite length_take; lia).
  assert (Hlen' : (length seg = t' - t)%nat).
  { unfold seg. rewrite length_take, length_drop. lia. }
  destruct (postmaster_writes_counters (take t ws) false _ shm0 Hp)
    as (u & Hp1 & Hinv & Hlo & Hhi & Hend & _); simpl; [lia|done|lia|].
  fold s in Hinv, Hlo, Hhi, Hend.
  assert (Hb : Z.b2z u = 0 ∨ Z.b2z u = 1) by (destruct u; auto).
  destruct (postmaster_writes_counters seg u _ s Hp1)
    as (u' & _ & Hinv' & Hlo' & Hhi' & Hend' & Hmove); [done|lia|lia|].
  rewrite <- Hs' in Hinv', Hlo', Hhi', Hend', Hmove.
  split_and!; [done|done|lia|].
  intros Hsame Hkeep. destruct u; [simpl in Hinv; lia|].
  destruct seg as [|w seg'] eqn:Hseg; [done|].
  specialize (Hmove eq_refl ltac:(done)). lia.
Qed.

(** X15. The retry loop of [load_shard_map] beside the postmaster.
    The postmaster's writes follow [AssignPageserverConnstring]: the
    begin counter, the copy of the map in any number of pieces, the end
    counter; they start from a state with equal counters and the
    counters do not wrap. A turn of the loop makes its six reads in
    program order, at any times between the writes. When the turn ends
    the loop, no update was at work from its read of the end counter to
    its second read of the begin counter: the shared state has equal
    counters there and does not change, so the number of shards and the
    connection string come from one map, and the turn has read what it
    reads with no writer at all. *)
Theorem load_shard_map_reads_one_map shm0 ws shard_no ts r :
  begin_update_counter shm0 = end_update_counter shm0 →
  0 ≤ end_update_counter shm0 →
  begin_update_counter shm0 + Z.of_nat (length ws) < 2 ^ 64 →
  postmaster_writes false ws = true →
  in_program_order ts →
  reads_at (history shm0 ws) shard_no ts = Some r →
  torn r = false →
  ∃ shm,
    history shm0 ws !! t_end ts = Some shm ∧
    begin_update_counter shm = end_update_counter shm ∧
    (∀ t, (t_end ts ≤ t)%nat → (t ≤ t_begin_again ts)%nat →
          history shm0 ws !! t = Some shm) ∧
    r = quiet_reads shm shard_no ∧
    seqlock_read [r] = Some (quiet_reads shm shard_no).
Proof.
  intros Hidle Hpos Hmax Hp (H12 & H23 & H34 & H45 & H56) Hreads Htorn.
  unfold reads_at in Hreads.
  destruct (history shm0 ws !! t_begin ts) as [s1|] eqn:E1; [|done].
  destruct (history shm0 ws !! t_end ts) as [s2|] eqn:E2; [|done].
  destruct (history shm0 ws !! t_num_shards ts) as [s3|] eqn:E3; [|done].
  destruct (history shm0 ws !! t_connstr ts) as [s4|] eqn:E4; [|done].
  destruct (history shm0 ws !! t_begin_again ts) as [s5|] eqn:E5; [|done].
  destruct (history shm0 ws !! t_end_again ts) as [s6|] eqn:E6; [|done].
  simpl in Hreads. injection Hreads as <-.
  unfold torn in Htorn. simpl in Htorn.
  apply orb_false_elim in Htorn as [Htorn Hee].
  apply orb_false_elim in Htorn as [Hbe Hbb].
  apply negb_false_iff, Z.eqb_eq in Hee, Hbe, Hbb.
  apply history_lookup in E1 as [L1 ->], E2 as [L2 ->], E3 as [L3 ->],
    E4 as [L4 ->], E5 as [L5 ->], E6 as [L6 ->].
  set (S := λ t, foldl shmem_apply shm0 (take t ws)) in *.
  assert (Hseg : ∀ t t', (t ≤ t')%nat → (t' ≤ length ws)%nat →
    begin_update_counter (S t) ≤ begin_update_counter (S t') ∧
    end_update_counter (S t) ≤ end_update_counter (S t') ∧
    end_update_counter (S t) ≤ begin_update_counter (S t) ∧
    (begin_update_counter (S t) = end_update_counter (S t) →
     begin_update_counter (S t') = begin_update_counter (S t) → S t' = S t)).
  { intros t t' Htt Ht'. by apply history_segment. }
  change (foldl shmem_apply shm0 (take (t_begin ts) ws)) with (S (t_begin ts)) in *.
  change (foldl shmem_apply shm0 (take (t_end ts) ws)) with (S (t_end ts)) in *.
  change (foldl shmem_apply shm0 (take (t_num_shards ts) ws))
    with (S (t_num_shards ts)) in *.
  change (foldl shmem_apply shm0 (take (t_connstr ts) ws)) with (S (t_connstr ts)) in *.
  change (foldl shmem_apply shm0 (take (t_begin_again ts) ws))
    with (S (t_begin_again ts)) in *.
  change (foldl shmem_apply shm0 (take (t_end_again ts) ws))
    with (S (t_end_again ts)) in *.
  destruct (Hseg (t_begin ts) (t_end ts)) as (Hb12 & _ & _ & _); [lia..|].
  destruct (Hseg (t_end ts) (t_begin_again ts)) as (Hb25 & _ & Hinv2 & _); [lia..|].
  assert (Hidle2 : begin_update_counter (S (t_end ts))
                   = end_update_counter (S (t_end ts))) by lia.
  assert (Hconst : ∀ t, (t_end ts ≤ t)%nat → (t ≤ t_begin_again ts)%nat →
                        S t = S (t_end ts)).
  { intros t Hlo Hhi.
    destruct (Hseg (t_end ts) t) as (Hb2t & _ & _ & Hstay); [lia..|].
    destruct (Hseg t (t_begin_again ts)) as (Hbt5 & _ & _ & _); [lia..|].
    apply Hstay; [done|lia]. }
  assert (Hr : mkReads (begin_update_counter (S (t_begin ts)))
                 (end_update_counter (S (t_end ts)))
                 (num_shards (shard_map (S (t_num_shards ts))))
                 (default EmptyString
                    (connstring (shard_map (S (t_connstr ts))) !! Z.to_nat shard_no))
                 (begin_update_counter (S (t_begin_again ts)))
                 (end_update_counter (S (t_end_again ts)))
               = quiet_reads (S (t_end ts)) shard_no).
  { unfold quiet_reads.
    rewrite (Hconst (t_num_shards ts)), (Hconst (t_connstr ts)),
      (Hconst (t_begin_again ts)) by lia.
    f_equal; lia. }
  exists (S (t_end ts)). split_and!.
  - done.
  - done.
  - intros t Hlo Hhi. apply history_lookup. split; [lia|].
    symmetry. by apply Hconst.
  - done.
  - rewrite Hr. by apply seqlock_read_quiet.
Qed.

End seqlock.

Section writer.
Context `{pagestore_client_h}.

Lemma foldl_copies mixed m : ∀ s,
  foldl shmem_apply s ((Copy <$> mixed) ++ [Copy m])
  = mkShmem (begin_update_counter s) (end_update_counter s) m.
Proof.
  induction mixed as [|x mixed IH]; intros s; [done|].
  cbn [fmap list_fmap app foldl]. by rewrite IH.
Qed.

(** The writes of [assign_writes] are those of a call of
    [AssignPageserverConnstring] that finds the map changed, whatever
    the copy leaves on its way. *)
Lemma assign_writes_replay newval mixed m shm :
  ParseShardMap newval = Parsed m →
  ¬ (connstring (shard_map shm) = connstring m ∧
     num_shards (shard_map shm) = num_shards m) →
  AssignPageserverConnstring newval shm
    = Some (foldl shmem_apply shm (assign_writes mixed m)) ∧
  postmaster_writes false (assign_writes mixed m) = true.
Proof.
  intros Hp Hne. unfold AssignPageserverConnstring, assign_writes.
  rewrite Hp, bool_decide_eq_false_2 by done. split.
  - f_equal. cbn [foldl].
    change [Copy m; EndUpdate] with ([Copy m] ++ [EndUpdate]).
    by rewrite app_assoc, foldl_app, foldl_copies.
  - simpl. induction mixed as [|x mixed IH]; done.
Qed.

End writer.

Lemma load_shard_map_reads_one_map_witness :
  let old_map := pad_connstrings (H := sample_header)
                   (mkShardMap ["host=ps0"%string] 1) in
  let new_map := pad_connstrings (H := sample_header)
                   (mkShardMap two_pageservers 2) in
  let mixed := pad_connstrings (H := sample_header)
                 (mkShardMap ["host=ps1"%string] 2) in
  let ws := assign_writes [mixed] new_map ++ [BeginUpdate; Copy mixed] in
  let ts := mkTimes 4 4 4 4 4 5 in
  ∃ r shm,
    reads_at (history (mkShmem 1 1 old_map) ws) 1 ts = Some r ∧
    history (mkShmem 1 1 old_map) ws !! 4%nat = Some shm ∧
    shm = mkShmem 2 2 new_map ∧
    r = quiet_reads shm 1 ∧
    seqlock_read [r] = Some (quiet_reads shm 1).
Proof.
  intros old_map new_map mixed ws ts.
  eexists _, _. split; [vm_compute; reflexivity|].
  match goal with
  | |- _ !! _ = Some ?shm ∧ _ =>
      destruct (load_shard_map_reads_one_map (mkShmem 1 1 old_map) ws 1 ts _
                  ltac:(reflexivity) ltac:(simpl; lia)
                  ltac:(vm_compute; reflexivity) ltac:(reflexivity)
                  ltac:(unfold in_program_order; simpl; lia)
                  ltac:(vm_compute; reflexivity) ltac:(reflexivity))
        as (shm' & Hat & _ & _ & Hr & Hread)
  end.
  assert (Hshm : shm' = mkShmem 2 2 new_map).
  { vm_compute in Hat. injection Hat as <-. reflexivity. }
  rewrite Hshm in Hr, Hread.
  split; [vm_compute; reflexivity|].
  split; [reflexivity|].
  split; [exact Hr|exact Hread].
Defined.

Section requests.
Context `{pagestore_client_h}.
Variable NeonResponse : Type.
Variable nm_unpack_response : list Byte.byte → option NeonResponse.

(** *** Requests and their failures *)

Lemma pageserver_disconnect_dropped shard_no b c w :
  page_servers b !! Z.to_nat shard_no = Some (mkPageServer (Some c) w) →
  dropped shard_no b (pageserver_disconnect shard_no b).
Proof.
  intros Hps. unfold dropped. split_and!.
  - exists false. rewrite pageserver_disconnect_servers, Hps.
    apply list_lookup_insert_eq. by eapply lookup_lt_Some.
  - unfold pageserver_disconnect, pageserver_disconnect_shard.
    rewrite Hps. simpl. rewrite Hps. done.
  - intros j Hj. rewrite pageserver_disconnect_servers, Hps.
    by apply list_lookup_insert_ne.
  - apply pageserver_disconnect_counters.
  - unfold pageserver_disconnect, pageserver_disconnect_shard.
    rewrite Hps. simpl. rewrite Hps. done.
Qed.

(** A second call finds nothing to close. *)
Lemma pageserver_disconnect_again shard_no b :
  pageserver_disconnect shard_no (pageserver_disconnect shard_no b)
  = pageserver_disconnect shard_no b.
Proof.
  destruct (page_servers b !! Z.to_nat shard_no) as [ps|] eqn:Hps.
  - assert (Hclosed : page_servers (pageserver_disconnect shard_no b)
                        !! Z.to_nat shard_no = Some (mkPageServer None false)).
    { rewrite pageserver_disconnect_servers, Hps.
      apply list_lookup_insert_eq. by eapply lookup_lt_Some. }
    generalize dependent (pageserver_disconnect shard_no b). intros b' Hb'.
    unfold pageserver_disconnect, pageserver_disconnect_shard.
    rewrite Hb'. simpl. rewrite Hb'. simpl.
    rewrite list_insert_id by done. by destruct b'.
  - unfold pageserver_disconnect. rewrite Hps. unfold pageserver_disconnect.
    by rewrite Hps.
Qed.

Lemma dropped_unconnected shard_no b b' :
  dropped shard_no b b' → unconnected shard_no b'.
Proof. by intros [? _]. Qed.

(** One attempt leaves the shard connected when it returns true and
    without a connection otherwise. *)
Lemma pageserver_connect_settles shard_no lvl env b :
  unconnected shard_no b →
  match pageserver_connect shard_no lvl env b with
  | Ret true b' => is_open <$> page_servers b' !! Z.to_nat shard_no = Some true
  | Ret false b' | Raise b' => unconnected shard_no b'
  | Undef | Pending => True
  end.
Proof.
  intros Hu. pose proof Hu as [w Hw]. unfold pageserver_connect. rewrite Hw.
  destruct (load_shard_map shard_no true (ce_turns env) b)
    as [[n connstr] b1|b1| |] eqn:Hload; [| |done..].
  - pose proof (load_shard_map_unconnected _ _ _ _ _ Hu Hload) as [w1 Hw1].
    destruct (backoff_counters (ce_now env) b1) as (_ & _ & _ & Hp2).
    set (b3 := set_last_connect_time _ _).
    assert (Hu3 : unconnected shard_no b3).
    { exists w1. unfold b3. simpl. by rewrite Hp2. }
    assert (Hfail : ∀ m, match connect_failed lvl m b3 with
                         | Ret true b' =>
                             is_open <$> page_servers b' !! Z.to_nat shard_no = Some true
                         | Ret false b' | Raise b' => unconnected shard_no b'
                         | Undef | Pending => True
                         end).
    { intros m. unfold connect_failed, ereport. by destruct lvl. }
    destruct (ce_outcome env).
    + apply Hfail.
    + apply Hfail.
    + destruct lvl; [apply Hfail..|done].
    + simpl. destruct Hu3 as [w3 Hw3].
      rewrite list_lookup_insert_eq by (by eapply lookup_lt_Some). done.
  - revert Hload. unfold load_shard_map.
    destruct (seqlock_read _); [|done]. destruct (_ && _); [|done].
    intros [= <-]. by exists w.
Qed.

Lemma connect_loop_settles shard_no envs : ∀ b,
  unconnected shard_no b →
  match connect_loop shard_no envs b with
  | Ret _ b' => is_open <$> page_servers b' !! Z.to_nat shard_no = Some true
  | Raise b' => unconnected shard_no b'
  | Undef | Pending => True
  end.
Proof.
  induction envs as [|env envs IH]; intros b Hu; simpl; [done|].
  pose proof (pageserver_connect_settles shard_no
                (if n_reconnect_attempts b <? max_reconnect_attempts b
                 then LOG else ERROR) env b Hu) as Hone.
  destruct (pageserver_connect _ _ _ _) as [[|] b1|b1| |]; try done.
  apply IH. destruct Hone as [w1 Hw1]. by exists w1.
Qed.

(** X16. [pageserver_send] leaves no doubt about the connection. When
    it returns true the request was accepted and the shard has an open
    connection; when it returns false the request was not accepted and
    the connection is closed; when it raises, out of [load_shard_map]
    or out of a connection attempt past the budget, the shard has no
    connection. It never returns with a connection it failed to write
    to. *)
Theorem pageserver_send_settles shard_no envs put_ok b :
  match pageserver_send shard_no envs put_ok b with
  | Ret sent b' =>
      sent = put_ok ∧
      if sent
      then is_open <$> page_servers b' !! Z.to_nat shard_no = Some true
      else unconnected shard_no b' ∧
           head (reports b') = Some (LOG, FailedToSendPageRequest)
  | Raise b' => unconnected shard_no b'
  | Undef => True
  | Pending => True
  end.
Proof.
  unfold pageserver_send.
  set (b1 := match page_servers b !! Z.to_nat shard_no with
             | Some (mkPageServer (Some c) _) =>
                 if conn_bad c
                 then pageserver_disconnect shard_no (report LOG BadConnection b)
                 else b
             | _ => b
             end).
  assert (Hsent : ∀ b2,
    is_open <$> page_servers b2 !! Z.to_nat shard_no = Some true →
    match (if put_ok then Ret true b2
           else Ret false (report LOG FailedToSendPageRequest
                             (pageserver_disconnect shard_no b2))) with
    | Ret sent b' =>
        sent = put_ok ∧
        if sent
        then is_open <$> page_servers b' !! Z.to_nat shard_no = Some true
        else unconnected shard_no b' ∧
             head (reports b') = Some (LOG, FailedToSendPageRequest)
    | Raise b' => unconnected shard_no b'
    | Undef => True
    | Pending => True
    end).
  { intros b2 Hopen. destruct put_ok; [done|]. split; [done|]. split; [|done].
    destruct (page_servers b2 !! Z.to_nat shard_no) as [[[c|] w]|] eqn:Hps;
      [|done..].
    apply (dropped_unconnected shard_no b2). simpl.
    by eapply pageserver_disconnect_dropped. }
  destruct (page_servers b1 !! Z.to_nat shard_no) as [[[c1|] w1]|] eqn:Hps1;
    [| |done].
  - apply Hsent. by rewrite Hps1.
  - pose proof (connect_loop_settles shard_no envs b1 ltac:(by exists w1)) as Hloop.
    destruct (connect_loop shard_no envs b1) as [[] b2|b2| |]; [|done..].
    by apply Hsent.
Qed.

(** X17. A request to a shard that the shard map does not hold. The
    shard has no connection, and the map read holds no more than
    [shard_no] shards: [pageserver_send] raises the error of
    [load_shard_map], having slept no time, counted no attempt and
    changed no connection. *)
Theorem pageserver_send_unknown_shard shard_no env envs put_ok b r w :
  page_servers b !! Z.to_nat shard_no = Some (mkPageServer None w) →
  seqlock_read (ce_turns env) = Some r →
  to_shardno (rd_num_shards r) ≤ shard_no →
  pageserver_send shard_no (env :: envs) put_ok b
  = Raise (report ERROR ShardOutOfRange b).
Proof.
  intros Hps Hr Hn. unfold pageserver_send. rewrite Hps. simpl. rewrite Hps.
  unfold pageserver_connect. rewrite Hps. unfold load_shard_map. rewrite Hr.
  simpl. by rewrite (proj2 (Z.leb_le _ _) Hn).
Qed.

(** X18. [pageserver_flush] and [pageserver_receive] on failure. With a
    connection open, a flush that fails and a receive that gets no
    response, by -1, by an error reported or by an interrupt, leave the
    shard dropped: its connection closed, the prefetch state reset
    exactly once (the second call of [pageserver_disconnect] in the
    handler finds nothing to close), and the other shards as they
    were. A flush that succeeds and a receive that unpacks a response
    change nothing. Without a connection the flush returns true with a
    warning and the receive returns NULL, both changing nothing. *)
Theorem failed_request_drops_connection shard_no turns flush_failed b ps :
  page_servers b !! Z.to_nat shard_no = Some ps →
  match pageserver_flush shard_no flush_failed b with
  | IoRet flushed b' log =>
      if flushed
      then b' = b ∧
           ((conn ps = None ∧ log = [(WARNING, FlushWhileDisconnected)]) ∨
            (conn ps ≠ None ∧ flush_failed = false ∧ log = []))
      else conn ps ≠ None ∧ flush_failed = true ∧ dropped shard_no b b' ∧
           log = [(LOG, FailedToFlush)]
  | _ => False
  end ∧
  match pageserver_receive NeonResponse nm_unpack_response shard_no turns b with
  | IoRet (Some resp) b' _ => conn ps ≠ None ∧ b' = b
  | IoRet None b' log =>
      (conn ps = None ∧ b' = b ∧ log = []) ∨
      (conn ps ≠ None ∧ dropped shard_no b b' ∧
       head log = Some (LOG, CopyDataReturnedMinusOne))
  | IoRaise b' log =>
      conn ps ≠ None ∧ dropped shard_no b b' ∧
      head log = Some (LOG, CaughtException)
  | IoUndef => False
  | IoPending => conn ps ≠ None ∧ (call_PQgetCopyData turns).1 = CopyPending
  end.
Proof.
  intros Hps. unfold pageserver_flush, pageserver_receive. rewrite Hps.
  destruct ps as [[c|] w]; simpl.
  2:{ split; [|by left]. split; [done|by left]. }
  pose proof (pageserver_disconnect_dropped shard_no b c w Hps) as Hdrop.
  split.
  - destruct flush_failed; [done|]. split; [done|by right].
  - destruct (call_PQgetCopyData turns) as [[rc data| |] log]; simpl.
    + destruct (0 <=? rc).
      { by destruct (nm_unpack_response data). }
      destruct (rc =? -1); [by right|].
      destruct (rc =? -2); by rewrite pageserver_disconnect_again.
    + done.
    + done.
Qed.

End requests.

Lemma pageserver_send_unknown_shard_witness :
  let shm := mkShmem 1 1 (pad_connstrings (H := sample_header)
                            (mkShardMap two_pageservers 2)) in
  let env := mkEnv [quiet_reads shm 5] 0 HandshakeDone 1000 in
  let b := backend_start (H := sample_header) 60 32768 in
  pageserver_send (H := sample_header) 5 [env] true b
  = Raise (report ERROR ShardOutOfRange b) ∧
  sleeps (report ERROR ShardOutOfRange b) = [] ∧
  n_reconnect_attempts (report ERROR ShardOutOfRange b) = 0.
Proof.
  intros shm env b. split; [|split; reflexivity].
  apply (pageserver_send_unknown_shard (H := sample_header) 5 env [] true b
           (quiet_reads shm 5) false).
  - reflexivity.
  - reflexivity.
  - vm_compute. discriminate.
Defined.

Lemma failed_request_drops_connection_witness :
  let b := set_page_servers
             (<[0%nat := mkPageServer (Some (mkConn "host=ps1" false)) true]>
                (page_servers (backend_start (H := sample_header) 60 32768)))
             (backend_start (H := sample_header) 60 32768) in
  let turns := [mkCopyTurn 0 [] false true true; mkCopyTurn (-2) [] false false false] in
  ∃ b' log b'' log',
    pageserver_flush 0 true b = IoRet false b' log ∧
    dropped 0 b b' ∧
    pageserver_receive (list Byte.byte) Some 0 turns b
    = IoRaise b'' log' ∧
    dropped 0 b b'' ∧
    log' = [(LOG, CaughtException); (ERROR, CouldNotReadCopyData)] ∧
    prefetch_resets b'' = 1%nat.
Proof.
  intros b turns.
  pose proof (failed_request_drops_connection
                (list Byte.byte) Some 0 turns true b
                (mkPageServer (Some (mkConn "host=ps1" false)) true)
                ltac:(reflexivity)) as [Hflush Hrecv].
  destruct (pageserver_flush 0 true b)
    as [[|] b' log|b' log| |] eqn:Ef; try (vm_compute in Ef; discriminate).
  destruct (pageserver_receive (list Byte.byte) Some 0 turns b)
    as [[resp|] b'' log'|b'' log'| |] eqn:Er; try (vm_compute in Er; discriminate).
  destruct Hflush as (_ & _ & Hd & _). destruct Hrecv as (_ & Hd' & _).
  exists b', log, b'', log'. split; [reflexivity|]. split; [exact Hd|].
  split; [reflexivity|]. split; [exact Hd'|].
  vm_compute in Er. injection Er as <- <-. split; reflexivity.
Defined.

Section end_to_end.
Context `{pagestore_client_h}.

(** *** From the setting to the connection *)

(** X19. Requests for a shard go to the pageserver the setting names
    for it. The setting is a list of connection strings joined by
    commas, and [PagestoreShmemInit] has put it into shared memory. A
    backend without a connection for shard [i] sends a request; the
    first attempt to connect gets through. Then [pageserver_send]
    returns true with the connection of shard [i] open to the [i]-th
    string of the list, the attempt counter at 0 and the local counter
    at the end counter of the map. *)
Theorem send_reaches_configured_pageserver items i s shm env envs b w :
  Forall fits_row items → Z.of_nat (length items) ≤ MAX_SHARDS →
  last items ≠ Some EmptyString →
  items !! i = Some s →
  PagestoreShmemInit (join_commas items) = Some shm →
  page_servers b !! i = Some (mkPageServer None w) →
  ce_turns env = [quiet_reads shm (Z.of_nat i)] →
  ce_outcome env = HandshakeDone →
  ∃ b',
    pageserver_send (Z.of_nat i) (env :: envs) true b = Ret true b' ∧
    page_servers b' !! i = Some (mkPageServer (Some (mkConn s false)) true) ∧
    n_reconnect_attempts b' = 0 ∧
    pagestore_local_counter b' = end_update_counter shm.
Proof.
  intros Hfit Hmax Hlast Hi Hinit Hps Hturns Hout.
  destruct (ParseShardMap_loop_join items
              (S (String.length (join_commas items))) 0 [] Hfit ltac:(lia))
    as [H1 _].
  assert (Hp : ParseShardMap (join_commas items) =
    Parsed (pad_connstrings (mkShardMap items (Z.of_nat (length items))))).
  { unfold ParseShardMap. rewrite H1 by (done || lia). done. }
  unfold PagestoreShmemInit in Hinit.
  apply AssignPageserverConnstring_spec in Hinit as [Hmap Hcases].
  rewrite Hp in Hmap. injection Hmap as Hmap.
  assert (Heq : begin_update_counter shm = end_update_counter shm).
  { destruct Hcases as [->|(_ & -> & ->)]; done. }
  apply lookup_lt_Some in Hi as Hlt.
  assert (Hrow : connstring (shard_map shm) !! i = Some s).
  { rewrite <- Hmap. unfold pad_connstrings. simpl. by apply lookup_app_l_Some. }
  assert (Hnum : num_shards (shard_map shm) = Z.of_nat (length items)).
  { by rewrite <- Hmap. }
  assert (Hu : unconnected (Z.of_nat i) b).
  { exists w. by rewrite Nat2Z.id. }
  destruct (load_shard_map (Z.of_nat i) true (ce_turns env) b)
    as [[n connstr] b1|b1| |] eqn:Hload.
  2-4: revert Hload; unfold load_shard_map;
       rewrite Hturns, seqlock_read_quiet by done; simpl;
       rewrite Hnum, to_shardno_small by lia;
       by rewrite (proj2 (Z.leb_gt _ _)) by lia.
  pose proof (load_shard_map_unconnected _ _ _ _ _ Hu Hload) as [w1 Hw1].
  rewrite Nat2Z.id in Hw1.
  assert (Hres : connstr = s ∧ pagestore_local_counter b1 = end_update_counter shm).
  { revert Hload. unfold load_shard_map.
    rewrite Hturns, seqlock_read_quiet by done. simpl.
    rewrite Hnum, to_shardno_small by lia.
    rewrite (proj2 (Z.leb_gt _ _)) by lia.
    rewrite Nat2Z.id, Hrow. simpl. intros [= _ <- <-]. split; [done|].
    destruct (pagestore_local_counter b =? end_update_counter shm) eqn:E; simpl; [|done].
    by apply Z.eqb_eq. }
  destruct Hres as [-> Hcounter].
  destruct (backoff_counters (ce_now env) b1) as (_ & _ & _ & Hp2).
  eexists. split_and!.
  - unfold pageserver_send. rewrite Nat2Z.id, Hps. rewrite Hps.
    cbn [connect_loop]. unfold pageserver_connect.
    rewrite Nat2Z.id, Hps, Hload, Hout. reflexivity.
  - simpl. rewrite Hp2. apply list_lookup_insert_eq. by eapply lookup_lt_Some.
  - done.
  - simpl. unfold backoff. by destruct (_ <? _).
Qed.

End end_to_end.

Lemma send_reaches_configured_pageserver_witness :
  let shm := mkShmem 1 1 (pad_connstrings (H := sample_header)
                            (mkShardMap two_pageservers 2)) in
  let env := mkEnv [quiet_reads shm 1] 0 HandshakeDone 1000 in
  let b := backend_start (H := sample_header) 60 32768 in
  PagestoreShmemInit (H := sample_header) (join_commas two_pageservers) = Some shm ∧
  ∃ b',
    pageserver_send (H := sample_header) 1 [env] true b = Ret true b' ∧
    page_servers b' !! 1%nat
      = Some (mkPageServer (Some (mkConn "host=ps2" false)) true) ∧
    n_reconnect_attempts b' = 0 ∧
    pagestore_local_counter b' = 1.
Proof.
  intros shm env b.
  assert (Hinit : PagestoreShmemInit (H := sample_header)
                    (join_commas two_pageservers) = Some shm)
    by (vm_compute; reflexivity).
  split; [exact Hinit|].
  apply (send_reaches_configured_pageserver (H := sample_header)
           two_pageservers 1 "host=ps2" shm env [] b false).
  - repeat constructor.
  - vm_compute. discriminate.
  - discriminate.
  - reflexivity.
  - exact Hinit.
  - reflexivity.
  - reflexivity.
  - reflexivity.
Defined.

End PSC_Extra.
